(** * iphoneclaw: the agent loop, its L0 memoization cache and its supervisor plane

    A shallow embedding of

      - [iphoneclaw/automation/fingerprint.py]  ([dhash], [hamming_distance]),
      - [iphoneclaw/automation/cache.py]        ([L0Cache]),
      - [iphoneclaw/automation/router.py]       ([L0Router]),
      - [iphoneclaw/supervisor/state.py]        ([WorkerControl]),
      - [iphoneclaw/supervisor/hub.py]          ([SupervisorHub]),
      - [iphoneclaw/agent/conversation.py]      ([ConversationStore]),
      - [iphoneclaw/agent/loop.py]              ([Worker.run]),

    followed by the properties of the specification, stated over these
    definitions.

    Conventions.  A Python [int] is a [Z]; a [str] is a [string]; [None] or
    a value is an [option].  A [dict] is an association list in insertion
    order, which is the order in which Python iterates it.  Cache entries
    are objects that several owners hold and write to; they live in an
    explicit object store and are named by their index in it.  A call that
    may raise returns an [outcome].  The loop is written in a small monad
    that threads the worker's objects, records every call that leaves the
    loop, and has exceptions and the early exits [continue] and [return].
    What the collaborators of the loop return (screen capture, model,
    executor, recorder, clock) and what other threads do to the control
    object is given by an environment, one per pass of the loop. *)

From Stdlib Require Import ZArith Lia Bool Ascii String.
From stdpp Require Import base list strings.
Local Open Scope Z_scope.

(* ===================================================================== *)
(** ** iphoneclaw.types (the members the modelled code uses)              *)
(* ===================================================================== *)

Module Types.

(** Modelled from the spec: [iphoneclaw/types.py] is not part of the
    sources at hand.  [StatusEnum] has the eight members that [state.py]
    and [loop.py] name; the specification's state machine lists the same
    eight. *)
Inductive StatusEnum : Type :=
  | INIT | RUNNING | PAUSE | HANG | USER_STOPPED | ERROR | END | CALL_USER.

Definition StatusEnum_eqb (a b : StatusEnum) : bool :=
  match a, b with
  | INIT, INIT | RUNNING, RUNNING | PAUSE, PAUSE | HANG, HANG
  | USER_STOPPED, USER_STOPPED | ERROR, ERROR | END, END
  | CALL_USER, CALL_USER => true
  | _, _ => false
  end.

(** A JSON-like value, for the [Dict[str, Any]] payloads of events and
    for the [__dict__] of [ActionInputs].  The string that
    [StatusEnum.value] yields is declared in the absent [types.py]; a
    payload therefore carries the member itself. *)
Inductive pyval : Type :=
  | VNone
  | VStr (s : string)
  | VInt (z : Z)
  | VBool (b : bool)
  | VStatus (s : StatusEnum).

Abbreviation pydict := (list (string * pyval)) (only parsing).

(** Modelled from the spec: [PredictionParsed] of the absent [types.py],
    with the four fields that [loop.py], [router.py] and the tests read;
    [action_inputs] is kept as the [__dict__] of its [ActionInputs]. *)
Record PredictionParsed : Type := mkPred {
  action_type : string;
  action_inputs : pydict;
  thought : string;
  raw_action : string
}.

(** Modelled from the spec: [SupervisorEvent(type, data, ts)] of the
    absent [types.py]. *)
Record SupervisorEvent : Type := mkEvent {
  ev_type : string;
  ev_data : pydict;
  ev_ts : Z
}.

End Types.
Export Types.

(* ===================================================================== *)
(** ** Python built-ins used by the modelled code                         *)
(* ===================================================================== *)

Module Py.

(** The binary digits of a positive number, most significant first. *)
Fixpoint pos_digits (p : positive) : string :=
  match p with
  | xH => "1"
  | xO q => pos_digits q +:+ "0"
  | xI q => pos_digits q +:+ "1"
  end.

(** [bin(z)]: ["0b..."], with a leading minus sign for a negative number. *)
Definition bin (z : Z) : string :=
  match z with
  | Z0 => "0b0"
  | Zpos p => "0b" +:+ pos_digits p
  | Zneg p => "-0b" +:+ pos_digits p
  end.

(** [s.count(c)] for a one-character [c]. *)
Fixpoint count (c : ascii) (s : string) : Z :=
  match s with
  | EmptyString => 0
  | String a r => (if Ascii.eqb a c then 1 else 0) + count c r
  end.

(** A [dict] with integer keys: association list in insertion order. *)
Abbreviation dict V := (list (Z * V)) (only parsing).

Section Dict.
Context {V : Type}.

Definition dict_keys (d : dict V) : list Z := map fst d.

(** [k in d] *)
Definition dict_contains (k : Z) (d : dict V) : bool :=
  existsb (fun kv => fst kv =? k) d.

(** [d[k]], [None] standing for [KeyError]. *)
Fixpoint dict_get (k : Z) (d : dict V) : option V :=
  match d with
  | [] => None
  | (k', v) :: rest => if k' =? k then Some v else dict_get k rest
  end.

(** [d[k] = v]: an existing key keeps its position, a new key goes last. *)
Fixpoint dict_set (k : Z) (v : V) (d : dict V) : dict V :=
  match d with
  | [] => [(k, v)]
  | (k', v') :: rest =>
      if k' =? k then (k', v) :: rest else (k', v') :: dict_set k v rest
  end.

(** [del d[k]] and [d.pop(k, None)]: both remove the key when it is there;
    they differ on an absent key only ([del] raises), and the one caller
    of [del] passes a key taken from the dict. *)
Definition dict_del (k : Z) (d : dict V) : dict V :=
  filter (fun kv => fst kv ≠ k) d.
End Dict.

(** [min(xs, key=f)]: the first element whose key is smallest; [None]
    stands for the [ValueError] on an empty iterable. *)
Fixpoint min_from {A : Type} (f : A → Z) (best : A) (xs : list A) : A :=
  match xs with
  | [] => best
  | x :: rest => if f x <? f best then min_from f x rest else min_from f best rest
  end.

Definition py_min {A : Type} (f : A → Z) (xs : list A) : option A :=
  match xs with
  | [] => None
  | x :: rest => Some (min_from f x rest)
  end.

End Py.

(* ===================================================================== *)
(** ** iphoneclaw.automation.fingerprint                                  *)
(* ===================================================================== *)

Module Fingerprint.

(** [return bin(a ^ b).count("1")] *)
Definition hamming_distance (a b : Z) : Z :=
  Py.count "1" (Py.bin (Z.lxor a b)).

(** One turn of the inner loop of [dhash], on [(hash_val, bit)]:
    [if pixels[idx] < pixels[idx + 1]: hash_val |= 1 << bit] and
    [bit += 1]. *)
Definition dhash_cell (pixels : list Z) (st : Z * Z) (idx : nat) : Z * Z :=
  ((if nth idx pixels 0 <? nth (idx + 1) pixels 0
    then Z.lor (fst st) (Z.shiftl 1 (snd st))
    else fst st),
   snd st + 1).

(** The two nested [for] loops of [dhash] over the 9x8 bitmap:
    [idx = row * 9 + col] for [row] and [col] in [range(8)]. *)
Definition dhash_loop (pixels : list Z) : Z :=
  fst (fold_left
         (fun st row =>
            fold_left (fun st col => dhash_cell pixels st (row * 9 + col))
                      (seq 0 8) st)
         (seq 0 8) (0, 0)).

(** [dhash(b64, status_bar_frac=...)].  Decoding the JPEG, cropping the
    status bar and drawing into the 9x8 gray bitmap is the work of the
    platform's imaging library: [render] stands for it and gives the bytes
    read back from the bitmap, or [None] where [dhash] gives up before it
    has them. *)
Definition dhash (render : string → option (list Z)) (b64 : string)
    : option Z :=
  match render b64 with
  | None => None
  | Some pixels =>
      if (length pixels <? 72)%nat then None else Some (dhash_loop pixels)
  end.

End Fingerprint.
Export Fingerprint.

(* ===================================================================== *)
(** ** iphoneclaw.automation.cache                                        *)
(* ===================================================================== *)

Module Cache.

(** [@dataclass class L0CacheEntry] *)
Record L0CacheEntry : Type := mkEntry {
  fingerprint : Z;
  actions : list PredictionParsed;
  post_fingerprint : option Z;
  hit_count : Z;
  last_step : Z;
  succeeded : bool
}.

(** Entries are mutable objects: [lookup] hands out the very object that
    the dict holds, and [record_hit] and [mark_failed] write to it.  The
    object store lists every entry ever allocated; a reference is an index
    into it.  Nothing is ever freed (Python's collector only frees what no
    one can reach). *)
Abbreviation ref := nat (only parsing).
Abbreviation heap := (list L0CacheEntry) (only parsing).

#[export] Instance L0CacheEntry_inhabited : Inhabited L0CacheEntry :=
  populate (mkEntry 0 [] None 0 0 true).

(** The object behind a reference.  Python has no dangling reference; the
    default value is never read from a well-formed state. *)
Definition deref (h : heap) (r : ref) : L0CacheEntry := h !!! r.

(** [class L0Cache]: the three settings and [self._entries]. *)
Record L0Cache : Type := mkCache {
  hash_threshold : Z;
  max_reuse : Z;
  max_entries : Z;
  _entries : Py.dict ref
}.

(** [L0Cache(hash_threshold=5, max_reuse=3, max_entries=256)] *)
Definition new_cache (hash_threshold max_reuse max_entries : Z) : L0Cache :=
  mkCache hash_threshold max_reuse max_entries [].

Definition with_entries (c : L0Cache) (d : Py.dict ref) : L0Cache :=
  mkCache (hash_threshold c) (max_reuse c) (max_entries c) d.

(** The body of the [for entry in self._entries.values()] loop of
    [lookup], threading [best] and [best_dist]. *)
Fixpoint lookup_scan (h : heap) (max_reuse fp : Z) (refs : list ref)
    (best : option ref) (best_dist : Z) : option ref :=
  match refs with
  | [] => best
  | r :: rest =>
      let entry := deref h r in
      if negb (succeeded entry) then
        lookup_scan h max_reuse fp rest best best_dist
      else if hit_count entry >=? max_reuse then
        lookup_scan h max_reuse fp rest best best_dist
      else
        let dist := hamming_distance fp (fingerprint entry) in
        if dist <? best_dist then
          lookup_scan h max_reuse fp rest (Some r) dist
        else
          lookup_scan h max_reuse fp rest best best_dist
  end.

(** [L0Cache.lookup]: reads only. *)
Definition lookup (h : heap) (c : L0Cache) (fp : Z) : option ref :=
  lookup_scan h (max_reuse c) fp (map snd (_entries c)) None
    (hash_threshold c + 1).

Definition set_hit (step : Z) (e : L0CacheEntry) : L0CacheEntry :=
  mkEntry (fingerprint e) (actions e) (post_fingerprint e)
          (hit_count e + 1) step (succeeded e).

Definition set_failed (e : L0CacheEntry) : L0CacheEntry :=
  mkEntry (fingerprint e) (actions e) (post_fingerprint e)
          (hit_count e) (last_step e) false.

(** [L0Cache.record_hit]: [entry.hit_count += 1; entry.last_step = step]. *)
Definition record_hit (h : heap) (entry : ref) (step : Z) : heap :=
  alter (set_hit step) entry h.

(** [L0Cache.mark_failed]: [entry.succeeded = False]. *)
Definition mark_failed (h : heap) (entry : ref) : heap :=
  alter set_failed entry h.

(** [L0Cache.evict]: [self._entries.pop(entry.fingerprint, None)]. *)
Definition evict (h : heap) (c : L0Cache) (entry : ref) : L0Cache :=
  with_entries c (Py.dict_del (fingerprint (deref h entry)) (_entries c)).

(** [self._entries[fp].last_step], the key function of the [min] in
    [store]. *)
Definition last_step_of (h : heap) (d : Py.dict ref) (fp : Z) : Z :=
  match Py.dict_get fp d with
  | Some r => last_step (deref h r)
  | None => 0
  end.

(** [L0Cache.store].  [None] is the [ValueError] that [min] raises on an
    empty dict (reached only when [max_entries <= 0]).  The new entry is a
    fresh object, also when the key already has one. *)
Definition store (h : heap) (c : L0Cache) (fp : Z)
    (acts : list PredictionParsed) (post_fp : option Z) (step : Z)
    : option (heap * L0Cache) :=
  let d := _entries c in
  let after_evict :=
    if (Z.of_nat (length d) >=? max_entries c) && negb (Py.dict_contains fp d)
    then
      match Py.py_min (last_step_of h d) (Py.dict_keys d) with
      | None => None
      | Some oldest_fp => Some (Py.dict_del oldest_fp d)
      end
    else Some d in
  match after_evict with
  | None => None
  | Some d1 =>
      let r := length h in
      Some (h ++ [mkEntry fp acts post_fp 0 step true],
            with_entries c (Py.dict_set fp r d1))
  end.

(** [L0Cache.stats]: total, failed, exhausted. *)
Definition stats (h : heap) (c : L0Cache) : Z * Z * Z :=
  let es := map (fun kv => deref h (snd kv)) (_entries c) in
  (Z.of_nat (length es),
   Z.of_nat (length (filter (fun e => succeeded e = false) es)),
   Z.of_nat (length (filter (fun e => max_reuse c ≤ hit_count e) es))).

End Cache.
Export Cache.

(* ===================================================================== *)
(** ** iphoneclaw.automation.router                                       *)
(* ===================================================================== *)

Module Router.

(** [_UNCACHEABLE_ACTIONS = {"finished", "call_user", "error_env"}] *)
Definition _UNCACHEABLE_ACTIONS : list string :=
  ["finished"; "call_user"; "error_env"]%string.

Definition in_strings (s : string) (l : list string) : bool :=
  existsb (String.eqb s) l.

(** [class L0Router]: it owns one cache, built with the default
    [max_entries].  [status_bar_frac] is a float that is only handed on to
    [dhash]; it is part of the injected fingerprint function below. *)
Record L0Router : Type := mkRouter { cache : L0Cache }.

(** [L0Router(hash_threshold=5, max_reuse=3)] *)
Definition new_router (hash_threshold max_reuse : Z) : L0Router :=
  mkRouter (new_cache hash_threshold max_reuse 256).

(** [L0Router.fingerprint]: [dhash(b64, status_bar_frac=...)].  Decoding and
    scaling the image is done by the platform's imaging library, so [dhash]
    is taken as a function from the encoded image to a fingerprint or
    [None]. *)
Definition fingerprint_of (dhash : string → option Z) (b64 : string)
    : option Z := dhash b64.

(** [L0Router.try_cache] *)
Definition try_cache (h : heap) (r : L0Router) (fp : option Z) (step : Z)
    : option ref :=
  match fp with
  | None => None
  | Some f => lookup h (cache r) f
  end.

(** [L0Router.verify_and_commit] *)
Definition verify_and_commit (h : heap) (r : L0Router) (entry : ref)
    (post_fp : option Z) (step : Z) (success : bool)
    : heap * L0Router * bool :=
  if negb success then
    (mark_failed h entry, r, false)
  else
    match post_fp with
    | Some p =>
        if p =? fingerprint (deref h entry) then
          (h, mkRouter (evict h (cache r) entry), false)
        else
          (record_hit h entry step, r, true)
    | None => (record_hit h entry step, r, true)
    end.

(** [L0Router.should_cache_actions] *)
Definition should_cache_actions (acts : list PredictionParsed) : bool :=
  match acts with
  | [] => false
  | _ => forallb (fun a => negb (in_strings (action_type a) _UNCACHEABLE_ACTIONS)) acts
  end.

(** [L0Router.record]; [None] as in [store]. *)
Definition record (h : heap) (r : L0Router) (fp : option Z)
    (acts : list PredictionParsed) (post_fp : option Z) (step : Z)
    : option (heap * L0Router) :=
  match fp with
  | None => Some (h, r)
  | Some f =>
      if negb (should_cache_actions acts) then Some (h, r)
      else
        match store h (cache r) f acts post_fp step with
        | None => None
        | Some (h', c') => Some (h', mkRouter c')
        end
  end.

End Router.
Export Router.

(* ===================================================================== *)
(** ** Exceptions                                                         *)
(* ===================================================================== *)

Module Exc.

(** What a call does: it returns a value or raises an error, that is, an
    exception of class [Exception] (the text describes it, as [str(e)]
    would).  [KeyboardInterrupt], [SystemExit] and the other exceptions
    outside that class, which no [except Exception] clause catches, are not
    modelled. *)
Inductive outcome (A : Type) : Type :=
  | Returns (a : A)
  | Raises (e : string).
Arguments Returns {A} a.
Arguments Raises {A} e.

Definition bind {A B : Type} (m : outcome A) (k : A → outcome B) : outcome B :=
  match m with
  | Returns a => k a
  | Raises e => Raises e
  end.

(** [try: m  except Exception: handler] *)
Definition try_except {A : Type} (m : outcome A) (handler : string → outcome A)
    : outcome A :=
  match m with
  | Returns a => Returns a
  | Raises e => handler e
  end.

End Exc.
Export Exc.

Notation "x ←! m ; k" := (Exc.bind m (fun x => k))
  (at level 100, m at next level, right associativity, only parsing).

(* ===================================================================== *)
(** ** iphoneclaw.supervisor.state                                        *)
(* ===================================================================== *)

Module State.

(** [@dataclass class WorkerControl].  Every method body runs under
    [self._lock], so each method is one atomic step on this record. *)
Record WorkerControl : Type := mkControl {
  status : StatusEnum;
  paused : bool;
  stopped : bool;
  injected : list string
}.

(** [WorkerControl()] with the dataclass defaults. *)
Definition new_control : WorkerControl := mkControl INIT false false [].

Definition pause (c : WorkerControl) : WorkerControl :=
  mkControl
    (if StatusEnum_eqb (status c) RUNNING then PAUSE else status c)
    true (stopped c) (injected c).

Definition resume (c : WorkerControl) : WorkerControl :=
  mkControl
    (if StatusEnum_eqb (status c) PAUSE || StatusEnum_eqb (status c) HANG
     then RUNNING else status c)
    false (stopped c) (injected c).

Definition stop (c : WorkerControl) : WorkerControl :=
  mkControl USER_STOPPED (paused c) true (injected c).

Definition set_status (s : StatusEnum) (c : WorkerControl) : WorkerControl :=
  if stopped c then
    mkControl USER_STOPPED (paused c) (stopped c) (injected c)
  else if paused c && StatusEnum_eqb s RUNNING then
    c
  else
    mkControl s (paused c) (stopped c) (injected c).

Definition inject (text : string) (c : WorkerControl) : WorkerControl :=
  mkControl (status c) (paused c) (stopped c) (injected c ++ [text]).

(** [pop_injected]: [None] on an empty list, else [self.injected.pop(0)]. *)
Definition pop_injected (c : WorkerControl) : option string * WorkerControl :=
  match injected c with
  | [] => (None, c)
  | t :: rest => (Some t, mkControl (status c) (paused c) (stopped c) rest)
  end.

(** [snapshot]: status, paused, stopped, pending_injected. *)
Definition snapshot (c : WorkerControl) : StatusEnum * bool * bool * Z :=
  (status c, paused c, stopped c, Z.of_nat (length (injected c))).

(** One call on the control object by whoever holds it. *)
Inductive op : Type :=
  | Pause
  | Resume
  | Stop
  | SetStatus (s : StatusEnum)
  | Inject (text : string)
  | PopInjected.

Definition apply (o : op) (c : WorkerControl) : WorkerControl :=
  match o with
  | Pause => pause c
  | Resume => resume c
  | Stop => stop c
  | SetStatus s => set_status s c
  | Inject t => inject t c
  | PopInjected => snd (pop_injected c)
  end.

(** The calls of [ops], first to last. *)
Definition apply_all (ops : list op) (c : WorkerControl) : WorkerControl :=
  fold_left (fun c o => apply o c) ops c.

(** The states that some sequence of calls reaches from a new object. *)
Inductive reachable : WorkerControl → Prop :=
  | reach_new : reachable new_control
  | reach_step o c : reachable c → reachable (apply o c).

End State.
Export State.

(* ===================================================================== *)
(** ** iphoneclaw.supervisor.hub                                          *)
(* ===================================================================== *)

Module Hub.

(** [queue.Queue(maxsize)]: a bounded FIFO.  [qid] stands for the identity
    of the queue object, which [unsubscribe] compares with [is]. *)
Record Queue : Type := mkQueue {
  qid : nat;
  maxsize : Z;
  qitems : list SupervisorEvent
}.

(** [Queue.full()]: a queue with [maxsize <= 0] is never full. *)
Definition full (q : Queue) : bool :=
  (0 <? maxsize q) && (maxsize q <=? Z.of_nat (length (qitems q))).

(** [Queue.put_nowait]: raises [queue.Full] on a full queue. *)
Definition put_nowait (q : Queue) (evt : SupervisorEvent) : outcome Queue :=
  if full q then Raises "Full"
  else Returns (mkQueue (qid q) (maxsize q) (qitems q ++ [evt])).

(** [class SupervisorHub]; [next_qid] numbers the queues it creates. *)
Record SupervisorHub : Type := mkHub {
  _subs : list Queue;
  _last_status : pydict;
  next_qid : nat
}.

(** [SupervisorHub()] *)
Definition new_hub : SupervisorHub :=
  mkHub [] [("status", VStr "init")]%string 0.

(** [subscribe]: a new [Queue(maxsize=1000)], registered and returned. *)
Definition subscribe (hub : SupervisorHub) : Queue * SupervisorHub :=
  let q := mkQueue (next_qid hub) 1000 [] in
  (q, mkHub (_subs hub ++ [q]) (_last_status hub) (S (next_qid hub))).

(** [unsubscribe]: [self._subs = [x for x in self._subs if x is not q]] *)
Definition unsubscribe (q : nat) (hub : SupervisorHub) : SupervisorHub :=
  mkHub (filter (fun x => qid x ≠ q) (_subs hub)) (_last_status hub)
        (next_qid hub).

(** The [for q in subs: try: q.put_nowait(evt) except Exception: pass] loop
    of [publish]. *)
Fixpoint deliver (evt : SupervisorEvent) (subs : list Queue)
    : outcome (list Queue) :=
  match subs with
  | [] => Returns []
  | q :: rest =>
      q' ←! try_except (put_nowait q evt) (fun _ => Returns q);
      rest' ←! deliver evt rest;
      Returns (q' :: rest')
  end.

(** [publish(type_, data)]; [now] is what [time.time()] reads, and
    [data or {}] turns an absent payload into the empty one. *)
Definition publish (now : Z) (type_ : string) (data : option pydict)
    (hub : SupervisorHub) : outcome SupervisorHub :=
  let evt := mkEvent type_ (default [] data) now in
  subs' ←! deliver evt (_subs hub);
  Returns (mkHub subs' (_last_status hub) (next_qid hub)).

(** Whether the keyword arguments [kwargs] of a call have one named
    [name]. *)
Definition has_keyword (name : string) (kwargs : pydict) : bool :=
  existsb (fun kv => String.eqb (fst kv) name) kwargs.

(** [set_status(status, **extra)].  A keyword argument named [status]
    collides with the parameter of that name: the call raises [TypeError]
    and the body does not run. *)
Definition set_status (now : Z) (status : StatusEnum) (extra : pydict)
    (hub : SupervisorHub) : outcome SupervisorHub :=
  if has_keyword "status" extra then Raises "TypeError"
  else
    let last := ("status"%string, VStatus status) :: extra in
    publish now "status" (Some last)
      (mkHub (_subs hub) last (next_qid hub)).

(** [get_status] *)
Definition get_status (hub : SupervisorHub) : pydict := _last_status hub.

End Hub.
Export Hub.

(* ===================================================================== *)
(** ** iphoneclaw.agent.conversation                                      *)
(* ===================================================================== *)

Module Conversation.

(** [@dataclass class ConversationItem] *)
Record ConversationItem : Type := mkItem {
  role : string;
  text : string;
  ts : Z;
  meta : pydict
}.

(** [ConversationStore]: its [_items]. *)
Abbreviation ConversationStore := (list ConversationItem) (only parsing).

(** [add(role, text, **meta)] *)
Definition add (now : Z) (role text : string) (meta : pydict)
    (items : ConversationStore) : ConversationStore :=
  items ++ [mkItem role text now meta].

Definition has_role (r : string) (it : option ConversationItem) : bool :=
  match it with
  | Some x => String.eqb (role x) r
  | None => false
  end.

(** The [for i in range(len(items) - 1, -1, -1)] loop of
    [_tail_items_by_rounds]: [n] indices are still to visit, the next one is
    [n - 1].  The result is [start_idx]: the index at the [break], or the
    initial 0 when the loop runs out. *)
Fixpoint scan_back (items : list ConversationItem) (tail_rounds : Z)
    (n : nat) (assistant_seen : Z) : nat :=
  match n with
  | O => O
  | S i =>
      if has_role "assistant" (items !! i) then
        if assistant_seen + 1 >=? tail_rounds then i
        else scan_back items tail_rounds i (assistant_seen + 1)
      else scan_back items tail_rounds i assistant_seen
  end.

(** The adjustment after the loop: include the user prompt before the first
    assistant turn. *)
Definition include_prompt (items : list ConversationItem) (start_idx : nat)
    : nat :=
  if (0 <? start_idx)%nat && has_role "assistant" (items !! start_idx) then
    if has_role "user" (items !! (start_idx - 1)%nat) then (start_idx - 1)%nat
    else start_idx
  else start_idx.

(** [_tail_items_by_rounds]: [items[start_idx:] if items else []] *)
Definition _tail_items_by_rounds (items : ConversationStore) (tail_rounds : Z)
    : list ConversationItem :=
  let start_idx := scan_back items tail_rounds (length items) 0 in
  let start_idx := include_prompt items start_idx in
  match items with
  | [] => []
  | _ => drop start_idx items
  end.

(** One message of the model's chat format. *)
Record Message : Type := mkMessage {
  m_role : string;
  m_content : string;
  m_image : option string
}.

(** [to_openai_messages(include_system, tail_rounds)] *)
Definition to_openai_messages (include_system : bool) (tail_rounds : Z)
    (items : ConversationStore) : list Message :=
  map (fun it => mkMessage (role it) (text it) None)
    (List.filter
       (fun it => negb (String.eqb (role it) "system" && negb include_system))
       (_tail_items_by_rounds items tail_rounds)).

End Conversation.
Export Conversation.

(* ===================================================================== *)
(** ** iphoneclaw.agent.loop                                              *)
(* ===================================================================== *)

Module Loop.

(** Modelled from the spec: the settings of the absent [config.py] that
    decide the control flow of [Worker.run]. *)
Record Config : Type := mkConfig {
  auto_pause_on_user_input : bool;
  max_loop_count : Z;
  hang_on_finished : bool;
  hang_on_call_user : bool;
  loop_interval_ms : Z
}.

(** What [ScreenCapture.capture] returns, as far as the loop reads it. *)
Record ScreenshotOutput : Type := mkShot {
  base64 : string;
  image_width : Z;
  image_height : Z
}.

(** [InvokeResult] of [invoke_model]. *)
Record InvokeResult : Type := mkInvoke {
  prediction : string;
  parsed_predictions : list PredictionParsed;
  cost_tokens : Z
}.

(** A call on the [RunRecorder]: which method, and what tells two calls
    apart. *)
Inductive RecCall : Type :=
  | WriteStep (step : Z) (field : string)
  | LogConversation (role text : string) (injected : bool)
  | LogEvent (type_ : string).

(** The calls that leave the loop, in the order it makes them. *)
Inductive Effect : Type :=
  | EMonitorStart
  | EMonitorStop
  | ELaunchApp
  | ESleep (ms : Z)
  | ECapture
  | ERecorder (c : RecCall)
  | EInvokeModel (messages : list Message)
  | EActivateApp
  | EExecute (pred : PredictionParsed)
  | EPublish (type_ : string) (data : pydict).

(** What the world does during one cycle: the clock, the supervisor's calls
    on the control object (which come from other threads), and the result
    of every collaborator the loop calls. *)
Record Env : Type := mkEnv {
  now : Z;
  (* supervisor calls since the previous cycle ended *)
  arrivals : list State.op;
  (* supervisor calls during each 0.2 s sleep of the pause gate; when the
      list runs out the loop is still asleep *)
  wakeups : list (list State.op);
  capture : outcome ScreenshotOutput;
  (* the screenshot after smart_resize and resize_jpeg_base64 *)
  send_b64 : string;
  (* supervisor calls while the model call is in flight *)
  in_flight : list State.op;
  invoke : outcome InvokeResult;
  activate : outcome unit;
  execute : outcome pydict;
  recorder : RecCall → outcome unit
}.

(** The objects a [Worker] holds, the two locals of [run], and the calls
    made so far. *)
Record St : Type := mkSt {
  control : WorkerControl;
  hub : SupervisorHub;
  conversation : ConversationStore;
  system : string;
  step : Z;
  parse_err_streak : Z;
  trace : list Effect
}.

(** How one pass through the [while True] body ends. *)
Inductive CycleEnd : Type :=
  | Continue   (* continue: on to the next cycle *)
  | Return     (* return: the run is over *)
  | Blocked.   (* asleep in the pause gate *)

(** A statement returns a value, raises, or leaves the loop body. *)
Inductive Res (A : Type) : Type :=
  | Val (a : A) (s : St)
  | Exn (e : string) (s : St)
  | Exit (k : CycleEnd) (s : St).
Arguments Val {A} a s.
Arguments Exn {A} e s.
Arguments Exit {A} k s.

Definition M (A : Type) : Type := St → Res A.

Definition ret {A : Type} (a : A) : M A := fun s => Val a s.

Definition bind {A B : Type} (m : M A) (k : A → M B) : M B :=
  fun s =>
    match m s with
    | Val a s' => k a s'
    | Exn e s' => Exn e s'
    | Exit c s' => Exit c s'
    end.

Declare Scope loop_scope.
Delimit Scope loop_scope with loop.
Notation "x <- m ;; k" := (bind m (fun x => k))
  (at level 100, m at next level, right associativity) : loop_scope.
Notation "m ;; k" := (bind m (fun _ => k))
  (at level 100, right associativity) : loop_scope.
Local Open Scope loop_scope.

Definition get : M St := fun s => Val s s.
Definition raise {A : Type} (e : string) : M A := fun s => Exn e s.
Definition exit_ {A : Type} (k : CycleEnd) : M A := fun s => Exit k s.

Definition emit (e : Effect) : M unit :=
  fun s => Val tt (mkSt (control s) (hub s) (conversation s) (system s)
                        (step s) (parse_err_streak s) (trace s ++ [e])).

(** A call on [self.control]. *)
Definition ctl (f : WorkerControl → WorkerControl) : M unit :=
  fun s => Val tt (mkSt (f (control s)) (hub s) (conversation s) (system s)
                        (step s) (parse_err_streak s) (trace s)).

Definition set_hub (h : SupervisorHub) : M unit :=
  fun s => Val tt (mkSt (control s) h (conversation s) (system s)
                        (step s) (parse_err_streak s) (trace s)).

Definition set_conversation (c : ConversationStore) : M unit :=
  fun s => Val tt (mkSt (control s) (hub s) c (system s)
                        (step s) (parse_err_streak s) (trace s)).

Definition set_step (n : Z) : M unit :=
  fun s => Val tt (mkSt (control s) (hub s) (conversation s) (system s)
                        n (parse_err_streak s) (trace s)).

Definition set_streak (n : Z) : M unit :=
  fun s => Val tt (mkSt (control s) (hub s) (conversation s) (system s)
                        (step s) n (trace s)).

(** A call whose result the world decides. *)
Definition call {A : Type} (e : Effect) (o : outcome A) : M A :=
  emit e ;;
  match o with
  | Returns a => ret a
  | Raises err => raise err
  end.

(** [self.hub.publish(type_, data)] *)
Definition publish (env : Env) (type_ : string) (data : pydict) : M unit :=
  s <- get ;;
  emit (EPublish type_ data) ;;
  match Hub.publish (now env) type_ (Some data) (hub s) with
  | Returns h => set_hub h
  | Raises err => raise err
  end.

(** [self.hub.set_status(self.control.snapshot()["status"], **extra)] *)
Definition hub_set_status (env : Env) (extra : pydict) : M unit :=
  s <- get ;;
  emit (EPublish "status"
          (("status"%string, VStatus (status (control s))) :: extra)) ;;
  match Hub.set_status (now env) (status (control s)) extra (hub s) with
  | Returns h => set_hub h
  | Raises err => raise err
  end.

(** [self._publish_conv(role, text)] *)
Definition _publish_conv (env : Env) (role text : string) : M unit :=
  publish env "conversation"
    [("role", VStr role); ("text", VStr text)]%string.

(** [self.conversation.add(role, text, **meta)] *)
Definition conversation_add (env : Env) (role text : string) (meta : pydict)
    : M unit :=
  s <- get ;;
  set_conversation (Conversation.add (now env) role text meta (conversation s)).

Definition rec (env : Env) (c : RecCall) : M unit :=
  call (ERecorder c) (recorder env c).

(** [if self._monitor: self._monitor.stop()]: there is a monitor exactly
    when [auto_pause_on_user_input] is set. *)
Definition monitor_stop (cfg : Config) : M unit :=
  if auto_pause_on_user_input cfg then emit EMonitorStop else ret tt.

(** The three statements before the [return] of a stopped run. *)
Definition on_stopped {A : Type} (cfg : Config) (env : Env) : M A :=
  ctl (State.set_status USER_STOPPED) ;;
  hub_set_status env [] ;;
  monitor_stop cfg ;;
  exit_ Return.

(** [while self.control.snapshot()["paused"]: time.sleep(0.2); ...] *)
Fixpoint pause_gate (cfg : Config) (env : Env) (wakeups : list (list State.op))
    : M unit :=
  s <- get ;;
  if paused (control s) then
    match wakeups with
    | [] => exit_ Blocked
    | ops :: rest =>
        emit (ESleep 200) ;;
        ctl (State.apply_all ops) ;;
        s' <- get ;;
        if stopped (control s') then on_stopped cfg env
        else pause_gate cfg env rest
    end
  else ret tt.

Definition newline : string := String (ascii_of_nat 10) EmptyString.

(** [self._vision_msg(instruction, image_b64)] *)
Definition _vision_msg (instruction image_b64 : string) : Message :=
  mkMessage "user" instruction
    (Some ("data:image/jpeg;base64," +:+ image_b64)).

(** Lines 193 to 204: the streak of consecutive parse errors. *)
Definition count_parse_error (env : Env) (pred : PredictionParsed) : M unit :=
  if String.eqb (action_type pred) "error_env" then
    s <- get ;;
    set_streak (parse_err_streak s + 1) ;;
    publish env "error"
      [("where", VStr "parse"); ("streak", VInt (parse_err_streak s + 1));
       ("raw", VStr (raw_action pred))]%string ;;
    if parse_err_streak s + 1 >=? 3 then
      ctl (State.set_status HANG) ;;
      ctl State.pause ;;
      hub_set_status env [("reason", VStr "parse_error_streak")]%string ;;
      publish env "hang" [("reason", VStr "parse_error_streak")]%string ;;
      exit_ Continue
    else ret tt
  else set_streak 0.

(** Lines 206 to 242: the two terminal actions, and the execution of any
    other action. *)
Definition act (cfg : Config) (env : Env) (pred : PredictionParsed) : M unit :=
  (if String.eqb (action_type pred) "finished" then
     if hang_on_finished cfg then
       ctl (State.set_status HANG) ;;
       ctl State.pause ;;
       hub_set_status env [] ;;
       publish env "hang" [("reason", VStr "finished")]%string ;;
       exit_ Continue
     else
       ctl (State.set_status END) ;;
       hub_set_status env [] ;;
       monitor_stop cfg ;;
       exit_ Return
   else ret tt) ;;
  (if String.eqb (action_type pred) "call_user" then
     if hang_on_call_user cfg then
       ctl (State.set_status HANG) ;;
       ctl State.pause ;;
       hub_set_status env [] ;;
       publish env "hang" [("reason", VStr "call_user")]%string ;;
       exit_ Continue
     else
       ctl (State.set_status CALL_USER) ;;
       hub_set_status env [] ;;
       monitor_stop cfg ;;
       exit_ Return
   else ret tt) ;;
  call EActivateApp (activate env) ;;
  _ <- call (EExecute pred) (execute env) ;;
  s <- get ;;
  rec env (WriteStep (step s) "exec_result") ;;
  rec env (LogEvent "exec") ;;
  ctl (State.set_status RUNNING) ;;
  hub_set_status env [("step", VInt (step s))]%string ;;
  (* time.sleep refuses a negative length *)
  (if loop_interval_ms cfg <? 0 then raise "ValueError" else ret tt) ;;
  emit (ESleep (loop_interval_ms cfg)).

(** Lines 193 to 242: what the loop does with the first parsed action. *)
Definition dispatch (cfg : Config) (env : Env) (pred : PredictionParsed) : M unit :=
  count_parse_error env pred ;;
  act cfg env pred.

(** Lines 112 to 142: the stop check, the pause gate, the injected
    guidance and the step count.  The supervisor's calls of [arrivals] land
    before the first statement. *)
Definition approach (cfg : Config) (env : Env) : M unit :=
  ctl (State.apply_all (arrivals env)) ;;
  s <- get ;;
  (if stopped (control s) then on_stopped cfg env else ret tt) ;;
  pause_gate cfg env (wakeups env) ;;
  s <- get ;;
  ctl (fun c => snd (pop_injected c)) ;;
  (match fst (pop_injected (control s)) with
   | Some injected =>
       if String.eqb injected "" then ret tt
       else
         let txt := "[Supervisor Guidance]" +:+ newline +:+ injected in
         conversation_add env "user" txt [("injected", VBool true)]%string ;;
         rec env (LogConversation "user" txt true) ;;
         _publish_conv env "user" txt
   | None => ret tt
   end) ;;
  set_step (step s + 1) ;;
  if step s + 1 >? max_loop_count cfg then
    ctl (State.set_status ERROR) ;;
    hub_set_status env [("error", VStr "max_loop_count")]%string ;;
    monitor_stop cfg ;;
    exit_ Return
  else ret tt.

(** The message list of lines 154 to 157. *)
Definition build_messages (env : Env) (s : St) : list Message :=
  [mkMessage "system" (system s) None]
  ++ to_openai_messages false 8 (conversation s)
  ++ [_vision_msg "Current screen. Decide next action." (send_b64 env)].

(** Lines 144 and 145: the capture and its record. *)
Definition take_screenshot (env : Env) : M unit :=
  _ <- call ECapture (capture env) ;;
  s <- get ;;
  rec env (WriteStep (step s) "screenshot").

(** Lines 163 to 191: the model's reply and its first parsed action;
    [step] is the number of the pass. *)
Definition read_reply (env : Env) (step : Z) : M PredictionParsed :=
  ctl (State.apply_all (in_flight env)) ;;
  inv <- match invoke env with
         | Returns inv => ret inv
         | Raises err => raise err
         end ;;
  rec env (WriteStep step "raw_model_text") ;;
  rec env (LogEvent "model") ;;
  conversation_add env "assistant" (prediction inv) [] ;;
  rec env (LogConversation "assistant" (prediction inv) false) ;;
  _publish_conv env "assistant" (prediction inv) ;;
  pred <- match parsed_predictions inv with
          | [] => raise "IndexError"
          | p :: _ => ret p
          end ;;
  rec env (WriteStep step "action") ;;
  ret pred.

(** Lines 147 to 191: the model call and the first parsed action. *)
Definition ask_model (env : Env) : M PredictionParsed :=
  s <- get ;;
  emit (EInvokeModel (build_messages env s)) ;;
  read_reply env (step s).

(** Lines 144 to 191. *)
Definition consult_model (env : Env) : M PredictionParsed :=
  take_screenshot env ;;
  ask_model env.

(** Lines 112 to 191: from the top of the [try] to the first parsed action. *)
Definition observe (cfg : Config) (env : Env) : M PredictionParsed :=
  approach cfg env ;;
  consult_model env.

(** The [except Exception as e] clause of the loop body. *)
Definition on_exception (cfg : Config) (env : Env) (e : string) : M unit :=
  ctl (State.set_status ERROR) ;;
  s <- get ;;
  hub_set_status env [("error", VStr e); ("step", VInt (step s))]%string ;;
  publish env "error"
    [("where", VStr "loop"); ("error", VStr e); ("step", VInt (step s))]%string ;;
  rec env (LogEvent "error") ;;
  monitor_stop cfg ;;
  exit_ Return.

Definition clear_trace (s : St) : St :=
  mkSt (control s) (hub s) (conversation s) (system s)
       (step s) (parse_err_streak s) [].

(** [try: body  except Exception as e: ...] around the loop body: [Exn] is
    an exception of class [Exception], which the clause catches. *)
Definition handled (cfg : Config) (env : Env) (r : Res unit) : Res unit :=
  match r with
  | Exn e s' => on_exception cfg env e s'
  | _ => r
  end.

(** One pass through the body of [while True]; [trace] of the result lists
    the calls of this pass.  [Val] means the body ran to its end, which is
    followed by the next pass just as [Exit Continue] is; [Exn] is an
    exception that the [except] clause itself raised. *)
Definition run_cycle (cfg : Config) (env : Env) (s : St) : Res unit :=
  handled cfg env
    ((pred <- observe cfg env ;; dispatch cfg env pred) (clear_trace s)).

Definition state_of {A : Type} (r : Res A) : St :=
  match r with
  | Val _ s | Exn _ s | Exit _ s => s
  end.

(** Lines 70 to 106 of [run]: everything before the loop. *)
Definition prologue (cfg : Config) (env : Env) (launch : outcome unit)
    (instruction : string) : M unit :=
  ctl (State.set_status RUNNING) ;;
  hub_set_status env [] ;;
  (if auto_pause_on_user_input cfg then emit EMonitorStart else ret tt) ;;
  emit ELaunchApp ;;
  (match launch with
   | Returns _ => ret tt
   | Raises e =>
       ctl (State.set_status ERROR) ;;
       hub_set_status env [("error", VStr e)]%string ;;
       publish env "error"
         [("where", VStr "launch_app"); ("error", VStr e)]%string ;;
       monitor_stop cfg ;;
       exit_ Return
   end) ;;
  s <- get ;;
  conversation_add env "system" (system s) [] ;;
  rec env (LogConversation "system" (system s) false) ;;
  conversation_add env "user" instruction [] ;;
  rec env (LogConversation "user" instruction false) ;;
  _publish_conv env "user" instruction ;;
  set_step 0 ;;
  set_streak 0.

(** The passes of the loop, one per element of [envs]; [Val] when the run
    is still going after the last of them. *)
Fixpoint cycles (cfg : Config) (envs : list Env) (s : St) : Res unit :=
  match envs with
  | [] => Val tt s
  | env :: rest =>
      match run_cycle cfg env s with
      | Val _ s' | Exit Continue s' => cycles cfg rest s'
      | r => r
      end
  end.

(** [Worker.run(instruction)] *)
Definition run (cfg : Config) (env0 : Env) (launch : outcome unit)
    (instruction : string) (envs : list Env) (s : St) : Res unit :=
  match prologue cfg env0 launch instruction s with
  | Val _ s' => cycles cfg envs s'
  | r => r
  end.

End Loop.

(* ===================================================================== *)
(** ** Notions used to state the properties                               *)
(* ===================================================================== *)

Module Notions.

Import Py.

(** What [stop] establishes. *)
Definition halted (c : WorkerControl) : Prop :=
  stopped c = true ∧ status c = USER_STOPPED.

(** What [publish] leaves in one subscriber's queue. *)
Definition offered (evt : SupervisorEvent) (q : Queue) : Queue :=
  if full q then q else mkQueue (qid q) (maxsize q) (qitems q ++ [evt]).

(** The positions of the assistant turns of a log, first to last. *)
Definition assistant_positions (items : list ConversationItem) : list nat :=
  filter (fun i => has_role "assistant" (items !! i) = true)
         (seq 0 (length items)).

(** The tail view in the words of the specification: the suffix that starts
    at the [n]-th last assistant turn, one item earlier when a user turn
    comes right before that turn, and the whole log when there are fewer
    than [n] assistant turns. *)
Definition tail_by_assistant_rounds (items : list ConversationItem) (n : nat)
    : list ConversationItem :=
  match reverse (assistant_positions items) !! (n - 1)%nat with
  | None => items
  | Some i =>
      if (0 <? i)%nat && has_role "user" (items !! (i - 1)%nat)
      then drop (i - 1) items
      else drop i items
  end.

(** An entry that [lookup] may return: it has not failed and has reuse
    budget left. *)
Definition eligible (c : L0Cache) (e : L0CacheEntry) : bool :=
  succeeded e && (hit_count e <? max_reuse c).

(** The Hamming distance from [fp] to the entry behind [r]. *)
Definition distance (h : heap) (fp : Z) (r : ref) : Z :=
  hamming_distance fp (fingerprint (deref h r)).

(** An eligible entry within the threshold of [fp]. *)
Definition candidate (h : heap) (c : L0Cache) (fp : Z) (r : ref) : Prop :=
  eligible c (deref h r) = true ∧ distance h fp r ≤ hash_threshold c.

(** The entries that the cache holds, in the order [lookup] visits them. *)
Definition refs_of (c : L0Cache) : list ref := map snd (_entries c).

(** Every entry sits under its own fingerprint. *)
Definition keyed (h : heap) (d : dict ref) : Prop :=
  ∀ k r, (k, r) ∈ d → (r < length h)%nat ∧ fingerprint (deref h r) = k.

(** What holds of every cache that the methods of [L0Cache] build: one
    entry per key, each under its own fingerprint, and no negative hit
    count. *)
Definition well_formed (h : heap) (c : L0Cache) : Prop :=
  NoDup (Py.dict_keys (_entries c))
  ∧ keyed h (_entries c)
  ∧ Forall (fun e => 0 ≤ hit_count e) h.

(** A run of [store] calls, each given as (fingerprint, post fingerprint,
    step), all with the same actions. *)
Definition store_all (acts : list PredictionParsed)
    (calls : list (Z * option Z * Z)) (s : heap * L0Cache)
    : option (heap * L0Cache) :=
  fold_left
    (fun so call =>
       match so with
       | Some (h, c) => store h c (fst (fst call)) acts (snd (fst call)) (snd call)
       | None => None
       end)
    calls (Some s).

(** The action of the tests in [test_l0_cache.py]. *)
Definition click : PredictionParsed :=
  mkPred "click" [("start_box", VStr "(500,500)")]%string "test"
         "click(start_box='(500,500)')".

(** The calls that a pass may make when [pred] is the first parsed action
    of the model's reply ([None]: no reply yet): an action is executed only
    if it is [pred], and the loop body neither launches the app nor starts
    the input monitor. *)
Definition allowed (pred : option PredictionParsed) (e : Loop.Effect) : Prop :=
  match e with
  | Loop.EExecute p => pred = Some p
  | Loop.ELaunchApp | Loop.EMonitorStart => False
  | _ => True
  end.

(** A state that comes later in the same pass: the calls made so far are
    still there, and the calls added satisfy [P]; for [grows], the streak of
    parse errors is the same too. *)
Definition adds (P : Loop.Effect → Prop) (s s' : Loop.St) : Prop :=
  ∃ t, Loop.trace s' = Loop.trace s ++ t ∧ Forall P t.

Definition grows (P : Loop.Effect → Prop) (s s' : Loop.St) : Prop :=
  Loop.parse_err_streak s' = Loop.parse_err_streak s ∧ adds P s s'.

(** A statement that leaves the streak alone and only adds calls that
    satisfy [P]. *)
Definition keeps (P : Loop.Effect → Prop) {A : Type} (m : Loop.M A) : Prop :=
  ∀ s, grows P s (Loop.state_of (m s)).

(** The hub after a [publish]. *)
Definition published (now : Z) (type_ : string) (data : pydict)
    (hub : SupervisorHub) : SupervisorHub :=
  mkHub (map (offered (mkEvent type_ data now)) (_subs hub))
        (_last_status hub) (next_qid hub).

(** The event that the loop publishes for a parse error. *)
Definition parse_error_event (streak : Z) (pred : PredictionParsed) : Loop.Effect :=
  Loop.EPublish "error"
    [("where", VStr "parse"); ("streak", VInt streak);
     ("raw", VStr (raw_action pred))]%string.

(** Sample inputs: a configuration, a first action that failed to parse, a
    world in which every collaborator succeeds and the model's reply parses
    to [p], and a worker in the middle of a run. *)
Definition sample_cfg : Loop.Config := Loop.mkConfig true 100 true true 500.

Definition garbled : PredictionParsed := mkPred "error_env" [] "" "???".

Definition sample_env (p : PredictionParsed) : Loop.Env :=
  Loop.mkEnv 0 [] [] (Returns (Loop.mkShot "img" 1170 2532)) "img" []
    (Returns (Loop.mkInvoke "reply" [p] 10)) (Returns tt) (Returns [])
    (fun _ => Returns tt).

Definition sample_state (streak : Z) : Loop.St :=
  Loop.mkSt (mkControl RUNNING false false [])
    (snd (subscribe new_hub))
    [mkItem "system" "sys" 0 []; mkItem "user" "open settings" 0 []]
    "sys" 2 streak [].

Definition scroll : PredictionParsed :=
  mkPred "scroll" [("direction", VStr "down")]%string "next page"
         "scroll(direction='down')".

(** A fingerprint function for a run in which every capture shows the same
    screen. *)
Definition hit_dhash : string → option Z := fun _ => Some 1000.

(** The objects of a [Worker] as its constructor makes them, before
    [run]. *)
Definition new_worker : Loop.St :=
  Loop.mkSt new_control new_hub [] "sys" 0 0 [].

(** The cells of the 9x8 bitmap that [dhash] compares with their right
    neighbour, in the order of its loops. *)
Definition dhash_cells : list nat :=
  flat_map (fun row => map (fun col => row * 9 + col)%nat (seq 0 8)) (seq 0 8).

(** [record_hit] on the same entry at each of [steps], first to last. *)
Definition record_hits (h : heap) (r : ref) (steps : list Z) : heap :=
  fold_left (fun h step => record_hit h r step) steps h.

(** One call on an [L0Cache] that changes it. *)
Inductive cache_op : Type :=
  | OpStore (fp : Z) (acts : list PredictionParsed) (post : option Z) (step : Z)
  | OpRecordHit (entry : ref) (step : Z)
  | OpMarkFailed (entry : ref)
  | OpEvict (entry : ref).

Definition cache_apply (o : cache_op) (s : heap * L0Cache)
    : option (heap * L0Cache) :=
  match o with
  | OpStore fp acts post step => store (fst s) (snd s) fp acts post step
  | OpRecordHit r step => Some (record_hit (fst s) r step, snd s)
  | OpMarkFailed r => Some (mark_failed (fst s) r, snd s)
  | OpEvict r => Some (fst s, evict (fst s) (snd s) r)
  end.

(** The calls of [ops], first to last; [None] as soon as one raises. *)
Definition cache_run (ops : list cache_op) (s : heap * L0Cache)
    : option (heap * L0Cache) :=
  fold_left (fun so o => match so with Some s => cache_apply o s | None => None end)
            ops (Some s).

(** One call on an [L0Router] that changes its cache. *)
Inductive router_op : Type :=
  | OpRecord (fp : option Z) (acts : list PredictionParsed) (post : option Z)
             (step : Z)
  | OpVerify (entry : ref) (post : option Z) (step : Z) (success : bool).

Definition router_apply (o : router_op) (s : heap * L0Router)
    : option (heap * L0Router) :=
  match o with
  | OpRecord fp acts post step => record (fst s) (snd s) fp acts post step
  | OpVerify entry post step success =>
      Some (fst (verify_and_commit (fst s) (snd s) entry post step success))
  end.

Definition router_run (ops : list router_op) (s : heap * L0Router)
    : option (heap * L0Router) :=
  fold_left (fun so o => match so with Some s => router_apply o s | None => None end)
            ops (Some s).

(** An action that may be replayed: none of the three terminal types. *)
Definition replayable_action (a : PredictionParsed) : Prop :=
  action_type a ≠ "finished"%string
  ∧ action_type a ≠ "call_user"%string
  ∧ action_type a ≠ "error_env"%string.

(** Every entry of the cache holds a non-empty list of replayable actions. *)
Definition replayable (h : heap) (c : L0Cache) : Prop :=
  ∀ r, r ∈ refs_of c →
    actions (deref h r) ≠ [] ∧ Forall replayable_action (actions (deref h r)).

(** What every call keeps: the shape of the cache, its size within the
    capacity, and the settings. *)
Definition cache_inv (ht mr me : Z) (s : heap * L0Cache) : Prop :=
  well_formed (fst s) (snd s)
  ∧ Z.of_nat (length (_entries (snd s))) ≤ me
  ∧ (hash_threshold (snd s), max_reuse (snd s), max_entries (snd s))
    = (ht, mr, me).

(** A terminal action: one of the three types that must not be replayed. *)
Definition terminal_action (a : PredictionParsed) : Prop :=
  action_type a = "finished"%string
  ∨ action_type a = "call_user"%string
  ∨ action_type a = "error_env"%string.

(** [pop_injected] up to [n] times, until it returns [None]: the strings
    it returned, in order, and the control object afterwards. *)
Fixpoint pop_all (n : nat) (c : WorkerControl) : list string * WorkerControl :=
  match n with
  | O => ([], c)
  | S n' =>
      match pop_injected c with
      | (Some t, c') => (t :: fst (pop_all n' c'), snd (pop_all n' c'))
      | (None, c') => ([], c')
      end
  end.

(** One call on a [SupervisorHub] that changes it. *)
Inductive hub_op : Type :=
  | HSubscribe
  | HUnsubscribe (q : nat)
  | HPublish (now : Z) (type_ : string) (data : option pydict)
  | HSetStatus (now : Z) (status : StatusEnum) (extra : pydict).

Definition hub_apply (o : hub_op) (hub : SupervisorHub) : outcome SupervisorHub :=
  match o with
  | HSubscribe => Returns (snd (subscribe hub))
  | HUnsubscribe q => Returns (unsubscribe q hub)
  | HPublish now type_ data => Hub.publish now type_ data hub
  | HSetStatus now status extra => Hub.set_status now status extra hub
  end.

(** The calls of [ops], first to last, up to the first that raises. *)
Definition hub_run (ops : list hub_op) (hub : SupervisorHub)
    : outcome SupervisorHub :=
  fold_left (fun o op => Exc.bind o (hub_apply op)) ops (Returns hub).

(** The event that [publish(type_, data)] builds at time [now]. *)
Definition event_of (p : Z * string * option pydict) : SupervisorEvent :=
  mkEvent (snd (fst p)) (default [] (snd p)) (fst (fst p)).

Definition publish_op (p : Z * string * option pydict) : hub_op :=
  HPublish (fst (fst p)) (snd (fst p)) (snd p).

(** Of the events [evts] offered one after the other to a queue that nobody
    reads from, the ones that it takes: all of them when the queue is
    unbounded, else as many of the first as there is room for. *)
Definition kept (q : Queue) (evts : list SupervisorEvent)
    : list SupervisorEvent :=
  if maxsize q <=? 0 then evts
  else take (Z.to_nat (maxsize q) - length (qitems q)) evts.

(** What holds of the queues of a hub that is driven through its methods:
    they are distinct objects, made by [subscribe], and none holds more than
    its 1000 events. *)
Definition hub_ok (hub : SupervisorHub) : Prop :=
  NoDup (map qid (_subs hub))
  ∧ Forall (fun q => (qid q < next_qid hub)%nat
                     ∧ maxsize q = 1000
                     ∧ (length (qitems q) ≤ 1000)%nat)
           (_subs hub).


(** The payload of the last [set_status] among the calls [ops], and [init]
    when there is none. *)
Fixpoint last_status (ops : list hub_op) (init : pydict) : pydict :=
  match ops with
  | [] => init
  | HSetStatus _ status extra :: rest =>
      last_status rest (("status"%string, VStatus status) :: extra)
  | _ :: rest => last_status rest init
  end.

(** The number of assistant turns of a log, and of assistant messages of a
    message list. *)
Definition assistant_turns (items : list ConversationItem) : nat :=
  length (List.filter (fun it => String.eqb (role it) "assistant") items).

Definition assistant_messages (ms : list Message) : nat :=
  length (List.filter (fun m => String.eqb (m_role m) "assistant") ms).

(** The [status] event that the loop publishes for a control object. *)
Definition status_event (c : WorkerControl) (extra : pydict) : Loop.Effect :=
  Loop.EPublish "status" (("status"%string, VStatus (status c)) :: extra).

(** The call on the input monitor at the end of a run, if there is one. *)
Definition monitor_stopped (cfg : Loop.Config) : list Loop.Effect :=
  if Loop.auto_pause_on_user_input cfg then [Loop.EMonitorStop] else [].

(** Any call but a call of the model. *)
Definition no_model_call (e : Loop.Effect) : Prop :=
  match e with
  | Loop.EInvokeModel _ => False
  | _ => True
  end.

(** The text under which a supervisor's guidance enters the conversation. *)
Definition guidance (t : string) : string :=
  "[Supervisor Guidance]" +:+ Loop.newline +:+ t.

(** The state after the calls [t], with the control object [c] and the hub
    [hb]. *)
Definition after (s : Loop.St) (c : WorkerControl) (hb : SupervisorHub)
    (t : list Loop.Effect) : Loop.St :=
  Loop.mkSt c hb (Loop.conversation s) (Loop.system s) (Loop.step s)
    (Loop.parse_err_streak s) (Loop.trace s ++ t).

(** The hub after [set_status] for the control object [c]. *)
Definition status_set (now : Z) (c : WorkerControl) (extra : pydict)
    (hb : SupervisorHub) : SupervisorHub :=
  published now "status" (("status"%string, VStatus (status c)) :: extra)
    (mkHub (_subs hb) (("status"%string, VStatus (status c)) :: extra)
       (next_qid hb)).

(** Lines 130 to 134 of [run]: what the loop does with the guidance that
    [pop_injected] returned. *)
Definition take_guidance (env : Loop.Env) (injected : option string)
    : Loop.M unit :=
  match injected with
  | Some t =>
      if String.eqb t "" then Loop.ret tt
      else
        Loop.bind
          (Loop.conversation_add env "user" (guidance t)
             [("injected", VBool true)]%string)
          (fun _ =>
             Loop.bind (Loop.rec env (Loop.LogConversation "user" (guidance t) true))
               (fun _ => Loop._publish_conv env "user" (guidance t)))
  | None => Loop.ret tt
  end.

(** Lines 136 to 142 of [run]: the step count and its budget. *)
Definition count_step (cfg : Loop.Config) (env : Loop.Env) (n : Z)
    : Loop.M unit :=
  Loop.bind (Loop.set_step n)
    (fun _ =>
       if n >? Loop.max_loop_count cfg then
         Loop.bind (Loop.ctl (State.set_status ERROR))
           (fun _ =>
              Loop.bind
                (Loop.hub_set_status env [("error", VStr "max_loop_count")]%string)
                (fun _ =>
                   Loop.bind (Loop.monitor_stop cfg)
                     (fun _ => Loop.exit_ Loop.Return)))
       else Loop.ret tt).

(** The call on the input monitor at the start of a run, if there is one. *)
Definition monitor_started (cfg : Loop.Config) : list Loop.Effect :=
  if Loop.auto_pause_on_user_input cfg then [Loop.EMonitorStart] else [].

(** A statement of the loop that keeps a property [I] of the control
    object. *)
Definition respects (I : WorkerControl → Prop) {A : Type} (m : Loop.M A)
    : Prop :=
  ∀ s, I (Loop.control s) → I (Loop.control (Loop.state_of (m s))).

End Notions.
Export Notions.

(* ===================================================================== *)
(** * Properties                                                          *)
(* ===================================================================== *)

(** ** Hamming distance *)

Section HammingFacts.

Lemma count_app c s1 s2 :
  Py.count c (s1 +:+ s2) = Py.count c s1 + Py.count c s2.
Proof.
  induction s1 as [|a s1 IH]; simpl; [reflexivity|].
  rewrite IH. lia.
Qed.

Lemma count_nonneg c s : 0 ≤ Py.count c s.
Proof.
  induction s as [|a s IH]; simpl; [lia|].
  destruct (Ascii.eqb a c); lia.
Qed.

(** A number below [2^n] has at most [n] ones among its binary digits. *)
Lemma count_pos_digits_le p :
  ∀ n, 0 ≤ n → Z.pos p < 2 ^ n → Py.count "1" (Py.pos_digits p) ≤ n.
Proof.
  induction p as [q IH|q IH|]; intros n Hn Hlt; simpl.
  - assert (n ≠ 0) by (intros ->; simpl in Hlt; lia).
    replace n with (Z.succ (n - 1)) in Hlt by lia.
    rewrite Z.pow_succ_r in Hlt by lia.
    rewrite count_app; simpl.
    specialize (IH (n - 1)). lia.
  - assert (n ≠ 0) by (intros ->; simpl in Hlt; lia).
    replace n with (Z.succ (n - 1)) in Hlt by lia.
    rewrite Z.pow_succ_r in Hlt by lia.
    rewrite count_app; simpl.
    specialize (IH (n - 1)). lia.
  - assert (n ≠ 0) by (intros ->; simpl in Hlt; lia).
    lia.
Qed.

Lemma count_bin_le z n :
  0 ≤ n → 0 ≤ z < 2 ^ n → Py.count "1" (Py.bin z) ≤ n.
Proof.
  intros Hn [Hz Hlt]. destruct z as [|p|p]; simpl.
  - lia.
  - apply count_pos_digits_le; assumption.
  - lia.
Qed.

Lemma lxor_below a b n :
  0 ≤ n → 0 ≤ a < 2 ^ n → 0 ≤ b < 2 ^ n → 0 ≤ Z.lxor a b < 2 ^ n.
Proof.
  intros Hn [Ha Ha'] [Hb Hb'].
  assert (Hx : 0 ≤ Z.lxor a b) by (apply Z.lxor_nonneg; tauto).
  split; [exact Hx|].
  destruct (Z.eq_dec n 0) as [->|Hn0].
  { assert (a = 0) as -> by (simpl in Ha'; lia).
    assert (b = 0) as -> by (simpl in Hb'; lia).
    reflexivity. }
  destruct (Z.eq_dec (Z.lxor a b) 0) as [->|Hne].
  - apply Z.pow_pos_nonneg; lia.
  - apply Z.log2_lt_pow2; [lia|].
    pose proof (Z.log2_lxor a b Ha Hb) as Hl.
    assert (Z.log2 a < n).
    { destruct (Z.eq_dec a 0) as [->|]; [simpl|apply Z.log2_lt_pow2]; lia. }
    assert (Z.log2 b < n).
    { destruct (Z.eq_dec b 0) as [->|]; [simpl|apply Z.log2_lt_pow2]; lia. }
    lia.
Qed.

Lemma hamming_distance_comm a b : hamming_distance a b = hamming_distance b a.
Proof. unfold hamming_distance. now rewrite Z.lxor_comm. Qed.

Lemma hamming_distance_self a : hamming_distance a a = 0.
Proof. unfold hamming_distance. now rewrite Z.lxor_nilpotent. Qed.

Lemma hamming_distance_nonneg a b : 0 ≤ hamming_distance a b.
Proof. apply count_nonneg. Qed.

(** Every positive number has a one among its digits, so only equal inputs
    are at distance 0. *)
Lemma count_pos_digits_pos p : 0 < Py.count "1" (Py.pos_digits p).
Proof.
  induction p as [q IH|q IH|]; simpl; try rewrite count_app; simpl; lia.
Qed.

Lemma hamming_distance_zero_iff a b : hamming_distance a b = 0 ↔ a = b.
Proof.
  split; [|intros ->; apply hamming_distance_self].
  unfold hamming_distance. intros H.
  apply Z.lxor_eq.
  destruct (Z.lxor a b) as [|p|p]; [reflexivity| |];
    unfold Py.bin in H; rewrite count_app in H;
    pose proof (count_pos_digits_pos p);
    pose proof (count_nonneg "1" "0b"); pose proof (count_nonneg "1" "-0b");
    lia.
Qed.

End HammingFacts.

(** The cases of [test_fingerprint.py]. *)
Example hamming_tests :
  hamming_distance 0 0 = 0
  ∧ hamming_distance 0 1 = 1
  ∧ hamming_distance 0 0x8000000000000000 = 1
  ∧ hamming_distance 0 0xFFFFFFFFFFFFFFFF = 64
  ∧ hamming_distance 0xA 0x5 = 4.
Proof. repeat split; vm_compute; reflexivity. Qed.

(** C9.  For 64-bit fingerprints [a] and [b] (0 <= a, b < 2^64) the Hamming
    distance is symmetric, is 0 from a fingerprint to itself, and is at
    most 64. *)
Theorem hamming_distance_64bit (a b : Z) :
  0 ≤ a < 2 ^ 64 → 0 ≤ b < 2 ^ 64 →
  hamming_distance a b = hamming_distance b a
  ∧ hamming_distance a a = 0
  ∧ hamming_distance a b ≤ 64.
Proof.
  intros Ha Hb. split; [apply hamming_distance_comm|].
  split; [apply hamming_distance_self|].
  unfold hamming_distance. apply count_bin_le; [lia|].
  apply lxor_below; [lia|assumption|assumption].
Qed.

Lemma hamming_distance_64bit_witness :
  hamming_distance 123456 654321 = hamming_distance 654321 123456
  ∧ hamming_distance 123456 123456 = 0
  ∧ hamming_distance 123456 654321 ≤ 64.
Proof. apply (hamming_distance_64bit 123456 654321); lia. Defined.

(** ** Dictionaries and [min] *)

Section DictFacts.
Context {V : Type}.
Implicit Types (d : list (Z * V)) (k : Z) (v : V).

Lemma dict_contains_keys k d :
  Py.dict_contains k d = true ↔ k ∈ Py.dict_keys d.
Proof.
  unfold Py.dict_contains, Py.dict_keys.
  induction d as [|[k' v'] d IH]; simpl.
  - split; [discriminate|]. intros H. inversion H.
  - rewrite orb_true_iff, IH, elem_of_cons, Z.eqb_eq. intuition congruence.
Qed.

Lemma dict_contains_false k d :
  Py.dict_contains k d = false ↔ k ∉ Py.dict_keys d.
Proof.
  rewrite <- dict_contains_keys. destruct (Py.dict_contains k d); intuition congruence.
Qed.

Lemma dict_get_elem k v d : Py.dict_get k d = Some v → (k, v) ∈ d.
Proof.
  induction d as [|[k' v'] d IH]; simpl; [discriminate|].
  destruct (Z.eqb_spec k' k) as [->|Hne].
  - intros [= ->]. left.
  - intros H. right. auto.
Qed.

Lemma dict_get_None k d : Py.dict_get k d = None ↔ k ∉ Py.dict_keys d.
Proof.
  unfold Py.dict_keys.
  induction d as [|[k' v'] d IH]; simpl.
  - split; [intros _ H; inversion H|reflexivity].
  - rewrite not_elem_of_cons. destruct (Z.eqb_spec k' k) as [->|Hne].
    + split; [discriminate|]. intros [H _]. congruence.
    + rewrite IH. intuition congruence.
Qed.

Lemma dict_get_unique k v d :
  NoDup (Py.dict_keys d) → (k, v) ∈ d → Py.dict_get k d = Some v.
Proof.
  unfold Py.dict_keys.
  induction d as [|[k' v'] d IH]; simpl; intros Hnd Hin; [inversion Hin|].
  apply NoDup_cons in Hnd as [Hk' Hnd].
  apply elem_of_cons in Hin as [[= -> ->]|Hin].
  - now rewrite Z.eqb_refl.
  - destruct (Z.eqb_spec k' k) as [->|Hne]; [|auto].
    exfalso. apply Hk'. apply list_elem_of_In, in_map_iff.
    exists (k, v). split; [reflexivity|]. now apply list_elem_of_In.
Qed.

Lemma dict_set_keys k v d :
  Py.dict_keys (Py.dict_set k v d)
  = if Py.dict_contains k d then Py.dict_keys d else Py.dict_keys d ++ [k].
Proof.
  unfold Py.dict_keys, Py.dict_contains.
  induction d as [|[k' v'] d IH]; simpl; [reflexivity|].
  destruct (Z.eqb_spec k' k) as [->|Hne]; simpl; [reflexivity|].
  rewrite IH. now destruct (existsb _ d).
Qed.

Lemma dict_get_set_eq k v d : Py.dict_get k (Py.dict_set k v d) = Some v.
Proof.
  induction d as [|[k' v'] d IH]; simpl.
  - now rewrite Z.eqb_refl.
  - destruct (Z.eqb_spec k' k) as [->|Hne]; simpl.
    + now rewrite Z.eqb_refl.
    + destruct (Z.eqb_spec k' k); [congruence|exact IH].
Qed.

Lemma dict_get_set_ne k k' v d :
  k' ≠ k → Py.dict_get k' (Py.dict_set k v d) = Py.dict_get k' d.
Proof.
  intros Hne. induction d as [|[k0 v0] d IH]; simpl.
  - destruct (Z.eqb_spec k k'); [congruence|reflexivity].
  - destruct (Z.eqb_spec k0 k) as [->|Hk]; simpl.
    + destruct (Z.eqb_spec k k'); [congruence|reflexivity].
    + now rewrite IH.
Qed.

Lemma dict_set_elem k v d kv :
  kv ∈ Py.dict_set k v d → kv = (k, v) ∨ kv ∈ d.
Proof.
  induction d as [|[k' v'] d IH]; simpl.
  - intros H. apply list_elem_of_singleton in H. auto.
  - destruct (Z.eqb_spec k' k) as [->|Hne]; rewrite !elem_of_cons.
    + intros [->|H]; auto.
    + intros [->|H]; [auto|]. destruct (IH H); auto.
Qed.

Lemma dict_del_keys k d :
  Py.dict_keys (Py.dict_del k d) = filter (fun k' => k' ≠ k) (Py.dict_keys d).
Proof.
  unfold Py.dict_keys, Py.dict_del.
  induction d as [|[k' v'] d IH]; [reflexivity|].
  cbn [map fst].
  destruct (decide (k' ≠ k)) as [Hne|He].
  - rewrite !filter_cons_True by exact Hne. cbn [map fst]. now rewrite IH.
  - rewrite !filter_cons_False by exact He. exact IH.
Qed.

Lemma dict_del_elem k d kv : kv ∈ Py.dict_del k d ↔ kv ∈ d ∧ fst kv ≠ k.
Proof. unfold Py.dict_del. rewrite list_elem_of_filter. tauto. Qed.

Lemma dict_del_NoDup k d :
  NoDup (Py.dict_keys d) → NoDup (Py.dict_keys (Py.dict_del k d)).
Proof. rewrite dict_del_keys. apply NoDup_filter. Qed.

Lemma dict_get_del_eq k d : Py.dict_get k (Py.dict_del k d) = None.
Proof.
  apply dict_get_None. rewrite dict_del_keys, list_elem_of_filter. tauto.
Qed.

Lemma dict_get_del_ne k k' d :
  k' ≠ k → Py.dict_get k' (Py.dict_del k d) = Py.dict_get k' d.
Proof.
  intros Hne. unfold Py.dict_del.
  induction d as [|[k0 v0] d IH]; [reflexivity|].
  destruct (decide (k0 ≠ k)) as [Hk|Hk].
  - rewrite filter_cons_True by exact Hk. simpl. now rewrite IH.
  - rewrite filter_cons_False by exact Hk. simpl.
    destruct (Z.eqb_spec k0 k'); [|exact IH].
    exfalso. apply Hk. congruence.
Qed.

(** Deleting a key that is there, from a dict without repeated keys, takes
    exactly one pair away. *)
Lemma dict_del_length k d :
  NoDup (Py.dict_keys d) → k ∈ Py.dict_keys d →
  S (length (Py.dict_del k d)) = length d.
Proof.
  unfold Py.dict_keys, Py.dict_del.
  induction d as [|[k' v'] d IH]; intros Hnd Hin; [inversion Hin|].
  cbn [map fst] in Hnd, Hin.
  apply NoDup_cons in Hnd as [Hk' Hnd].
  destruct (decide (k' ≠ k)) as [Hne|He].
  - rewrite filter_cons_True by exact Hne. simpl.
    apply elem_of_cons in Hin as [->|Hin]; [congruence|].
    now rewrite IH.
  - rewrite filter_cons_False by exact He.
    assert (k' = k) as -> by (destruct (Z.eq_dec k' k); [assumption|contradiction]).
    simpl. f_equal.
    clear -Hk'. induction d as [|[k0 v0] d IH]; [reflexivity|].
    cbn [map fst] in Hk'. apply not_elem_of_cons in Hk' as [Hne Hk'].
    rewrite filter_cons_True by (simpl; congruence).
    simpl. now rewrite IH.
Qed.

Lemma dict_set_NoDup k v d :
  NoDup (Py.dict_keys d) → NoDup (Py.dict_keys (Py.dict_set k v d)).
Proof.
  intros Hnd. rewrite dict_set_keys.
  destruct (Py.dict_contains k d) eqn:Hc; [assumption|].
  apply dict_contains_false in Hc.
  apply NoDup_app. split; [assumption|]. split.
  - intros x Hx Hx'. apply list_elem_of_singleton in Hx'. congruence.
  - apply NoDup_singleton.
Qed.

Lemma dict_set_length k v d :
  length (Py.dict_set k v d)
  = if Py.dict_contains k d then length d else S (length d).
Proof.
  pose proof (dict_set_keys k v d) as H.
  apply (f_equal length) in H. unfold Py.dict_keys in H.
  rewrite length_map in H. rewrite H.
  destruct (Py.dict_contains k d); rewrite ?length_app, length_map; simpl; lia.
Qed.

End DictFacts.


Section MinFacts.
Context {A : Type} (f : A → Z).

Lemma min_from_spec xs :
  ∀ best,
    let m := Py.min_from f best xs in
    (m = best ∨ m ∈ xs) ∧ f m ≤ f best ∧ ∀ x, x ∈ xs → f m ≤ f x.
Proof.
  induction xs as [|x xs IH]; intros best; simpl.
  - split; [now left|]. split; [lia|]. intros x Hx. inversion Hx.
  - destruct (Z.ltb_spec (f x) (f best)) as [Hlt|Hge].
    + destruct (IH x) as (Hm & Hle & Hall).
      split; [right; destruct Hm as [->|Hm]; [left|now right]|].
      split; [lia|].
      intros y Hy. apply elem_of_cons in Hy as [->|Hy]; auto.
    + destruct (IH best) as (Hm & Hle & Hall).
      split; [destruct Hm as [->|Hm]; [now left|right; now right]|].
      split; [lia|].
      intros y Hy. apply elem_of_cons in Hy as [->|Hy]; [lia|auto].
Qed.

(** [min] returns an element with the least key, and raises only on an
    empty list. *)
Lemma py_min_spec xs :
  xs ≠ [] →
  ∃ m, Py.py_min f xs = Some m ∧ m ∈ xs ∧ ∀ x, x ∈ xs → f m ≤ f x.
Proof.
  destruct xs as [|x xs]; [congruence|]. intros _. simpl.
  eexists. split; [reflexivity|].
  destruct (min_from_spec xs x) as (Hm & Hle & Hall).
  split.
  - destruct Hm as [->|Hm]; [left|now right].
  - intros y Hy. apply elem_of_cons in Hy as [->|Hy]; auto.
Qed.

End MinFacts.

(** ** Control state *)

Section ControlFacts.

Lemma stop_halted c : halted (stop c).
Proof. split; reflexivity. Qed.

Lemma apply_stopped o c : stopped c = true → stopped (State.apply o c) = true.
Proof.
  destruct c as [st p s inj]; simpl; intros ->.
  destruct o; try reflexivity.
  destruct inj; reflexivity.
Qed.

Lemma apply_halted o c : halted c → halted (State.apply o c).
Proof.
  destruct c as [st p s inj]; unfold halted; simpl; intros [-> ->].
  destruct o; try (split; reflexivity).
  destruct inj; split; reflexivity.
Qed.

Lemma apply_all_halted ops : ∀ c, halted c → halted (apply_all ops c).
Proof.
  unfold apply_all.
  induction ops as [|o ops IH]; intros c H; simpl; [assumption|].
  apply IH, apply_halted, H.
Qed.

(** No call leaves [stopped] set with another status behind. *)
Lemma reachable_stopped_status c :
  reachable c → stopped c = true → status c = USER_STOPPED.
Proof.
  induction 1 as [|o c Hr IH]; intros Hs; [discriminate|].
  destruct (stopped c) eqn:Hc.
  - apply (apply_halted o c). split; [assumption|auto].
  - destruct c as [st p s inj]; simpl in Hc; subst s.
    destruct o; simpl in Hs; try discriminate; try reflexivity.
    + unfold State.set_status in Hs; simpl in Hs.
      destruct (p && StatusEnum_eqb s RUNNING); discriminate.
    + destruct inj; discriminate.
Qed.

End ControlFacts.

(** C5.  In a control state that calls of [pause], [resume], [stop],
    [set_status], [inject] and [pop_injected] reach from a new object, once
    [stopped] is set the status is [USER_STOPPED], and it stays so (and
    [stopped] stays set) after any further calls [ops]; a [set_status(RUNNING)]
    after them leaves [USER_STOPPED] in place too. *)
Theorem stopped_is_terminal (c : WorkerControl) (ops : list State.op) :
  reachable c → stopped c = true →
  status c = USER_STOPPED
  ∧ stopped (apply_all ops c) = true
  ∧ status (apply_all ops c) = USER_STOPPED
  ∧ status (State.set_status RUNNING (apply_all ops c)) = USER_STOPPED.
Proof.
  intros Hr Hs.
  assert (Hh : halted c) by (split; [assumption|now apply reachable_stopped_status]).
  split; [apply Hh|].
  pose proof (apply_all_halted ops c Hh) as [Hs' Hst'].
  split; [assumption|]. split; [assumption|].
  apply (apply_halted (SetStatus RUNNING) _ (conj Hs' Hst')).
Qed.

Lemma stopped_is_terminal_witness :
  let c := State.apply Stop (State.apply Pause (State.apply (SetStatus RUNNING) new_control)) in
  let ops := [SetStatus RUNNING; Resume; Inject "go on"; Pause; PopInjected; SetStatus END] in
  status c = USER_STOPPED
  ∧ stopped (apply_all ops c) = true
  ∧ status (apply_all ops c) = USER_STOPPED
  ∧ status (State.set_status RUNNING (apply_all ops c)) = USER_STOPPED.
Proof.
  intros c ops. apply (stopped_is_terminal c ops).
  - unfold c. repeat apply reach_step. apply reach_new.
  - reflexivity.
Defined.

(** ** Event hub *)

Section HubFacts.

Lemma deliver_returns evt subs :
  deliver evt subs = Returns (map (offered evt) subs).
Proof.
  induction subs as [|q subs IH]; simpl; [reflexivity|].
  rewrite IH. unfold offered, put_nowait.
  destruct (full q); reflexivity.
Qed.

End HubFacts.

(** C8.  Whatever the hub holds, [publish] returns (it does not raise); the
    registered queues stay the same ones in the same order; each queue that
    has room gets the event appended, and each full queue is left as it was,
    without any effect on the delivery to the others. *)
Theorem publish_never_blocks (now : Z) (type_ : string) (data : option pydict)
    (hub : SupervisorHub) :
  let evt := mkEvent type_ (default [] data) now in
  ∃ hub',
    Hub.publish now type_ data hub = Returns hub'
    ∧ _subs hub' = map (offered evt) (_subs hub)
    ∧ Forall2 (fun q q' =>
         qid q' = qid q ∧ maxsize q' = maxsize q
         ∧ qitems q' = if full q then qitems q else qitems q ++ [evt])
        (_subs hub) (_subs hub').
Proof.
  intros evt. unfold Hub.publish. fold evt. rewrite deliver_returns. simpl.
  eexists. split; [reflexivity|]. split; [reflexivity|]. simpl.
  induction (_subs hub) as [|q subs IH]; simpl; constructor; [|exact IH].
  unfold offered. destruct (full q); auto.
Qed.

(** A hub with a full queue between two queues that have room. *)
Example publish_full_queue :
  let e1 := mkEvent "a" [] 1 in
  let e2 := mkEvent "b" [] 2 in
  let hub := mkHub [mkQueue 0 1000 []; mkQueue 1 1 [e1]; mkQueue 2 1000 [e1]]
                   [] 3 in
  Hub.publish 2 "b" None hub
  = Returns (mkHub [mkQueue 0 1000 [e2]; mkQueue 1 1 [e1];
                    mkQueue 2 1000 [e1; e2]] [] 3).
Proof. reflexivity. Qed.

(** ** Conversation window *)

Section ConversationFacts.

(** The loop of [_tail_items_by_rounds], started below index [k] with
    [seen] assistant turns counted, stops at the assistant turn that is the
    [(n - seen)]-th last one below [k]; it leaves 0 when there is none. *)
Lemma scan_back_positions items n :
  ∀ k seen, seen < n →
  scan_back items n k seen
  = default 0%nat
      (reverse (filter (fun i => has_role "assistant" (items !! i) = true)
                       (seq 0 k))
       !! (Z.to_nat (n - seen) - 1)%nat).
Proof.
  induction k as [|k IH]; intros seen Hlt; [reflexivity|].
  rewrite seq_S, filter_app, reverse_app. simpl scan_back. simpl seq.
  destruct (has_role "assistant" (items !! k)) eqn:Hk.
  - rewrite filter_cons_True by exact Hk. rewrite filter_nil. simpl.
    destruct (seen + 1 >=? n) eqn:Hge.
    + apply Z.geb_le in Hge.
      replace (Z.to_nat (n - seen) - 1)%nat with 0%nat by lia. reflexivity.
    + assert (seen + 1 < n) by (rewrite Z.geb_leb in Hge; apply Z.leb_gt in Hge; lia).
      rewrite IH by assumption.
      replace (Z.to_nat (n - seen) - 1)%nat
        with (S (Z.to_nat (n - (seen + 1)) - 1))%nat by lia.
      reflexivity.
  - rewrite filter_cons_False by (intros Hk2; simpl in Hk2; rewrite Hk in Hk2; discriminate).
    rewrite filter_nil. simpl. apply IH, Hlt.
Qed.

Lemma assistant_position_role items i :
  i ∈ reverse (assistant_positions items) →
  has_role "assistant" (items !! i) = true.
Proof.
  rewrite elem_of_reverse. unfold assistant_positions.
  rewrite list_elem_of_filter. tauto.
Qed.

(** For a positive number of rounds the code computes the tail view of the
    specification. *)
Lemma tail_items_by_rounds_spec items n :
  1 ≤ n →
  _tail_items_by_rounds items n = tail_by_assistant_rounds items (Z.to_nat n).
Proof.
  intros Hn. unfold _tail_items_by_rounds, tail_by_assistant_rounds.
  rewrite scan_back_positions by lia. rewrite Z.sub_0_r.
  fold (assistant_positions items).
  destruct (reverse (assistant_positions items) !! (Z.to_nat n - 1)%nat)
    as [i|] eqn:Hi; cbn [from_option id].
  - assert (Ha : has_role "assistant" (items !! i) = true).
    { apply assistant_position_role. eapply list_elem_of_lookup_2, Hi. }
    unfold include_prompt. rewrite Ha.
    destruct (0 <? i)%nat; cbn [andb];
      [destruct (has_role "user" (items !! (i - 1)%nat))|];
      destruct items; try reflexivity; now rewrite drop_nil.
  - unfold include_prompt. cbn [Nat.ltb Nat.leb andb]. destruct items; reflexivity.
Qed.

(** With no positive number of rounds the loop stops at the last assistant
    turn, as it does for one round. *)
Lemma tail_items_by_rounds_nonpositive items n :
  n ≤ 1 → _tail_items_by_rounds items n = _tail_items_by_rounds items 1.
Proof.
  intros Hn. unfold _tail_items_by_rounds.
  enough (H : ∀ k, scan_back items n k 0 = scan_back items 1 k 0)
    by now rewrite H.
  induction k as [|k IH]; cbn [scan_back]; [reflexivity|].
  destruct (has_role "assistant" (items !! k)); [|exact IH].
  replace (0 + 1 >=? n) with true by (symmetry; apply Z.geb_le; lia).
  reflexivity.
Qed.

End ConversationFacts.

(** C6.  For every log and every number [n >= 1] of rounds,
    [_tail_items_by_rounds] returns the suffix that starts at the [n]-th
    last assistant turn, moved back by one item when a user turn comes
    right before that turn, and the whole log when there are fewer than [n]
    assistant turns.  On [system, user1, assistant1, user2, assistant2],
    one round gives [user2, assistant2] and two rounds give
    [user1, assistant1, user2, assistant2]. *)
Theorem tail_by_rounds_window (items : ConversationStore) (n : Z) :
  1 ≤ n →
  _tail_items_by_rounds items n = tail_by_assistant_rounds items (Z.to_nat n)
  ∧ ((length (assistant_positions items) < Z.to_nat n)%nat →
     _tail_items_by_rounds items n = items)
  ∧ (let sys := mkItem "system" "s" 0 [] in
     let user1 := mkItem "user" "u1" 1 [] in
     let assistant1 := mkItem "assistant" "a1" 2 [] in
     let user2 := mkItem "user" "u2" 3 [] in
     let assistant2 := mkItem "assistant" "a2" 4 [] in
     let log := [sys; user1; assistant1; user2; assistant2] in
     _tail_items_by_rounds log 1 = [user2; assistant2]
     ∧ _tail_items_by_rounds log 2 = [user1; assistant1; user2; assistant2]).
Proof.
  intros Hn. split; [now apply tail_items_by_rounds_spec|]. split.
  - intros Hfew. rewrite tail_items_by_rounds_spec by assumption.
    unfold tail_by_assistant_rounds.
    rewrite lookup_ge_None_2; [reflexivity|].
    rewrite length_reverse. lia.
  - split; reflexivity.
Qed.

Lemma tail_by_rounds_window_witness :
  let log := [mkItem "system" "s" 0 []; mkItem "user" "u1" 1 [];
              mkItem "assistant" "a1" 2 []; mkItem "user" "u2" 3 [];
              mkItem "assistant" "a2" 4 []] in
  _tail_items_by_rounds log 2 = tail_by_assistant_rounds log (Z.to_nat 2).
Proof. intros log. apply (tail_by_rounds_window log 2). lia. Defined.

(** ** Cache lookup *)

Section LookupFacts.
Variables (h : heap) (mr fp : Z).

Let elig (r : ref) : bool :=
  succeeded (deref h r) && (hit_count (deref h r) <? mr).

(** The scan keeps [best] unless it meets an eligible entry closer than
    [best_dist]; then it ends on an eligible entry that is closer than
    [best_dist] and at least as close as every eligible entry it saw. *)
Lemma lookup_scan_spec refs :
  ∀ best bd,
    let res := lookup_scan h mr fp refs best bd in
    ((∀ r, r ∈ refs → elig r = true → bd ≤ distance h fp r) ∧ res = best)
    ∨ (∃ r, res = Some r ∧ r ∈ refs ∧ elig r = true
            ∧ distance h fp r < bd
            ∧ ∀ r', r' ∈ refs → elig r' = true →
                    distance h fp r ≤ distance h fp r').
Proof.
  induction refs as [|r0 refs IH]; intros best bd; cbn [lookup_scan].
  - left. split; [|reflexivity]. intros r Hr. inversion Hr.
  - assert (Hskip :
      elig r0 = false ∨ bd ≤ distance h fp r0 →
      let res := lookup_scan h mr fp refs best bd in
      ((∀ r, r ∈ r0 :: refs → elig r = true → bd ≤ distance h fp r)
       ∧ res = best)
      ∨ (∃ r, res = Some r ∧ r ∈ r0 :: refs ∧ elig r = true
              ∧ distance h fp r < bd
              ∧ ∀ r', r' ∈ r0 :: refs → elig r' = true →
                      distance h fp r ≤ distance h fp r')).
    { intros Hr0. destruct (IH best bd) as [[Hall Hres]|(r & Hres & Hin & He & Hd & Hmin)].
      - left. split; [|exact Hres].
        intros r Hr Hel. apply elem_of_cons in Hr as [->|Hr]; [|auto].
        destruct Hr0 as [Hr0|Hr0]; [congruence|exact Hr0].
      - right. exists r. split; [exact Hres|]. split; [now right|].
        split; [exact He|]. split; [exact Hd|].
        intros r' Hr' Hel. apply elem_of_cons in Hr' as [->|Hr']; [|auto].
        destruct Hr0 as [Hr0|Hr0]; [congruence|]. lia. }
    unfold elig in Hskip at 1.
    destruct (succeeded (deref h r0)) eqn:Hs; cbn [negb];
      [|apply Hskip; now left].
    rewrite Z.geb_leb.
    destruct (Z.leb_spec mr (hit_count (deref h r0))) as [Hhc|Hhc].
    { apply Hskip. left. simpl. apply Z.ltb_ge. exact Hhc. }
    fold (distance h fp r0).
    destruct (Z.ltb_spec (distance h fp r0) bd) as [Hlt|Hge];
      [|apply Hskip; now right].
    assert (He0 : elig r0 = true).
    { unfold elig. rewrite Hs. simpl. now apply Z.ltb_lt. }
    right.
    destruct (IH (Some r0) (distance h fp r0))
      as [[Hall Hres]|(r & Hres & Hin & He & Hd & Hmin)].
    + exists r0. split; [exact Hres|]. split; [now left|].
      split; [exact He0|]. split; [exact Hlt|].
      intros r' Hr' Hel. apply elem_of_cons in Hr' as [->|Hr']; [lia|auto].
    + exists r. split; [exact Hres|]. split; [now right|].
      split; [exact He|]. split; [lia|].
      intros r' Hr' Hel. apply elem_of_cons in Hr' as [->|Hr']; [lia|auto].
Qed.

End LookupFacts.

Section CacheLookup.
Variables (h : heap) (c : L0Cache) (fp : Z).

(** [lookup] misses exactly when no eligible entry is within the threshold. *)
Lemma lookup_None :
  (∀ r, r ∈ refs_of c → ¬ candidate h c fp r) → lookup h c fp = None.
Proof.
  intros Hno. unfold lookup.
  destruct (lookup_scan_spec h (max_reuse c) fp (map snd (_entries c)) None
              (hash_threshold c + 1))
    as [[_ Hres]|(r & _ & Hin & He & Hd & _)]; [exact Hres|].
  exfalso. apply (Hno r Hin). split; [exact He|lia].
Qed.

(** On a hit the entry is eligible, within the threshold, and no eligible
    entry is closer. *)
Lemma lookup_Some :
  (∃ r, r ∈ refs_of c ∧ candidate h c fp r) →
  ∃ r, lookup h c fp = Some r ∧ r ∈ refs_of c ∧ candidate h c fp r
       ∧ ∀ r', r' ∈ refs_of c → eligible c (deref h r') = true →
               distance h fp r ≤ distance h fp r'.
Proof.
  intros (r0 & Hin0 & He0 & Hd0). unfold lookup.
  destruct (lookup_scan_spec h (max_reuse c) fp (map snd (_entries c)) None
              (hash_threshold c + 1))
    as [[Hall _]|(r & Hres & Hin & He & Hd & Hmin)].
  - specialize (Hall r0 Hin0 He0). lia.
  - exists r. split; [exact Hres|]. split; [exact Hin|].
    split; [split; [exact He|lia]|]. exact Hmin.
Qed.

End CacheLookup.

(** ** The object store and the shape of the cache *)

Section HeapFacts.

Lemma deref_alter_eq f (h : heap) r :
  (r < length h)%nat → deref (alter f r h) r = f (deref h r).
Proof. apply list_lookup_total_alter_eq. Qed.

Lemma deref_alter_ne f (h : heap) r r' :
  r ≠ r' → deref (alter f r h) r' = deref h r'.
Proof. apply list_lookup_total_alter_ne. Qed.

Lemma deref_lookup (h : heap) r e : h !! r = Some e → deref h r = e.
Proof. apply list_lookup_total_correct. Qed.

Lemma deref_alter_fingerprint f (h : heap) r r' :
  (∀ e, fingerprint (f e) = fingerprint e) →
  fingerprint (deref (alter f r h) r') = fingerprint (deref h r').
Proof.
  intros Hf. unfold deref. rewrite list_lookup_total_alter.
  destruct (decide _) as [[-> _]|_]; [apply Hf|reflexivity].
Qed.

Lemma deref_app_old (h : heap) e r :
  (r < length h)%nat → deref (h ++ [e]) r = deref h r.
Proof. apply lookup_total_app_l. Qed.

Lemma deref_app_new (h : heap) e : deref (h ++ [e]) (length h) = e.
Proof. now apply list_lookup_total_middle. Qed.

Lemma keyed_alter f h d r :
  (∀ e, fingerprint (f e) = fingerprint e) →
  keyed h d → keyed (alter f r h) d.
Proof.
  intros Hf Hk k r' Hin. destruct (Hk k r' Hin) as [Hlt Hfp].
  rewrite length_alter, deref_alter_fingerprint by exact Hf. auto.
Qed.

Lemma well_formed_new ht mr me : well_formed [] (new_cache ht mr me).
Proof.
  split; [apply NoDup_nil; exact I|]. split; [|constructor].
  intros k r Hin. inversion Hin.
Qed.

Lemma well_formed_record_hit h c r step :
  well_formed h c → well_formed (record_hit h r step) c.
Proof.
  intros (Hnd & Hk & Hhc). split; [exact Hnd|]. split.
  - apply keyed_alter; [reflexivity|exact Hk].
  - apply Forall_alter; [exact Hhc|]. intros e _ He. simpl. lia.
Qed.

Lemma well_formed_mark_failed h c r :
  well_formed h c → well_formed (mark_failed h r) c.
Proof.
  intros (Hnd & Hk & Hhc). split; [exact Hnd|]. split.
  - apply keyed_alter; [reflexivity|exact Hk].
  - apply Forall_alter; [exact Hhc|]. intros e _ He. exact He.
Qed.

Lemma well_formed_evict h c r :
  well_formed h c → well_formed h (evict h c r).
Proof.
  intros (Hnd & Hk & Hhc). split; [apply dict_del_NoDup, Hnd|].
  split; [|exact Hhc].
  intros k r' Hin. apply dict_del_elem in Hin as [Hin _]. auto.
Qed.

(** A new entry under its own key, in a dict that may have lost a key. *)
Lemma well_formed_put h c d1 fp acts post step :
  well_formed h c →
  NoDup (Py.dict_keys d1) → (∀ kv, kv ∈ d1 → kv ∈ _entries c) →
  well_formed (h ++ [mkEntry fp acts post 0 step true])
              (with_entries c (Py.dict_set fp (length h) d1)).
Proof.
  intros (Hnd & Hk & Hhc) Hnd1 Hsub. split; [apply dict_set_NoDup, Hnd1|].
  split.
  - intros k r Hin. simpl in Hin.
    apply dict_set_elem in Hin as [[= -> ->]|Hin].
    + rewrite deref_app_new, length_app. simpl. split; [lia|reflexivity].
    + destruct (Hk k r (Hsub _ Hin)) as [Hlt Hfp].
      rewrite deref_app_old, length_app by exact Hlt. split; [lia|exact Hfp].
  - apply Forall_app_2; [exact Hhc|]. repeat constructor. simpl. lia.
Qed.

Lemma well_formed_store h c fp acts post step h' c' :
  well_formed h c → store h c fp acts post step = Some (h', c') →
  well_formed h' c'.
Proof.
  intros Hwf. unfold store.
  destruct ((Z.of_nat (length (_entries c)) >=? max_entries c)
            && negb (Py.dict_contains fp (_entries c))).
  - destruct (Py.py_min _ _) as [oldest|]; [|discriminate].
    intros [= <- <-]. apply well_formed_put; [exact Hwf| |].
    + apply dict_del_NoDup, Hwf.
    + intros kv Hin. now apply dict_del_elem in Hin as [Hin _].
  - intros [= <- <-]. apply well_formed_put; [exact Hwf|apply Hwf|auto].
Qed.

(** In a well-formed cache the entry found under a key is the only one with
    that fingerprint. *)
Lemma keyed_ref_unique h c r r' :
  well_formed h c → r ∈ refs_of c → r' ∈ refs_of c →
  fingerprint (deref h r) = fingerprint (deref h r') → r = r'.
Proof.
  intros (Hnd & Hk & _) Hr Hr' Hfp. unfold refs_of in *.
  apply list_elem_of_In, in_map_iff in Hr as ([k r0] & <- & Hin).
  apply list_elem_of_In, in_map_iff in Hr' as ([k' r0'] & <- & Hin').
  apply list_elem_of_In in Hin, Hin'. simpl in *.
  destruct (Hk _ _ Hin) as [_ H1]. destruct (Hk _ _ Hin') as [_ H2].
  assert (k = k') by congruence. subst k'.
  pose proof (dict_get_unique _ _ _ Hnd Hin).
  pose proof (dict_get_unique _ _ _ Hnd Hin'). congruence.
Qed.

End HeapFacts.

(** ** The router's verification step *)

(** C3.  [verify_and_commit(entry, post_fp, step, success)]: when [success]
    is false the entry is marked failed and the result is false; else, when
    [post_fp] is present and equal to the entry's fingerprint, the entry is
    evicted (no entry is left under that key, every other key keeps its
    entry) and the result is false; otherwise the entry's hit count goes up
    by one, its last-used step becomes [step], and the result is true.
    Nothing else in the object store or the cache changes. *)
Theorem verify_and_commit_cases (h : heap) (r : L0Router) (entry : ref)
    (e : L0CacheEntry) (post_fp : option Z) (step : Z) (success : bool) :
  h !! entry = Some e →
  (success = false →
     verify_and_commit h r entry post_fp step success
       = (mark_failed h entry, r, false)
     ∧ mark_failed h entry !! entry = Some (set_failed e)
     ∧ succeeded (deref (mark_failed h entry) entry) = false
     ∧ ∀ j, j ≠ entry → mark_failed h entry !! j = h !! j)
  ∧ (success = true → post_fp = Some (fingerprint e) →
     verify_and_commit h r entry post_fp step success
       = (h, mkRouter (evict h (cache r) entry), false)
     ∧ Py.dict_get (fingerprint e) (_entries (evict h (cache r) entry)) = None
     ∧ (keyed h (_entries (cache r)) →
        entry ∉ refs_of (evict h (cache r) entry))
     ∧ ∀ k, k ≠ fingerprint e →
         Py.dict_get k (_entries (evict h (cache r) entry))
         = Py.dict_get k (_entries (cache r)))
  ∧ (success = true → post_fp ≠ Some (fingerprint e) →
     verify_and_commit h r entry post_fp step success
       = (record_hit h entry step, r, true)
     ∧ record_hit h entry step !! entry = Some (set_hit step e)
     ∧ hit_count (deref (record_hit h entry step) entry) = hit_count e + 1
     ∧ last_step (deref (record_hit h entry step) entry) = step
     ∧ ∀ j, j ≠ entry → record_hit h entry step !! j = h !! j).
Proof.
  intros He.
  assert (Hlt : (entry < length h)%nat) by (eapply lookup_lt_Some, He).
  assert (Hd : deref h entry = e) by now apply deref_lookup.
  unfold verify_and_commit. rewrite Hd.
  split; [|split].
  - intros ->. cbn [negb]. split; [reflexivity|].
    unfold mark_failed. rewrite list_lookup_alter_eq, He.
    split; [reflexivity|]. rewrite deref_alter_eq, Hd by exact Hlt.
    split; [reflexivity|]. intros j Hj. now apply list_lookup_alter_ne.
  - intros -> ->. cbn [negb]. rewrite Z.eqb_refl.
    split; [reflexivity|]. unfold evict. rewrite Hd. cbn [_entries with_entries].
    split; [apply dict_get_del_eq|]. split.
    + intros Hk Hin. unfold refs_of in Hin. cbn [_entries with_entries] in Hin.
      apply list_elem_of_In, in_map_iff in Hin as ([k r0] & Hr0 & Hin).
      simpl in Hr0. subst r0.
      apply list_elem_of_In, dict_del_elem in Hin as [Hin Hne].
      destruct (Hk _ _ Hin) as [_ Hfp]. simpl in Hne. congruence.
    + intros k Hk. now apply dict_get_del_ne.
  - intros -> Hpost. cbn [negb].
    assert (Hres : match post_fp with
                   | Some p =>
                       if p =? fingerprint e
                       then (h, mkRouter (evict h (cache r) entry), false)
                       else (record_hit h entry step, r, true)
                   | None => (record_hit h entry step, r, true)
                   end = (record_hit h entry step, r, true)).
    { destruct post_fp as [p|]; [|reflexivity].
      destruct (Z.eqb_spec p (fingerprint e)); [congruence|reflexivity]. }
    rewrite Hres. split; [reflexivity|].
    unfold record_hit. rewrite list_lookup_alter_eq, He.
    split; [reflexivity|]. rewrite deref_alter_eq, Hd by exact Hlt.
    split; [reflexivity|]. split; [reflexivity|].
    intros j Hj. now apply list_lookup_alter_ne.
Qed.

(** The verification tests: an unchanged screen evicts, a changed one counts
    a hit, a failed replay marks the entry. *)
Lemma verify_and_commit_cases_witness :
  let h := [mkEntry 1000 [click] (Some 2000) 0 1 true] in
  let r := mkRouter (mkCache 5 3 256 [(1000, 0%nat)]) in
  verify_and_commit h r 0 (Some 1000) 2 true
    = (h, mkRouter (mkCache 5 3 256 []), false)
  ∧ verify_and_commit h r 0 (Some 2000) 2 true
    = ([mkEntry 1000 [click] (Some 2000) 1 2 true], r, true)
  ∧ verify_and_commit h r 0 (Some 2000) 2 false
    = ([mkEntry 1000 [click] (Some 2000) 0 1 false], r, false).
Proof.
  intros h r.
  pose proof (verify_and_commit_cases h r 0 _ (Some 1000) 2 true eq_refl)
    as (_ & H1 & _).
  pose proof (verify_and_commit_cases h r 0 _ (Some 2000) 2 true eq_refl)
    as (_ & _ & H2).
  pose proof (verify_and_commit_cases h r 0 _ (Some 2000) 2 false eq_refl)
    as (H3 & _).
  split; [apply (H1 eq_refl eq_refl)|].
  split; [apply (H2 eq_refl); discriminate|].
  apply (H3 eq_refl).
Defined.

(** ** Storing into the cache *)

Section StoreFacts.

(** [store] raises only when it has to evict from an empty dict. *)
Lemma store_returns h c fp acts post step :
  1 ≤ max_entries c ∨ _entries c ≠ [] →
  ∃ d1,
    store h c fp acts post step
    = Some (h ++ [mkEntry fp acts post 0 step true],
            with_entries c (Py.dict_set fp (length h) d1))
    ∧ ((Z.of_nat (length (_entries c)) >=? max_entries c)
       && negb (Py.dict_contains fp (_entries c)) = false → d1 = _entries c)
    ∧ ((Z.of_nat (length (_entries c)) >=? max_entries c)
       && negb (Py.dict_contains fp (_entries c)) = true →
       ∃ oldest,
         d1 = Py.dict_del oldest (_entries c)
         ∧ oldest ∈ Py.dict_keys (_entries c)
         ∧ ∀ k, k ∈ Py.dict_keys (_entries c) →
             last_step_of h (_entries c) oldest
             ≤ last_step_of h (_entries c) k).
Proof.
  intros Hne. unfold store.
  destruct ((Z.of_nat (length (_entries c)) >=? max_entries c)
            && negb (Py.dict_contains fp (_entries c))) eqn:Hfull.
  - assert (Hd : Py.dict_keys (_entries c) ≠ []).
    { apply andb_true_iff in Hfull as [Hge _]. apply Z.geb_le in Hge.
      destruct (_entries c); [|discriminate].
      destruct Hne as [Hne|Hne]; [simpl in Hge; lia|congruence]. }
    destruct (py_min_spec (last_step_of h (_entries c)) _ Hd)
      as (oldest & -> & Hin & Hmin).
    exists (Py.dict_del oldest (_entries c)).
    split; [reflexivity|]. split; [discriminate|]. eauto.
  - exists (_entries c). split; [reflexivity|]. split; [reflexivity|discriminate].
Qed.

(** The key of [min] in [store] is the last-used step of the entry that
    the dict holds under the key. *)
Lemma last_step_of_entry h d k r :
  Py.dict_get k d = Some r → last_step_of h d k = last_step (deref h r).
Proof. unfold last_step_of. now intros ->. Qed.

Lemma dict_get_key {V} k (v : V) d : Py.dict_get k d = Some v → k ∈ Py.dict_keys d.
Proof.
  intros Hget. destruct (decide (k ∈ Py.dict_keys d)) as [Hin|Hout]; [exact Hin|].
  apply dict_get_None in Hout. congruence.
Qed.

Lemma dict_key_get {V} k (d : Py.dict V) :
  k ∈ Py.dict_keys d → ∃ v, Py.dict_get k d = Some v.
Proof.
  intros Hin. destruct (Py.dict_get k d) as [v|] eqn:Hget; [eauto|].
  apply dict_get_None in Hget. contradiction.
Qed.

End StoreFacts.

(** C4, for a cache with room for at least one entry.
    [store(fingerprint, actions, post_fingerprint, step)] in a cache with
    [max_entries >= 1] that holds no more than [max_entries] entries: it
    returns; afterwards the key maps to a fresh entry with these values, a
    hit count of 0 and [succeeded] set; the cache still has at most
    [max_entries] entries.  Overwriting a key leaves the keys as they were; a
    new key below capacity is added after them; a new key at capacity first
    takes out exactly one key, and the entry under that key is one whose
    [last_step] field is the smallest of all entries of the cache; then the
    new key is added.  Every other key keeps its entry.  With
    [max_entries = 3], storing 100, 200, 300 at steps 1, 2, 3 and then 400 at
    step 4 leaves 200, 300, 400; when the entry of 100 is hit at step 9
    before 400 is stored, it is 200 that goes, and 100, 300, 400 are left. *)
Theorem store_upserts_within_capacity (h : heap) (c : L0Cache) (fp : Z)
    (acts : list PredictionParsed) (post : option Z) (step : Z) :
  well_formed h c →
  1 ≤ max_entries c →
  Z.of_nat (length (_entries c)) ≤ max_entries c →
  ∃ h' c',
    store h c fp acts post step = Some (h', c')
    ∧ h' = h ++ [mkEntry fp acts post 0 step true]
    ∧ Py.dict_get fp (_entries c') = Some (length h)
    ∧ deref h' (length h) = mkEntry fp acts post 0 step true
    ∧ (hash_threshold c', max_reuse c', max_entries c')
      = (hash_threshold c, max_reuse c, max_entries c)
    ∧ Z.of_nat (length (_entries c')) ≤ max_entries c'
    ∧ well_formed h' c'
    ∧ (if Py.dict_contains fp (_entries c) then
         Py.dict_keys (_entries c') = Py.dict_keys (_entries c)
         ∧ ∀ k, k ≠ fp →
             Py.dict_get k (_entries c') = Py.dict_get k (_entries c)
       else if Z.of_nat (length (_entries c)) <? max_entries c then
         Py.dict_keys (_entries c') = Py.dict_keys (_entries c) ++ [fp]
         ∧ ∀ k, k ≠ fp →
             Py.dict_get k (_entries c') = Py.dict_get k (_entries c)
       else
         ∃ oldest victim,
           Py.dict_get oldest (_entries c) = Some victim
           ∧ (∀ k r, Py.dict_get k (_entries c) = Some r →
                last_step (deref h victim) ≤ last_step (deref h r))
           ∧ Py.dict_keys (_entries c')
             = filter (fun k => k ≠ oldest) (Py.dict_keys (_entries c)) ++ [fp]
           ∧ length (_entries c') = length (_entries c)
           ∧ Py.dict_get oldest (_entries c') = None
           ∧ ∀ k, k ≠ fp → k ≠ oldest →
               Py.dict_get k (_entries c') = Py.dict_get k (_entries c))
    ∧ (Py.dict_keys ∘ _entries ∘ snd <$>
         store_all [click]
           [(100, Some 200, 1); (200, Some 300, 2); (300, Some 400, 3);
            (400, Some 500, 4)]
           ([], new_cache 0 3 3))
      = Some [200; 300; 400]
    ∧ (Py.dict_keys ∘ _entries ∘ snd <$>
         match store_all [click]
                 [(100, Some 200, 1); (200, Some 300, 2); (300, Some 400, 3)]
                 ([], new_cache 0 3 3) with
         | Some (h3, c3) =>
             match Py.dict_get 100 (_entries c3) with
             | Some r => store (record_hit h3 r 9) c3 400 [click] (Some 500) 10
             | None => None
             end
         | None => None
         end)
      = Some [100; 300; 400].
Proof.
  intros Hwf Hme Hlen.
  destruct (store_returns h c fp acts post step (or_introl Hme))
    as (d1 & Hst & Hkeep & Hevict).
  eexists _, _. split; [exact Hst|]. split; [reflexivity|].
  cbn [_entries with_entries hash_threshold max_reuse max_entries].
  split; [apply dict_get_set_eq|]. split; [apply deref_app_new|].
  split; [reflexivity|].
  assert (Hwf' := well_formed_store _ _ _ _ _ _ _ _ Hwf Hst).
  destruct Hwf as (Hnd & Hk & Hhc).
  rewrite dict_set_length, dict_set_keys.
  destruct (Py.dict_contains fp (_entries c)) eqn:Hc.
  - (* the key is there: nothing is evicted *)
    rewrite andb_false_r in Hkeep. pose proof (Hkeep eq_refl) as ->.
    rewrite Hc.
    split; [exact Hlen|]. split; [exact Hwf'|].
    split; [|split; reflexivity].
    split; [reflexivity|]. intros k Hne. now apply dict_get_set_ne.
  - rewrite andb_true_r in Hkeep, Hevict.
    destruct (Z.ltb_spec (Z.of_nat (length (_entries c))) (max_entries c))
      as [Hroom|Hfull].
    + (* a new key, below capacity *)
      assert (Hge : (Z.of_nat (length (_entries c)) >=? max_entries c) = false)
        by (rewrite Z.geb_leb; apply Z.leb_gt; lia).
      pose proof (Hkeep Hge) as ->. rewrite Hc.
      split; [lia|]. split; [exact Hwf'|].
      split; [|split; reflexivity].
      split; [reflexivity|]. intros k Hne. now apply dict_get_set_ne.
    + (* a new key, at capacity *)
      assert (Hge : (Z.of_nat (length (_entries c)) >=? max_entries c) = true)
        by (apply Z.geb_le; lia).
      destruct (Hevict Hge) as (oldest & -> & Hin & Hmin).
      assert (Hc' : Py.dict_contains fp (Py.dict_del oldest (_entries c)) = false).
      { apply dict_contains_false. rewrite dict_del_keys, list_elem_of_filter.
        apply dict_contains_false in Hc. tauto. }
      rewrite Hc'.
      pose proof (dict_del_length oldest (_entries c) Hnd Hin) as Hl.
      split; [lia|]. split; [exact Hwf'|].
      split; [|split; reflexivity].
      destruct (dict_key_get oldest (_entries c) Hin) as (victim & Hvictim).
      exists oldest, victim. split; [exact Hvictim|]. split.
      { intros k r Hget.
        rewrite <- (last_step_of_entry h _ _ _ Hvictim),
                <- (last_step_of_entry h _ _ _ Hget).
        apply Hmin. eapply dict_get_key, Hget. }
      split; [now rewrite dict_del_keys|]. split; [lia|].
      assert (oldest ≠ fp).
      { intros ->. apply dict_contains_false in Hc. contradiction. }
      split.
      * rewrite dict_get_set_ne by assumption. apply dict_get_del_eq.
      * intros k Hk1 Hk2.
        rewrite dict_get_set_ne, dict_get_del_ne by assumption. reflexivity.
Qed.

(** A full cache in which the entry stored first was used last: 100 was
    stored at step 1 and hit at step 9, 200 and 300 were stored at steps 2
    and 3.  The store of 400 takes out 200. *)
Lemma store_upserts_within_capacity_witness :
  let e k p s := mkEntry k [click] (Some p) 0 s true in
  let h := [mkEntry 100 [click] (Some 200) 1 9 true; e 200 300 2; e 300 400 3] in
  let c := mkCache 0 3 3 [(100, 0%nat); (200, 1%nat); (300, 2%nat)] in
  ∃ h' c',
    store h c 400 [click] (Some 500) 10 = Some (h', c')
    ∧ Py.dict_get 400 (_entries c') = Some 3%nat
    ∧ Z.of_nat (length (_entries c')) ≤ max_entries c'
    ∧ well_formed h' c'
    ∧ Py.dict_keys (_entries c') = [100; 300; 400].
Proof.
  intros e h c.
  assert (Hwf : well_formed h c).
  { apply (well_formed_record_hit [e 100 200 1; e 200 300 2; e 300 400 3] c 0 9).
    apply (well_formed_store [e 100 200 1; e 200 300 2]
             (mkCache 0 3 3 [(100, 0%nat); (200, 1%nat)])
             300 [click] (Some 400) 3); [|reflexivity].
    apply (well_formed_store [e 100 200 1] (mkCache 0 3 3 [(100, 0%nat)])
             200 [click] (Some 300) 2); [|reflexivity].
    apply (well_formed_store [] (new_cache 0 3 3)
             100 [click] (Some 200) 1); [|reflexivity].
    apply well_formed_new. }
  destruct (store_upserts_within_capacity h c 400 [click] (Some 500) 10 Hwf)
    as (h' & c' & Hst & _ & Hget & _ & _ & Hlen & Hwf' & _);
    [simpl; lia|simpl; lia|].
  exists h', c'. do 4 (split; [assumption|]).
  vm_compute in Hst. injection Hst as _ <-. reflexivity.
Defined.

(** The claim as it stands does not hold of a cache without room for an
    entry: with [max_entries = 0] the first [store] raises ([min] of an empty
    dict) and stores nothing. *)
Lemma store_needs_capacity :
  ¬ (∀ (h : heap) (c : L0Cache) (fp : Z) (acts : list PredictionParsed)
       (post : option Z) (step : Z),
       well_formed h c →
       Z.of_nat (length (_entries c)) ≤ max_entries c →
       ∃ h' c',
         store h c fp acts post step = Some (h', c')
         ∧ Py.dict_get fp (_entries c') = Some (length h)
         ∧ Z.of_nat (length (_entries c')) ≤ max_entries c').
Proof.
  intros H.
  destruct (H [] (new_cache 5 3 0) 100 [click] None 1) as (h' & c' & Hst & _).
  - apply well_formed_new.
  - simpl. lia.
  - discriminate Hst.
Qed.

(** ** Lookup: closest eligible entry, reuse budget, failed entries *)

Section LookupResults.

(** Whatever [lookup] returns is a closest eligible entry within the
    threshold. *)
Lemma lookup_hit h c fp r :
  lookup h c fp = Some r →
  r ∈ refs_of c ∧ candidate h c fp r
  ∧ ∀ r', r' ∈ refs_of c → eligible c (deref h r') = true →
          distance h fp r ≤ distance h fp r'.
Proof.
  unfold lookup. intros Hl.
  destruct (lookup_scan_spec h (max_reuse c) fp (map snd (_entries c)) None
              (hash_threshold c + 1))
    as [[_ Hres]|(r0 & Hres & Hin & He & Hd & Hmin)]; [congruence|].
  assert (r0 = r) as -> by congruence.
  split; [exact Hin|]. split; [split; [exact He|lia]|exact Hmin].
Qed.

Lemma dict_get_ref (c : L0Cache) k r :
  Py.dict_get k (_entries c) = Some r → r ∈ refs_of c.
Proof.
  intros H. apply dict_get_elem in H. unfold refs_of.
  apply list_elem_of_In, in_map_iff. exists (k, r).
  split; [reflexivity|now apply list_elem_of_In].
Qed.

(** An eligible entry under the very key asked for is the one returned. *)
Lemma lookup_exact h c f r :
  well_formed h c → 0 ≤ hash_threshold c →
  Py.dict_get f (_entries c) = Some r →
  eligible c (deref h r) = true →
  lookup h c f = Some r.
Proof.
  intros Hwf Hth Hget Hel.
  assert (Hin : r ∈ refs_of c) by (eapply dict_get_ref, Hget).
  assert (Hfp : fingerprint (deref h r) = f).
  { destruct Hwf as (_ & Hk & _). apply (Hk f r). now apply dict_get_elem. }
  assert (Hd : distance h f r = 0).
  { unfold distance. rewrite Hfp. apply hamming_distance_self. }
  destruct (lookup_Some h c f) as (r' & Hl & Hin' & [Hel' _] & Hmin).
  { exists r. split; [exact Hin|]. split; [exact Hel|lia]. }
  rewrite Hl. f_equal.
  specialize (Hmin r Hin Hel).
  assert (Hd' : distance h f r' = 0).
  { pose proof (hamming_distance_nonneg f (fingerprint (deref h r'))).
    unfold distance in *. lia. }
  unfold distance in Hd'. apply (proj1 (hamming_distance_zero_iff _ _)) in Hd'.
  apply (keyed_ref_unique h c); [exact Hwf|exact Hin'|exact Hin|].
  rewrite Hfp. symmetry. exact Hd'.
Qed.

End LookupResults.

(** C2.  [lookup(fp)] returns [None] when no entry that has [succeeded] set
    and [hit_count < max_reuse] lies within [hash_threshold] of [fp];
    otherwise it returns such an entry, and no eligible entry is closer to
    [fp].  With [max_reuse = 2], two [record_hit] calls on an entry leave
    [lookup] of the entry's own fingerprint with [None], as long as no other
    eligible entry is within the threshold. *)
Theorem lookup_closest_eligible (h : heap) (c : L0Cache) (fp : Z) :
  ((∀ r, r ∈ refs_of c → ¬ candidate h c fp r) → lookup h c fp = None)
  ∧ ((∃ r, r ∈ refs_of c ∧ candidate h c fp r) →
     ∃ r, lookup h c fp = Some r ∧ r ∈ refs_of c ∧ candidate h c fp r
          ∧ ∀ r', r' ∈ refs_of c → eligible c (deref h r') = true →
                  distance h fp r ≤ distance h fp r')
  ∧ (∀ r e step1 step2,
       max_reuse c = 2 → h !! r = Some e → 0 ≤ hit_count e →
       fp = fingerprint e →
       (∀ r', r' ∈ refs_of c → r' ≠ r → ¬ candidate h c fp r') →
       lookup (record_hit (record_hit h r step1) r step2) c fp = None)
  ∧ (let h0 := [mkEntry 1000 [click] (Some 2000) 0 1 true] in
     let c0 := mkCache 5 2 256 [(1000, 0%nat)] in
     lookup h0 c0 1000 = Some 0%nat
     ∧ lookup (record_hit h0 0 2) c0 1000 = Some 0%nat
     ∧ lookup (record_hit (record_hit h0 0 2) 0 3) c0 1000 = None).
Proof.
  split; [apply lookup_None|]. split; [apply lookup_Some|]. split.
  - intros r e step1 step2 Hmr He Hhc -> Hothers.
    assert (Hlt : (r < length h)%nat) by (eapply lookup_lt_Some, He).
    apply lookup_None. intros r' Hin [Hel Hd].
    destruct (decide (r' = r)) as [->|Hne].
    + unfold eligible, record_hit in Hel.
      rewrite deref_alter_eq in Hel by (rewrite length_alter; exact Hlt).
      rewrite deref_alter_eq in Hel by exact Hlt.
      rewrite (deref_lookup _ _ _ He) in Hel. simpl in Hel.
      apply andb_true_iff in Hel as [_ Hel]. apply Z.ltb_lt in Hel. lia.
    + apply (Hothers r' Hin Hne).
      unfold candidate, eligible, distance, record_hit in *.
      rewrite !deref_alter_ne in Hel, Hd by congruence. auto.
  - repeat split; vm_compute; reflexivity.
Qed.

(** The reuse test of [test_l0_cache.py], with a second, exhausted entry
    in the cache. *)
Lemma lookup_closest_eligible_witness :
  let h := [mkEntry 1000 [click] (Some 2000) 0 1 true;
            mkEntry 1001 [click] (Some 2000) 2 1 true] in
  let c := mkCache 5 2 256 [(1000, 0%nat); (1001, 1%nat)] in
  lookup (record_hit (record_hit h 0 2) 0 3) c 1000 = None.
Proof.
  intros h c.
  destruct (lookup_closest_eligible h c 1000) as (_ & _ & Hexh & _).
  apply (Hexh 0%nat (mkEntry 1000 [click] (Some 2000) 0 1 true) 2 3);
    [reflexivity|reflexivity|simpl; lia|reflexivity|].
  intros r' Hin Hne [Hel _].
  apply list_elem_of_In in Hin. simpl in Hin.
  destruct Hin as [<-|[<-|[]]]; [congruence|discriminate Hel].
Defined.

(** C10.  After [mark_failed] on the entry that the cache holds for
    fingerprint [f], no [lookup] returns that entry.  A later
    [store(f, ...)] returns whatever the settings are and puts a fresh entry
    under [f], with [succeeded] set and a hit count of 0, leaving the keys as
    they were; the fresh entry is eligible as soon as [max_reuse] is
    positive, and with a non-negative [hash_threshold] as well, [lookup(f)]
    returns it. *)
Theorem failed_key_is_stored_afresh (h : heap) (c : L0Cache) (f : Z) (r : ref)
    (acts : list PredictionParsed) (post : option Z) (step : Z) :
  well_formed h c →
  Py.dict_get f (_entries c) = Some r →
  (∀ fp, lookup (mark_failed h r) c fp ≠ Some r)
  ∧ ∃ h' c',
      store (mark_failed h r) c f acts post step = Some (h', c')
      ∧ Py.dict_get f (_entries c') = Some (length h)
      ∧ length h ≠ r
      ∧ deref h' (length h) = mkEntry f acts post 0 step true
      ∧ succeeded (deref h' (length h)) = true
      ∧ hit_count (deref h' (length h)) = 0
      ∧ Py.dict_keys (_entries c') = Py.dict_keys (_entries c)
      ∧ (0 < max_reuse c → eligible c' (deref h' (length h)) = true)
      ∧ (0 < max_reuse c → 0 ≤ hash_threshold c →
         lookup h' c' f = Some (length h)).
Proof.
  intros Hwf Hget.
  assert (Hlt : (r < length h)%nat).
  { destruct Hwf as (_ & Hk & _). apply (Hk f r). now apply dict_get_elem. }
  split.
  - intros fp Hl. apply lookup_hit in Hl as (_ & [Hel _] & _).
    unfold eligible, mark_failed in Hel.
    rewrite deref_alter_eq in Hel by exact Hlt. discriminate Hel.
  - assert (Hwf1 := well_formed_mark_failed h c r Hwf).
    assert (Hc : Py.dict_contains f (_entries c) = true).
    { apply dict_contains_keys. destruct (decide (f ∈ Py.dict_keys (_entries c)));
        [assumption|]. apply dict_get_None in n. congruence. }
    destruct (store_returns (mark_failed h r) c f acts post step)
      as (d1 & Hst & Hkeep & _).
    { right. intros Hnil. rewrite Hnil in Hget. discriminate. }
    rewrite Hc, andb_false_r in Hkeep. pose proof (Hkeep eq_refl) as ->.
    unfold mark_failed in Hst. rewrite length_alter in Hst.
    fold (mark_failed h r) in Hst.
    eexists _, _. split; [exact Hst|].
    assert (Hwf2 := well_formed_store _ _ _ _ _ _ _ _ Hwf1 Hst).
    cbn [_entries with_entries max_reuse].
    assert (Hnew : deref (mark_failed h r ++ [mkEntry f acts post 0 step true])
                     (length h) = mkEntry f acts post 0 step true).
    { replace (length h) with (length (mark_failed h r))
        by apply length_alter.
      apply deref_app_new. }
    assert (Hel : 0 < max_reuse c →
                  eligible (with_entries c (Py.dict_set f (length h) (_entries c)))
                    (deref (mark_failed h r ++ [mkEntry f acts post 0 step true])
                       (length h)) = true).
    { intros Hmr. rewrite Hnew. unfold eligible. simpl. apply Z.ltb_lt. exact Hmr. }
    split; [apply dict_get_set_eq|]. split; [lia|]. split; [exact Hnew|].
    split; [now rewrite Hnew|]. split; [now rewrite Hnew|].
    split; [now rewrite dict_set_keys, Hc|]. split; [exact Hel|].
    intros Hmr Hth.
    apply lookup_exact; [exact Hwf2|exact Hth|apply dict_get_set_eq|auto].
Qed.

(** [test_mark_failed] followed by a new [store] of the same fingerprint. *)
Lemma failed_key_is_stored_afresh_witness :
  let h := [mkEntry 1000 [click] (Some 2000) 0 1 true] in
  let c := mkCache 5 3 256 [(1000, 0%nat)] in
  (∀ fp, lookup (mark_failed h 0) c fp ≠ Some 0%nat)
  ∧ ∃ h' c',
      store (mark_failed h 0) c 1000 [click] (Some 3000) 7 = Some (h', c')
      ∧ lookup h' c' 1000 = Some 1%nat.
Proof.
  intros h c.
  assert (Hwf : well_formed h c).
  { apply (well_formed_store [] (new_cache 5 3 256)
             1000 [click] (Some 2000) 1); [|reflexivity].
    apply well_formed_new. }
  destruct (failed_key_is_stored_afresh h c 1000 0 [click] (Some 3000) 7 Hwf)
    as (Hskip & h' & c' & Hst & _ & _ & _ & _ & _ & _ & _ & Hl);
    [reflexivity|].
  split; [exact Hskip|]. exists h', c'.
  split; [exact Hst|]. apply Hl; simpl; lia.
Defined.

(** The lookup tests of [test_l0_cache.py]: an exact match, a near match
    within the threshold, and a miss with threshold 0. *)
Example lookup_tests :
  let h := [mkEntry 1000 [click] (Some 2000) 0 1 true] in
  lookup h (mkCache 5 3 256 [(1000, 0%nat)]) 1000 = Some 0%nat
  ∧ lookup h (mkCache 5 3 256 [(1000, 0%nat)]) 1001 = Some 0%nat
  ∧ lookup h (mkCache 0 3 256 [(1000, 0%nat)]) 1001 = None
  ∧ lookup h (mkCache 0 3 256 [(1000, 0%nat)]) 1000 = Some 0%nat.
Proof. repeat split; vm_compute; reflexivity. Qed.

(** With [max_entries = 0] the first [store] raises: [min] has nothing to
    choose from. *)
Example store_without_capacity_raises :
  store [] (new_cache 5 3 0) 100 [click] None 1 = None.
Proof. reflexivity. Qed.

(** ** The agent loop *)

Create HintDb keeps.

Section LoopFacts.
Import Loop.
Local Open Scope loop_scope.
Variable P : Effect → Prop.

Lemma adds_refl s : adds P s s.
Proof. exists []. split; [now rewrite app_nil_r|constructor]. Qed.

Lemma adds_trans s1 s2 s3 : adds P s1 s2 → adds P s2 s3 → adds P s1 s3.
Proof.
  intros (t1 & Ht1 & Hp1) (t2 & Ht2 & Hp2).
  exists (t1 ++ t2). split; [|now apply Forall_app_2].
  rewrite Ht2, Ht1. now rewrite app_assoc.
Qed.

Lemma grows_refl s : grows P s s.
Proof. split; [reflexivity|apply adds_refl]. Qed.

Lemma grows_trans s1 s2 s3 : grows P s1 s2 → grows P s2 s3 → grows P s1 s3.
Proof.
  intros [H1 Ha1] [H2 Ha2]. split; [congruence|]. eapply adds_trans; eauto.
Qed.

(** What follows a statement adds to what the statement did. *)
Lemma adds_bind_tail {A B} (m : M A) (k : A → M B) s :
  (∀ a s', adds P s' (state_of (k a s'))) →
  adds P (state_of (m s)) (state_of (bind m k s)).
Proof.
  intros Hk. unfold bind.
  destruct (m s) as [a s'|e s'|c s']; simpl; [apply Hk|apply adds_refl..].
Qed.

Lemma keeps_bind {A B} (m : M A) (k : A → M B) :
  keeps P m → (∀ a, keeps P (k a)) → keeps P (bind m k).
Proof.
  intros Hm Hk s. unfold bind. specialize (Hm s).
  destruct (m s) as [a s'|e s'|c s']; simpl in *; [|exact Hm|exact Hm].
  eapply grows_trans; [exact Hm|apply Hk].
Qed.

Lemma keeps_ret {A} (a : A) : keeps P (ret a).
Proof. intros s. apply grows_refl. Qed.

Lemma keeps_get : keeps P get.
Proof. intros s. apply grows_refl. Qed.

Lemma keeps_raise {A} e : keeps P (@raise A e).
Proof. intros s. apply grows_refl. Qed.

Lemma keeps_exit {A} k : keeps P (@exit_ A k).
Proof. intros s. apply grows_refl. Qed.

Lemma keeps_emit e : P e → keeps P (emit e).
Proof.
  intros He s. split; [reflexivity|]. exists [e]. split; [reflexivity|].
  now repeat constructor.
Qed.

Lemma keeps_silent {A} (m : M A) :
  (∀ s, parse_err_streak (state_of (m s)) = parse_err_streak s
        ∧ trace (state_of (m s)) = trace s) →
  keeps P m.
Proof.
  intros H s. destruct (H s) as [H1 H2]. split; [exact H1|].
  exists []. split; [now rewrite app_nil_r|constructor].
Qed.

Lemma keeps_ctl f : keeps P (ctl f).
Proof. apply keeps_silent. now intros s. Qed.

Lemma keeps_set_hub hb : keeps P (set_hub hb).
Proof. apply keeps_silent. now intros s. Qed.

Lemma keeps_set_conversation c : keeps P (set_conversation c).
Proof. apply keeps_silent. now intros s. Qed.

Lemma keeps_set_step n : keeps P (set_step n).
Proof. apply keeps_silent. now intros s. Qed.

Lemma keeps_outcome {A} (o : outcome A) :
  keeps P (match o with Returns a => ret a | Raises err => raise err end).
Proof. destruct o; [apply keeps_ret|apply keeps_raise]. Qed.

Lemma keeps_call {A} e (o : outcome A) : P e → keeps P (call e o).
Proof.
  intros He. unfold call. apply keeps_bind; [now apply keeps_emit|]. intros _.
  apply keeps_outcome.
Qed.

(** [publish] never raises: it adds the call and offers the event to every
    queue. *)
Lemma publish_eval env type_ data s :
  publish env type_ data s
  = Val tt (mkSt (control s) (published (now env) type_ data (hub s))
                 (conversation s) (system s) (step s) (parse_err_streak s)
                 (trace s ++ [EPublish type_ data])).
Proof.
  unfold publish, bind, get, emit, Hub.publish. simpl.
  rewrite deliver_returns. reflexivity.
Qed.

Lemma hub_set_status_eval env extra s :
  Hub.has_keyword "status" extra = false →
  hub_set_status env extra s
  = Val tt
      (mkSt (control s)
         (published (now env) "status"
            (("status"%string, VStatus (status (control s))) :: extra)
            (mkHub (_subs (hub s))
               (("status"%string, VStatus (status (control s))) :: extra)
               (next_qid (hub s))))
         (conversation s) (system s) (step s) (parse_err_streak s)
         (trace s
          ++ [EPublish "status"
                (("status"%string, VStatus (status (control s))) :: extra)])).
Proof.
  intros Hkw.
  unfold hub_set_status, bind, get, emit, Hub.set_status, Hub.publish.
  rewrite Hkw. simpl. rewrite deliver_returns. reflexivity.
Qed.

(** With a keyword argument named [status] the call raises. *)
Lemma hub_set_status_raises env extra s :
  Hub.has_keyword "status" extra = true →
  hub_set_status env extra s
  = Exn "TypeError"
      (mkSt (control s) (hub s) (conversation s) (system s) (step s)
         (parse_err_streak s)
         (trace s
          ++ [EPublish "status"
                (("status"%string, VStatus (status (control s))) :: extra)])).
Proof.
  intros Hkw. unfold hub_set_status, bind, get, emit, Hub.set_status.
  rewrite Hkw. reflexivity.
Qed.

Hypothesis P_publish : ∀ t d, P (EPublish t d).
Hypothesis P_recorder : ∀ c, P (ERecorder c).
Hypothesis P_monitor_stop : P EMonitorStop.
Hypothesis P_sleep : ∀ ms, P (ESleep ms).

Lemma keeps_publish env type_ data : keeps P (publish env type_ data).
Proof.
  intros s. rewrite publish_eval. split; [reflexivity|]. simpl.
  eexists. split; [reflexivity|]. now repeat constructor.
Qed.

Lemma keeps_hub_set_status env extra : keeps P (hub_set_status env extra).
Proof.
  intros s. destruct (Hub.has_keyword "status" extra) eqn:Hkw;
    [rewrite hub_set_status_raises by exact Hkw
    |rewrite hub_set_status_eval by exact Hkw];
    (split; [reflexivity|]; simpl;
     eexists; split; [reflexivity|]; now repeat constructor).
Qed.

Lemma keeps_conversation_add env r t m : keeps P (conversation_add env r t m).
Proof.
  unfold conversation_add. apply keeps_bind; [apply keeps_get|].
  intros s. apply keeps_set_conversation.
Qed.

Lemma keeps_monitor_stop cfg : keeps P (monitor_stop cfg).
Proof.
  unfold monitor_stop. destruct (auto_pause_on_user_input cfg);
    [now apply keeps_emit|apply keeps_ret].
Qed.

Lemma keeps_rec env c : keeps P (rec env c).
Proof. unfold rec. now apply keeps_call. Qed.

Lemma keeps__publish_conv env r t : keeps P (_publish_conv env r t).
Proof. unfold _publish_conv. apply keeps_publish. Qed.

Lemma keeps_on_stopped {A} cfg env : keeps P (@on_stopped A cfg env).
Proof.
  unfold on_stopped.
  apply keeps_bind; [apply keeps_ctl|]. intros _.
  apply keeps_bind; [apply keeps_hub_set_status|]. intros _.
  apply keeps_bind; [apply keeps_monitor_stop|]. intros _.
  apply keeps_exit.
Qed.

Lemma keeps_pause_gate cfg env wakeups : keeps P (pause_gate cfg env wakeups).
Proof.
  induction wakeups as [|ops rest IH]; cbn [pause_gate].
  - apply keeps_bind; [apply keeps_get|]. intros s.
    destruct (paused (control s)); [apply keeps_exit|apply keeps_ret].
  - apply keeps_bind; [apply keeps_get|]. intros s.
    destruct (paused (control s)); [|apply keeps_ret].
    apply keeps_bind; [now apply keeps_emit|]. intros _.
    apply keeps_bind; [apply keeps_ctl|]. intros _.
    apply keeps_bind; [apply keeps_get|]. intros s'.
    destruct (stopped (control s')); [apply keeps_on_stopped|exact IH].
Qed.

End LoopFacts.

#[local] Hint Resolve keeps_ret keeps_get keeps_raise keeps_exit
  keeps_ctl keeps_set_hub keeps_set_conversation keeps_set_step keeps_outcome
  keeps_publish keeps_hub_set_status keeps_conversation_add
  keeps_monitor_stop keeps_rec keeps__publish_conv keeps_on_stopped
  keeps_pause_gate : keeps.

(** Takes a statement of the loop apart along its binds and branches. *)
Ltac keeps_steps :=
  repeat first
    [ apply keeps_bind; [|intros ?]
    | match goal with
      | |- keeps _ (if ?b then _ else _) => destruct b
      | |- keeps _ (match ?x with _ => _ end) => destruct x
      end
    | solve [auto with keeps]
    | solve [apply keeps_emit; simpl; auto]
    | solve [apply keeps_call; simpl; auto] ].

Section LoopPhases.
Import Loop.
Local Open Scope loop_scope.

Lemma allowed_publish o t d : allowed o (EPublish t d).
Proof. exact I. Qed.
Lemma allowed_recorder o c : allowed o (ERecorder c).
Proof. exact I. Qed.
Lemma allowed_monitor_stop o : allowed o EMonitorStop.
Proof. exact I. Qed.
Lemma allowed_sleep o ms : allowed o (ESleep ms).
Proof. exact I. Qed.

Lemma allowed_None_Some p e : allowed None e → allowed (Some p) e.
Proof. destruct e; simpl; auto. discriminate. Qed.

Lemma grows_weaken (P Q : Effect → Prop) s s' :
  (∀ e, P e → Q e) → grows P s s' → grows Q s s'.
Proof.
  intros HPQ [H1 (t & Ht & Hp)]. split; [exact H1|]. exists t.
  split; [exact Ht|]. eapply Forall_impl; eauto.
Qed.

Lemma keeps_take_screenshot o env : keeps (allowed o) (take_screenshot env).
Proof.
  unfold take_screenshot.
  pose proof (allowed_publish o). pose proof (allowed_recorder o).
  pose proof (allowed_monitor_stop o). pose proof (allowed_sleep o).
  keeps_steps.
Qed.

Lemma keeps_read_reply o env n : keeps (allowed o) (read_reply env n).
Proof.
  unfold read_reply.
  pose proof (allowed_publish o). pose proof (allowed_recorder o).
  pose proof (allowed_monitor_stop o). pose proof (allowed_sleep o).
  keeps_steps.
Qed.

Lemma keeps_ask_model o env : keeps (allowed o) (ask_model env).
Proof.
  unfold ask_model. pose proof (keeps_read_reply o env).
  keeps_steps.
Qed.

Lemma adds_weaken (P Q : Effect → Prop) s s' :
  (∀ e, P e → Q e) → adds P s s' → adds Q s s'.
Proof.
  intros HPQ (t & Ht & Hp). exists t.
  split; [exact Ht|]. eapply Forall_impl; eauto.
Qed.

Lemma keeps_approach o cfg env : keeps (allowed o) (approach cfg env).
Proof.
  unfold approach.
  pose proof (allowed_publish o). pose proof (allowed_recorder o).
  pose proof (allowed_monitor_stop o). pose proof (allowed_sleep o).
  keeps_steps.
Qed.



Lemma keeps_consult_model o env : keeps (allowed o) (consult_model env).
Proof.
  unfold consult_model. apply keeps_bind; [apply keeps_take_screenshot|].
  intros _. apply keeps_ask_model.
Qed.

Lemma keeps_act cfg env pred : keeps (allowed (Some pred)) (act cfg env pred).
Proof.
  unfold act.
  pose proof (allowed_publish (Some pred)).
  pose proof (allowed_recorder (Some pred)).
  pose proof (allowed_monitor_stop (Some pred)).
  pose proof (allowed_sleep (Some pred)).
  keeps_steps.
Qed.

Lemma keeps_on_exception o cfg env e : keeps (allowed o) (on_exception cfg env e).
Proof.
  unfold on_exception.
  pose proof (allowed_publish o). pose proof (allowed_recorder o).
  pose proof (allowed_monitor_stop o). pose proof (allowed_sleep o).
  keeps_steps.
Qed.

(** The [except] clause only adds to what the body did. *)
Lemma grows_handled o cfg env (r : Res unit) :
  grows (allowed o) (state_of r) (state_of (handled cfg env r)).
Proof.
  destruct r as [a s'|e s'|k s']; simpl;
    [apply grows_refl|apply keeps_on_exception|apply grows_refl].
Qed.

End LoopPhases.

Section ParseErrors.
Import Loop.
Local Open Scope loop_scope.

Lemma keeps_observe o cfg env : keeps (allowed o) (observe cfg env).
Proof.
  unfold observe. apply keeps_bind; [apply keeps_approach|].
  intros _. apply keeps_consult_model.
Qed.

(** A third consecutive parse error parks the run. *)
Lemma count_parse_error_hang env pred s :
  action_type pred = "error_env"%string → 3 ≤ parse_err_streak s + 1 →
  ∃ s',
    count_parse_error env pred s = Exit Continue s'
    ∧ parse_err_streak s' = parse_err_streak s + 1
    ∧ control s' = State.pause (State.set_status HANG (control s))
    ∧ trace s'
      = trace s
        ++ [parse_error_event (parse_err_streak s + 1) pred;
            EPublish "status"
              [("status", VStatus (status (control s')));
               ("reason", VStr "parse_error_streak")]%string;
            EPublish "hang" [("reason", VStr "parse_error_streak")]%string].
Proof.
  intros Hty Hge. unfold count_parse_error. rewrite Hty.
  unfold bind, get, set_streak, ctl, exit_. cbn [String.eqb Ascii.eqb Bool.eqb].
  rewrite publish_eval. cbv beta iota.
  replace (parse_err_streak s + 1 >=? 3) with true
    by (symmetry; apply Z.geb_le; lia).
  cbv beta iota. rewrite hub_set_status_eval by reflexivity. cbv beta iota.
  rewrite publish_eval.
  eexists. split; [reflexivity|]. cbn [parse_err_streak control trace].
  split; [reflexivity|]. split; [reflexivity|].
  rewrite <- !app_assoc. reflexivity.
Qed.

(** An earlier parse error is counted and published, and the pass goes on. *)
Lemma count_parse_error_below env pred s :
  action_type pred = "error_env"%string → parse_err_streak s + 1 < 3 →
  ∃ s',
    count_parse_error env pred s = Val tt s'
    ∧ parse_err_streak s' = parse_err_streak s + 1
    ∧ trace s' = trace s ++ [parse_error_event (parse_err_streak s + 1) pred].
Proof.
  intros Hty Hlt. unfold count_parse_error. rewrite Hty.
  unfold bind, get, set_streak, ret. cbn [String.eqb Ascii.eqb Bool.eqb].
  rewrite publish_eval. cbv beta iota.
  replace (parse_err_streak s + 1 >=? 3) with false
    by (symmetry; rewrite Z.geb_leb; apply Z.leb_gt; lia).
  eexists. split; [reflexivity|]. split; reflexivity.
Qed.

(** Any other first action sets the streak back to 0. *)
Lemma count_parse_error_other env pred s :
  action_type pred ≠ "error_env"%string →
  ∃ s', count_parse_error env pred s = Val tt s'
        ∧ parse_err_streak s' = 0 ∧ trace s' = trace s.
Proof.
  intros Hty. unfold count_parse_error.
  destruct (String.eqb_spec (action_type pred) "error_env"); [contradiction|].
  eexists. split; [reflexivity|]. split; reflexivity.
Qed.

(** Once the streak is counted, the rest of the pass leaves it alone and
    does not take back a call. *)
Lemma grows_after_count cfg env pred s2 :
  grows (allowed (Some pred)) s2
    (state_of (handled cfg env (act cfg env pred s2))).
Proof.
  eapply grows_trans; [apply keeps_act|apply grows_handled].
Qed.

End ParseErrors.

(** C7.  In a pass whose model reply has [pred] as its first parsed action
    (the state is [s1] at that point): if [pred] is the parse-error action,
    the pass ends with the streak one higher than it began and has published
    an [error] event with that streak; if this makes the streak 3 or more,
    the pass ends in [continue] (the run goes on) after [set_status(HANG)]
    and [pause()] on the control object, so that [paused] is set and the
    status is [HANG] (or stays [USER_STOPPED] when the run was stopped
    meanwhile), and after that error event it makes just two more calls,
    the [status] and [hang] events.  If [pred] is any other action the pass
    ends with the streak at 0. *)
Theorem parse_error_streak_parks (cfg : Loop.Config) (env : Loop.Env)
    (s s1 : Loop.St) (pred : PredictionParsed) :
  Loop.observe cfg env (Loop.clear_trace s) = Loop.Val pred s1 →
  let r := Loop.run_cycle cfg env s in
  let streak := Loop.parse_err_streak s + 1 in
  (action_type pred = "error_env"%string →
     Loop.parse_err_streak (Loop.state_of r) = streak
     ∧ parse_error_event streak pred ∈ Loop.trace (Loop.state_of r)
     ∧ (3 ≤ streak →
        ∃ s',
          r = Loop.Exit Loop.Continue s'
          ∧ Loop.control s'
            = State.pause (State.set_status HANG (Loop.control s1))
          ∧ paused (Loop.control s') = true
          ∧ status (Loop.control s')
            = (if stopped (Loop.control s1) then USER_STOPPED else HANG)
          ∧ Loop.trace s'
            = Loop.trace s1
              ++ [parse_error_event streak pred;
                  Loop.EPublish "status"
                    [("status", VStatus (status (Loop.control s')));
                     ("reason", VStr "parse_error_streak")]%string;
                  Loop.EPublish "hang"
                    [("reason", VStr "parse_error_streak")]%string]))
  ∧ (action_type pred ≠ "error_env"%string →
     Loop.parse_err_streak (Loop.state_of r) = 0).
Proof.
  intros Hobs r streak.
  assert (Hs1 : Loop.parse_err_streak s1 = Loop.parse_err_streak s).
  { pose proof (keeps_observe None cfg env (Loop.clear_trace s)) as [H _].
    rewrite Hobs in H. exact H. }
  assert (Hr : r = Loop.handled cfg env
                     (Loop.bind (Loop.count_parse_error env pred)
                        (fun _ => Loop.act cfg env pred) s1)).
  { unfold r, Loop.run_cycle, Loop.bind at 1. rewrite Hobs. reflexivity. }
  unfold streak. rewrite <- Hs1. split.
  - intros Hty.
    destruct (Z.le_gt_cases 3 (Loop.parse_err_streak s1 + 1)) as [Hge|Hlt].
    + destruct (count_parse_error_hang env pred s1 Hty Hge)
        as (s' & Hc & Hst & Hctl & Htr).
      unfold Loop.bind in Hr. rewrite Hc in Hr. rewrite Hr. simpl.
      split; [exact Hst|]. split.
      { rewrite Htr. apply elem_of_app. right. left. }
      intros _. exists s'. split; [reflexivity|]. split; [exact Hctl|].
      split; [now rewrite Hctl|]. split; [|exact Htr].
      rewrite Hctl. unfold State.set_status.
      destruct (stopped (Loop.control s1)); [reflexivity|].
      destruct (paused (Loop.control s1)); reflexivity.
    + destruct (count_parse_error_below env pred s1 Hty)
        as (s2 & Hc & Hst & Htr); [lia|].
      unfold Loop.bind in Hr. rewrite Hc in Hr.
      destruct (grows_after_count cfg env pred s2) as [Hk (t & Ht & _)].
      rewrite <- Hr in Hk, Ht.
      split; [congruence|]. split; [|lia].
      rewrite Ht, Htr. apply elem_of_app. left. apply elem_of_app. right. left.
  - intros Hty.
    destruct (count_parse_error_other env pred s1 Hty) as (s2 & Hc & Hst & _).
    unfold Loop.bind in Hr. rewrite Hc in Hr.
    destruct (grows_after_count cfg env pred s2) as [Hk _].
    rewrite <- Hr in Hk. congruence.
Qed.

(** The third garbled reply in a row: the pass ends in [continue] with the
    run parked. *)
Lemma parse_error_streak_parks_witness :
  ∃ s',
    Loop.run_cycle sample_cfg (sample_env garbled) (sample_state 2)
      = Loop.Exit Loop.Continue s'
    ∧ Loop.parse_err_streak s' = 3
    ∧ paused (Loop.control s') = true
    ∧ status (Loop.control s') = HANG.
Proof.
  edestruct (parse_error_streak_parks sample_cfg (sample_env garbled)
               (sample_state 2)) as [Herr _]; [vm_compute; reflexivity|].
  destruct (Herr eq_refl) as (Hstreak & _ & Hpark).
  destruct Hpark as (s' & Hr & _ & Hp & Hst & _); [simpl; lia|].
  exists s'. rewrite Hr in Hstreak. simpl in Hstreak.
  split; [exact Hr|]. split; [exact Hstreak|]. split; [exact Hp|exact Hst].
Defined.

(** ** The loop and the memoization cache *)

Section LoopAndCache.
Import Loop.
Local Open Scope loop_scope.

Lemma bind_Val {A B} (m : M A) (k : A → M B) s b s2 :
  bind m k s = Val b s2 → ∃ a s1, m s = Val a s1 ∧ k a s1 = Val b s2.
Proof.
  unfold bind. destruct (m s) as [a s1|e s1|c s1]; [eauto|discriminate..].
Qed.

(** The first parsed action is the head of what the model call returned. *)
Lemma ask_model_Val env s pred s1 :
  ask_model env s = Val pred s1 →
  ∃ inv ps, invoke env = Returns inv ∧ parsed_predictions inv = pred :: ps.
Proof.
  unfold ask_model, read_reply. intros H.
  apply bind_Val in H as (s0 & sa & _ & H).
  apply bind_Val in H as (? & sb & _ & H).
  apply bind_Val in H as (? & sc & _ & H).
  apply bind_Val in H as (inv & sd & Hinv & H).
  exists inv.
  destruct (invoke env) as [inv'|err]; [|discriminate Hinv].
  injection Hinv as -> _.
  do 5 (apply bind_Val in H as (? & ? & _ & H)).
  apply bind_Val in H as (p & se & Hp & H).
  apply bind_Val in H as (? & sf & _ & H).
  injection H as -> _.
  destruct (parsed_predictions inv) as [|p' ps]; [discriminate Hp|].
  injection Hp as -> _. eauto.
Qed.

Lemma observe_Val cfg env s pred s1 :
  observe cfg env s = Val pred s1 →
  ∃ inv ps, invoke env = Returns inv ∧ parsed_predictions inv = pred :: ps.
Proof.
  unfold observe, consult_model. intros H.
  apply bind_Val in H as (? & sa & _ & H).
  apply bind_Val in H as (? & sb & _ & H).
  eapply ask_model_Val, H.
Qed.

(** The streak bookkeeping only publishes. *)
Lemma adds_count_parse_error o env pred s :
  adds (allowed o) s (state_of (count_parse_error env pred s)).
Proof.
  destruct (String.eqb_spec (action_type pred) "error_env") as [Hty|Hty].
  - destruct (Z.le_gt_cases 3 (parse_err_streak s + 1)) as [Hge|Hlt].
    + destruct (count_parse_error_hang env pred s Hty Hge)
        as (s' & -> & _ & _ & Htr).
      eexists. split; [exact Htr|]. repeat constructor.
    + destruct (count_parse_error_below env pred s Hty Hlt)
        as (s' & -> & _ & Htr).
      eexists. split; [exact Htr|]. repeat constructor.
  - destruct (count_parse_error_other env pred s Hty) as (s' & -> & _ & Htr).
    exists []. split; [rewrite app_nil_r; exact Htr|constructor].
Qed.

Lemma adds_dispatch cfg env pred s :
  adds (allowed (Some pred)) s (state_of (dispatch cfg env pred s)).
Proof.
  unfold dispatch. eapply adds_trans; [apply adds_count_parse_error|].
  apply adds_bind_tail. intros _ s'. apply keeps_act.
Qed.

(** Every call of a pass is allowed for the first parsed action of the
    pass, if it has one. *)
Lemma cycle_trace_allowed cfg env s :
  Forall (allowed match observe cfg env (clear_trace s) with
                  | Val pred _ => Some pred
                  | _ => None
                  end)
         (trace (state_of (run_cycle cfg env s))).
Proof.
  unfold run_cycle.
  set (o := match observe cfg env (clear_trace s) with
            | Val pred _ => Some pred
            | _ => None
            end).
  assert (Ho : adds (allowed o) (clear_trace s)
                 (state_of (observe cfg env (clear_trace s)))).
  { apply keeps_observe. }
  assert (Hb : adds (allowed o) (clear_trace s)
                 (state_of (bind (observe cfg env)
                              (fun pred => dispatch cfg env pred)
                              (clear_trace s)))).
  { eapply adds_trans; [exact Ho|]. unfold bind. subst o.
    destruct (observe cfg env (clear_trace s)) as [pred s1|e s1|c s1]; simpl;
      [apply adds_dispatch|apply adds_refl..]. }
  destruct (adds_trans _ _ _ _ Hb (proj2 (grows_handled o cfg env _)))
    as (t & Ht & Hall).
  rewrite Ht. exact Hall.
Qed.

End LoopAndCache.

(** A pass of the loop that gets as far as the capture, and whose capture
    and screenshot record succeed, goes straight on to the model: after
    these two calls it invokes the model with the system prompt, the tail
    of the conversation and the current screen.  No pass executes an action
    other than the first parsed action of the reply that the model gave in
    that pass. *)
Theorem cycle_invokes_model (cfg : Loop.Config) (env : Loop.Env)
    (s s0 : Loop.St) (shot : Loop.ScreenshotOutput) :
  Loop.approach cfg env (Loop.clear_trace s) = Loop.Val tt s0 →
  Loop.capture env = Returns shot →
  Loop.recorder env (Loop.WriteStep (Loop.step s0) "screenshot") = Returns tt →
  let r := Loop.run_cycle cfg env s in
  (∃ t, Loop.trace (Loop.state_of r)
        = Loop.trace s0
          ++ [Loop.ECapture;
              Loop.ERecorder (Loop.WriteStep (Loop.step s0) "screenshot");
              Loop.EInvokeModel (Loop.build_messages env s0)]
          ++ t)
  ∧ (∀ p, Loop.EExecute p ∈ Loop.trace (Loop.state_of r) →
          ∃ inv ps, Loop.invoke env = Returns inv
                    ∧ Loop.parsed_predictions inv = p :: ps).
Proof.
  intros Happ Hcap Hrec r. split.
  - set (s2 := Loop.mkSt (Loop.control s0) (Loop.hub s0) (Loop.conversation s0)
                 (Loop.system s0) (Loop.step s0) (Loop.parse_err_streak s0)
                 (Loop.trace s0
                  ++ [Loop.ECapture;
                      Loop.ERecorder (Loop.WriteStep (Loop.step s0) "screenshot")])).
    assert (Hshot : Loop.take_screenshot env s0 = Loop.Val tt s2).
    { unfold Loop.take_screenshot, Loop.rec, Loop.call, Loop.bind,
        Loop.emit, Loop.get, Loop.ret. rewrite Hcap. simpl. rewrite Hrec.
      unfold s2. rewrite <- app_assoc. reflexivity. }
    set (s3 := Loop.mkSt (Loop.control s0) (Loop.hub s0) (Loop.conversation s0)
                 (Loop.system s0) (Loop.step s0) (Loop.parse_err_streak s0)
                 (Loop.trace s2 ++ [Loop.EInvokeModel (Loop.build_messages env s0)])).
    assert (Hobs : Loop.observe cfg env (Loop.clear_trace s)
                   = Loop.read_reply env (Loop.step s0) s3).
    { unfold Loop.observe, Loop.consult_model. unfold Loop.bind at 1.
      rewrite Happ. unfold Loop.bind at 1. rewrite Hshot. reflexivity. }
    pose (any := fun _ : Loop.Effect => True).
    assert (H1 : adds any s3 (Loop.state_of (Loop.observe cfg env (Loop.clear_trace s)))).
    { rewrite Hobs. eapply adds_weaken; [|apply (keeps_read_reply None)].
      intros; exact I. }
    assert (H2 : adds any (Loop.state_of (Loop.observe cfg env (Loop.clear_trace s)))
                   (Loop.state_of
                      (Loop.bind (Loop.observe cfg env)
                         (fun pred => Loop.dispatch cfg env pred)
                         (Loop.clear_trace s)))).
    { apply adds_bind_tail. intros pred s'.
      eapply adds_weaken; [|apply adds_dispatch]. intros; exact I. }
    assert (H3 : adds any
                   (Loop.state_of
                      (Loop.bind (Loop.observe cfg env)
                         (fun pred => Loop.dispatch cfg env pred)
                         (Loop.clear_trace s)))
                   (Loop.state_of r)).
    { eapply adds_weaken; [|apply (grows_handled None)]. intros; exact I. }
    destruct (adds_trans _ _ _ _ H1 (adds_trans _ _ _ _ H2 H3)) as (t & Ht & _).
    exists t. rewrite Ht. unfold s3, s2. simpl.
    rewrite <- !app_assoc. reflexivity.
  - intros p Hin.
    pose proof (cycle_trace_allowed cfg env s) as Hall.
    rewrite Forall_forall in Hall. specialize (Hall _ Hin).
    destruct (Loop.observe cfg env (Loop.clear_trace s)) as [pred s1|e s1|c s1] eqn:Hobs;
      simpl in Hall; try discriminate Hall.
    injection Hall as ->. eapply observe_Val, Hobs.
Qed.

(** C1, at an input where the code departs from it.  [run("open
    settings")] on a new worker; every capture shows the same screen; the
    model answers the first pass with a click, which is executed, and the
    second with a scroll.  Used as the docstring of [L0Router] says, the
    router has recorded the click of the first pass under the fingerprint
    of that screen, and [try_cache] for the screen of the second pass is a
    hit with the click as its cached actions.  The second pass of the loop
    calls the model all the same and executes the model's scroll; the
    cached click is not replayed. *)
Theorem cached_screen_still_goes_to_model :
  let first := sample_env click in
  let second := sample_env scroll in
  let fp := fingerprint_of hit_dhash "img" in
  let s1 :=
    Loop.state_of
      (Loop.run sample_cfg first (Returns tt) "open settings" [first]
         new_worker) in
  Loop.run sample_cfg first (Returns tt) "open settings" [first] new_worker
  = Loop.Val tt s1
  ∧ Loop.step s1 = 1
  ∧ Loop.capture second = Returns (Loop.mkShot "img" 1170 2532)
  ∧ (∃ h r entry,
       record [] (new_router 5 3) fp [click] fp 1 = Some (h, r)
       ∧ try_cache h r fp 2 = Some entry
       ∧ actions (deref h entry) = [click])
  ∧ Loop.trace (Loop.state_of (Loop.run_cycle sample_cfg second s1))
    = [Loop.ECapture; Loop.ERecorder (Loop.WriteStep 2 "screenshot");
       Loop.EInvokeModel
         [mkMessage "system" "sys" None;
          mkMessage "user" "open settings" None;
          mkMessage "assistant" "reply" None;
          Loop._vision_msg "Current screen. Decide next action." "img"];
       Loop.ERecorder (Loop.WriteStep 2 "raw_model_text");
       Loop.ERecorder (Loop.LogEvent "model");
       Loop.ERecorder (Loop.LogConversation "assistant" "reply" false);
       Loop.EPublish "conversation"
         [("role", VStr "assistant"); ("text", VStr "reply")]%string;
       Loop.ERecorder (Loop.WriteStep 2 "action");
       Loop.EActivateApp; Loop.EExecute scroll;
       Loop.ERecorder (Loop.WriteStep 2 "exec_result");
       Loop.ERecorder (Loop.LogEvent "exec");
       Loop.EPublish "status"
         [("status", VStatus RUNNING); ("step", VInt 2)]%string;
       Loop.ESleep 500].
Proof.
  intros first second fp s1.
  split; [vm_compute; reflexivity|]. split; [vm_compute; reflexivity|].
  split; [reflexivity|]. split.
  - exists [mkEntry 1000 [click] (Some 1000) 0 1 true],
           (mkRouter (mkCache 5 3 256 [(1000, 0%nat)])), 0%nat.
    repeat split; vm_compute; reflexivity.
  - vm_compute. reflexivity.
Qed.

(** ** The difference hash *)

Section FoldFacts.
Context {A B C : Type}.

Lemma fold_left_flat_map (f : A → C → A) (g : B → list C) (l : list B) :
  ∀ a, fold_left (fun st b => fold_left f (g b) st) l a
       = fold_left f (flat_map g l) a.
Proof.
  induction l as [|b l IH]; intros a; simpl; [reflexivity|].
  rewrite fold_left_app. apply IH.
Qed.

Lemma fold_left_map (f : A → C → A) (g : B → C) (l : list B) :
  ∀ a, fold_left (fun st b => f st (g b)) l a = fold_left f (map g l) a.
Proof.
  induction l as [|b l IH]; intros a; simpl; [reflexivity|]. apply IH.
Qed.

Lemma fold_left_pointwise (f g : A → B → A) (l : list B) :
  (∀ a b, f a b = g a b) → ∀ a, fold_left f l a = fold_left g l a.
Proof.
  intros H. induction l as [|b l IH]; intros a; simpl; [reflexivity|].
  rewrite H. apply IH.
Qed.

End FoldFacts.

Section DhashFacts.
Variable pixels : list Z.

Let darker (idx : nat) : bool := nth idx pixels 0 <? nth (idx + 1) pixels 0.

Lemma dhash_loop_cells :
  dhash_loop pixels = fst (fold_left (dhash_cell pixels) dhash_cells (0, 0)).
Proof.
  unfold dhash_loop, dhash_cells. apply (f_equal fst).
  rewrite <- (fold_left_flat_map (dhash_cell pixels)
                (fun row => map (fun col => row * 9 + col)%nat (seq 0 8))
                (seq 0 8)).
  apply fold_left_pointwise. intros st row.
  apply (fold_left_map (dhash_cell pixels) (fun col => row * 9 + col)%nat).
Qed.

Lemma bit_below_pow2 x b : 0 ≤ b → 0 ≤ x < 2 ^ b → Z.testbit x b = false.
Proof.
  intros Hb [Hx Hlt]. destruct (Z.eq_dec x 0) as [->|Hne].
  - apply Z.bits_0.
  - apply Z.bits_above_log2; [exact Hx|]. apply Z.log2_lt_pow2; lia.
Qed.

Lemma lor_bit_bound x b : 0 ≤ b → 0 ≤ x < 2 ^ b →
  0 ≤ Z.lor x (Z.shiftl 1 b) < 2 ^ (b + 1).
Proof.
  intros Hb [Hx Hlt]. rewrite Z.shiftl_1_l.
  assert (Hp : 0 < 2 ^ b) by (apply Z.pow_pos_nonneg; lia).
  assert (Hl : 0 ≤ Z.lor x (2 ^ b)) by (apply Z.lor_nonneg; lia).
  split; [exact Hl|].
  assert (Hpos : 0 < Z.lor x (2 ^ b)).
  { destruct (Z.eq_dec (Z.lor x (2 ^ b)) 0) as [H0|]; [|lia].
    apply Z.lor_eq_0_iff in H0. lia. }
  apply Z.log2_lt_pow2; [exact Hpos|].
  rewrite Z.log2_lor by lia. rewrite Z.log2_pow2 by lia.
  destruct (Z.eq_dec x 0) as [->|Hne]; [simpl; lia|].
  assert (Z.log2 x < b) by (apply Z.log2_lt_pow2; lia). lia.
Qed.

(** Running the loop over [idxs] from [(hash_val, bit)] with [hash_val]
    below [2^bit]: the bits below [bit] stay, each cell sets the next bit
    when it is darker than its right neighbour, and nothing is set above. *)
Lemma dhash_cells_spec idxs :
  ∀ hv b, 0 ≤ b → 0 ≤ hv < 2 ^ b →
    let st := fold_left (dhash_cell pixels) idxs (hv, b) in
    snd st = b + Z.of_nat (length idxs)
    ∧ 0 ≤ fst st < 2 ^ snd st
    ∧ (∀ j, 0 ≤ j < b → Z.testbit (fst st) j = Z.testbit hv j)
    ∧ (∀ k idx, idxs !! k = Some idx →
         Z.testbit (fst st) (b + Z.of_nat k) = darker idx).
Proof.
  induction idxs as [|i idxs IH]; intros hv b Hb Hhv; cbn [fold_left].
  - cbn [fst snd length]. split; [simpl; lia|]. split; [exact Hhv|].
    split; [reflexivity|]. intros k idx Hk. discriminate Hk.
  - set (hv1 := fst (dhash_cell pixels (hv, b) i)).
    assert (Hstep : dhash_cell pixels (hv, b) i = (hv1, b + 1)) by reflexivity.
    assert (Hb1 : 0 ≤ hv1 < 2 ^ (b + 1)).
    { unfold hv1, dhash_cell. cbn [fst snd].
      destruct (nth i pixels 0 <? nth (i + 1) pixels 0).
      - now apply lor_bit_bound.
      - rewrite Z.pow_add_r by lia. lia. }
    assert (Hlow : ∀ j, 0 ≤ j < b → Z.testbit hv1 j = Z.testbit hv j).
    { intros j Hj. unfold hv1, dhash_cell. cbn [fst snd].
      destruct (nth i pixels 0 <? nth (i + 1) pixels 0); [|reflexivity].
      rewrite Z.lor_spec, Z.shiftl_1_l, Z.pow2_bits_false by lia.
      apply orb_false_r. }
    assert (Hnew : Z.testbit hv1 b = darker i).
    { unfold hv1, dhash_cell, darker. cbn [fst snd].
      destruct (nth i pixels 0 <? nth (i + 1) pixels 0).
      - rewrite Z.lor_spec, Z.shiftl_1_l, Z.pow2_bits_true by lia.
        apply orb_true_r.
      - now apply bit_below_pow2. }
    rewrite Hstep.
    destruct (IH hv1 (b + 1) ltac:(lia) Hb1) as (Hbit & Hbound & Hkeep & Hset).
    split; [rewrite Hbit; simpl length; lia|]. split; [exact Hbound|].
    split.
    + intros j Hj. rewrite Hkeep by lia. now apply Hlow.
    + intros k idx Hk. destruct k as [|k].
      * injection Hk as ->. rewrite Z.add_0_r, Hkeep by lia. exact Hnew.
      * replace (b + Z.of_nat (S k)) with (b + 1 + Z.of_nat k) by lia.
        apply Hset. exact Hk.
Qed.

Lemma dhash_cells_lookup row col :
  (row < 8)%nat → (col < 8)%nat →
  dhash_cells !! (8 * row + col)%nat = Some (9 * row + col)%nat.
Proof.
  intros Hr Hc.
  do 8 (destruct row as [|row]; [do 8 (destruct col as [|col]; [reflexivity|]); lia|]).
  lia.
Qed.

End DhashFacts.

Lemma dhash_loop_cells_bound (pixels : list Z) : 0 ≤ dhash_loop pixels < 2 ^ 64.
Proof.
  rewrite dhash_loop_cells.
  destruct (dhash_cells_spec pixels dhash_cells 0 0 ltac:(lia) ltac:(simpl; lia))
    as (Hbit & Hbound & _).
  rewrite Hbit in Hbound. exact Hbound.
Qed.

Lemma dhash_loop_cell_bit (pixels : list Z) row col :
  (row < 8)%nat → (col < 8)%nat →
  Z.testbit (dhash_loop pixels) (Z.of_nat (8 * row + col))
  = (nth (9 * row + col) pixels 0 <? nth (9 * row + col + 1) pixels 0).
Proof.
  intros Hr Hc. rewrite dhash_loop_cells.
  destruct (dhash_cells_spec pixels dhash_cells 0 0 ltac:(lia) ltac:(simpl; lia))
    as (_ & _ & _ & Hset).
  apply (Hset _ _ (dhash_cells_lookup row col Hr Hc)).
Qed.

Lemma dhash_loop_bit_above (pixels : list Z) n :
  64 ≤ n → Z.testbit (dhash_loop pixels) n = false.
Proof.
  intros Hn. destruct (dhash_loop_cells_bound pixels) as [H0 Hlt].
  destruct (Z.eq_dec (dhash_loop pixels) 0) as [->|Hne]; [apply Z.bits_0|].
  apply Z.bits_above_log2; [exact H0|].
  assert (Z.log2 (dhash_loop pixels) < 64) by (apply Z.log2_lt_pow2; lia). lia.
Qed.

(** X1.  The hash that [dhash] builds from the bitmap is a 64-bit number,
    and its bit [8 * row + col] is set exactly when the cell at
    [(row, col)] of the 9x8 bitmap is less than its right neighbour. *)
Theorem dhash_loop_bits (pixels : list Z) :
  0 ≤ dhash_loop pixels < 2 ^ 64
  ∧ ∀ row col, (row < 8)%nat → (col < 8)%nat →
      Z.testbit (dhash_loop pixels) (Z.of_nat (8 * row + col))
      = (nth (9 * row + col) pixels 0 <? nth (9 * row + col + 1) pixels 0).
Proof.
  split; [apply dhash_loop_cells_bound|]. intros row col.
  apply dhash_loop_cell_bit.
Qed.


(** X2.  Two bitmaps in which the same cells are less than their right
    neighbour have the same hash: the fingerprint does not see a change of
    brightness that keeps the order of neighbouring cells. *)
Theorem dhash_loop_order_only (p1 p2 : list Z) :
  (∀ row col, (row < 8)%nat → (col < 8)%nat →
     (nth (9 * row + col) p1 0 <? nth (9 * row + col + 1) p1 0)
     = (nth (9 * row + col) p2 0 <? nth (9 * row + col + 1) p2 0)) →
  dhash_loop p1 = dhash_loop p2.
Proof.
  intros Hsame. apply Z.bits_inj'. intros n Hn.
  destruct (Z.lt_ge_cases n 64) as [Hlt|Hge].
  - set (k := Z.to_nat n).
    assert (Hk : n = Z.of_nat (8 * (k / 8) + k mod 8)).
    { rewrite <- Nat.div_mod_eq. unfold k. lia. }
    assert (Hrow : (k / 8 < 8)%nat).
    { apply Nat.Div0.div_lt_upper_bound. unfold k. lia. }
    assert (Hcol : (k mod 8 < 8)%nat) by (apply Nat.mod_upper_bound; lia).
    rewrite Hk, !dhash_loop_cell_bit by assumption. now apply Hsame.
  - now rewrite !dhash_loop_bit_above.
Qed.

(** A gradient, and the same gradient ten levels brighter. *)
Lemma dhash_loop_order_only_witness :
  let p1 := map Z.of_nat (seq 0 72) in
  let p2 := map (fun n => Z.of_nat n + 10) (seq 0 72) in
  dhash_loop p1 = dhash_loop p2.
Proof.
  intros p1 p2. apply (dhash_loop_order_only p1 p2).
  intros row col Hr Hc.
  do 8 (destruct row as [|row]; [do 8 (destruct col as [|col]; [reflexivity|]); lia|]).
  lia.
Defined.

(** X3.  [dhash] gives [None] when the bitmap cannot be had or has fewer
    than 72 bytes; any fingerprint it gives is a 64-bit number, and two of
    them are at a Hamming distance of at most 64, which is 0 only when they
    are equal. *)
Theorem dhash_fingerprints (render : string → option (list Z)) (a b : string)
    (x y : Z) :
  dhash render a = Some x → dhash render b = Some y →
  (∃ pixels, render a = Some pixels ∧ (72 ≤ length pixels)%nat
             ∧ x = dhash_loop pixels)
  ∧ 0 ≤ x < 2 ^ 64
  ∧ 0 ≤ hamming_distance x y ≤ 64
  ∧ (hamming_distance x y = 0 ↔ x = y).
Proof.
  unfold dhash. intros Ha Hb.
  destruct (render a) as [pa|]; [|discriminate].
  destruct (render b) as [pb|]; [|discriminate].
  destruct (Nat.ltb_spec (length pa) 72); [discriminate|].
  destruct (Nat.ltb_spec (length pb) 72); [discriminate|].
  injection Ha as <-. injection Hb as <-.
  split; [eauto|]. split; [apply dhash_loop_cells_bound|].
  split; [|apply hamming_distance_zero_iff].
  split; [apply hamming_distance_nonneg|].
  unfold hamming_distance. apply count_bin_le; [lia|].
  apply lxor_below; [lia|apply dhash_loop_cells_bound..].
Qed.

(** A renderer that knows a flat image and a gradient. *)
Lemma dhash_fingerprints_witness :
  0 ≤ hamming_distance (dhash_loop (repeat 128 72))
        (dhash_loop (map Z.of_nat (seq 0 72))) ≤ 64.
Proof.
  pose (render := fun s : string =>
          if String.eqb s "flat" then Some (repeat 128 72)
          else Some (map Z.of_nat (seq 0 72))).
  destruct (dhash_fingerprints render "flat" "gradient" _ _ eq_refl eq_refl)
    as (_ & _ & H & _).
  exact H.
Defined.

(** ** More on the cache *)

Section CacheMore.

(** [lookup] only reads the objects that the dict holds. *)
Lemma lookup_scan_same_objects h1 h2 mr fp refs :
  (∀ r, r ∈ refs → deref h1 r = deref h2 r) →
  ∀ best bd, lookup_scan h1 mr fp refs best bd = lookup_scan h2 mr fp refs best bd.
Proof.
  induction refs as [|r refs IH]; intros Hsame best bd; [reflexivity|].
  cbn [lookup_scan]. rewrite (Hsame r) by left.
  assert (Hrest : ∀ r', r' ∈ refs → deref h1 r' = deref h2 r')
    by (intros r' Hr'; apply Hsame; now right).
  rewrite !(IH Hrest). reflexivity.
Qed.

Lemma lookup_same_objects h1 h2 c fp :
  (∀ r, r ∈ refs_of c → deref h1 r = deref h2 r) →
  lookup h1 c fp = lookup h2 c fp.
Proof. intros H. unfold lookup. now apply lookup_scan_same_objects. Qed.

Lemma record_hits_length h r steps : length (record_hits h r steps) = length h.
Proof.
  unfold record_hits. revert h.
  induction steps as [|s steps IH]; intros h; simpl; [reflexivity|].
  rewrite IH. apply length_alter.
Qed.

Lemma record_hits_other h r r' steps :
  r ≠ r' → deref (record_hits h r steps) r' = deref h r'.
Proof.
  intros Hne. unfold record_hits. revert h.
  induction steps as [|s steps IH]; intros h; simpl; [reflexivity|].
  rewrite IH. now apply deref_alter_ne.
Qed.

Lemma record_hits_entry h r steps :
  (r < length h)%nat →
  hit_count (deref (record_hits h r steps) r)
  = hit_count (deref h r) + Z.of_nat (length steps)
  ∧ succeeded (deref (record_hits h r steps) r) = succeeded (deref h r)
  ∧ fingerprint (deref (record_hits h r steps) r) = fingerprint (deref h r).
Proof.
  unfold record_hits. revert h.
  induction steps as [|s steps IH]; intros h Hlt; cbn [fold_left].
  - simpl. repeat split. lia.
  - destruct (IH (record_hit h r s)) as (H1 & H2 & H3).
    { unfold record_hit. now rewrite length_alter. }
    assert (Hd : deref (record_hit h r s) r = set_hit s (deref h r))
      by (now apply deref_alter_eq).
    rewrite Hd in H1, H2, H3. simpl in H1, H2, H3.
    rewrite H1, H2, H3. repeat split. simpl length. lia.
Qed.

Lemma well_formed_record_hits h c r steps :
  well_formed h c → well_formed (record_hits h r steps) c.
Proof.
  unfold record_hits. revert h.
  induction steps as [|s steps IH]; intros h Hwf; simpl; [exact Hwf|].
  apply IH. now apply well_formed_record_hit.
Qed.

End CacheMore.

(** X4.  The reuse budget.  After [record_hit] calls that bring an entry's
    hit count to [max_reuse] or more, no [lookup] returns the entry, for
    whatever fingerprint; while the count is still below [max_reuse], an
    entry that has not failed is what [lookup] of its own fingerprint
    returns (in a cache built by the methods, with a non-negative
    threshold). *)
Theorem reuse_budget (h : heap) (c : L0Cache) (r : ref) (e : L0CacheEntry)
    (steps : list Z) :
  h !! r = Some e →
  (max_reuse c ≤ hit_count e + Z.of_nat (length steps) →
   ∀ fp, lookup (record_hits h r steps) c fp ≠ Some r)
  ∧ (hit_count e + Z.of_nat (length steps) < max_reuse c →
     well_formed h c → Py.dict_get (fingerprint e) (_entries c) = Some r →
     succeeded e = true → 0 ≤ hash_threshold c →
     lookup (record_hits h r steps) c (fingerprint e) = Some r).
Proof.
  intros He.
  assert (Hlt : (r < length h)%nat) by (eapply lookup_lt_Some, He).
  destruct (record_hits_entry h r steps Hlt) as (Hhc & Hsu & Hfp).
  rewrite (deref_lookup _ _ _ He) in Hhc, Hsu, Hfp.
  split.
  - intros Hfull fp Hl. apply lookup_hit in Hl as (_ & [Hel _] & _).
    unfold eligible in Hel. apply andb_true_iff in Hel as [_ Hel].
    apply Z.ltb_lt in Hel. lia.
  - intros Hroom Hwf Hget Hs Hth.
    apply lookup_exact; [now apply well_formed_record_hits|exact Hth|exact Hget|].
    unfold eligible. rewrite Hsu, Hs, Hhc. simpl. now apply Z.ltb_lt.
Qed.

(** [max_reuse = 3]: two hits leave the entry on offer, the third takes it
    off. *)
Lemma reuse_budget_witness :
  let h := [mkEntry 1000 [click] (Some 2000) 0 1 true] in
  let c := mkCache 5 3 256 [(1000, 0%nat)] in
  lookup (record_hits h 0 [2; 3]) c 1000 = Some 0%nat
  ∧ ∀ fp, lookup (record_hits h 0 [2; 3; 4]) c fp ≠ Some 0%nat.
Proof.
  intros h c.
  assert (Hwf : well_formed h c).
  { apply (well_formed_store [] (new_cache 5 3 256)
             1000 [click] (Some 2000) 1); [|reflexivity].
    apply well_formed_new. }
  split.
  - apply (proj2 (reuse_budget h c 0 _ [2; 3] eq_refl));
      [simpl; lia|exact Hwf|reflexivity|reflexivity|simpl; lia].
  - apply (proj1 (reuse_budget h c 0 _ [2; 3; 4] eq_refl)). simpl. lia.
Defined.

Section CacheShape.

Lemma dict_del_absent {V} k (d : list (Z * V)) :
  k ∉ Py.dict_keys d → Py.dict_del k d = d.
Proof.
  unfold Py.dict_keys, Py.dict_del.
  induction d as [|[k' v'] d IH]; intros Hk; [reflexivity|].
  cbn [map fst] in Hk. apply not_elem_of_cons in Hk as [Hne Hk].
  rewrite filter_cons_True by (simpl; congruence). now rewrite IH.
Qed.

Lemma dict_del_length_le {V} k (d : list (Z * V)) :
  (length (Py.dict_del k d) ≤ length d)%nat.
Proof. apply length_filter. Qed.

Lemma with_entries_same c : with_entries c (_entries c) = c.
Proof. now destruct c. Qed.

Lemma ref_in_refs_of (c : L0Cache) r :
  r ∈ refs_of c ↔ ∃ k, (k, r) ∈ _entries c.
Proof.
  unfold refs_of. rewrite list_elem_of_In, in_map_iff. split.
  - intros ([k r'] & Hr & Hin). simpl in Hr. subst r'.
    exists k. now apply list_elem_of_In.
  - intros (k & Hin). exists (k, r). split; [reflexivity|].
    now apply list_elem_of_In.
Qed.

(** In a cache built by the methods an entry is found under its own
    fingerprint and nowhere else. *)
Lemma ref_under_own_key h c r :
  well_formed h c → r ∈ refs_of c →
  Py.dict_get (fingerprint (deref h r)) (_entries c) = Some r.
Proof.
  intros (Hnd & Hk & _) Hin. apply ref_in_refs_of in Hin as (k & Hin).
  destruct (Hk _ _ Hin) as [_ ->]. now apply dict_get_unique.
Qed.

(** The size of the dict after [store], in a cache within its capacity. *)
Lemma store_size h c fp acts post step h' c' :
  well_formed h c → 1 ≤ max_entries c →
  Z.of_nat (length (_entries c)) ≤ max_entries c →
  store h c fp acts post step = Some (h', c') →
  Z.of_nat (length (_entries c')) ≤ max_entries c'
  ∧ max_entries c' = max_entries c
  ∧ max_reuse c' = max_reuse c
  ∧ hash_threshold c' = hash_threshold c.
Proof.
  intros (Hnd & _ & _) Hme Hlen Hst.
  destruct (store_returns h c fp acts post step (or_introl Hme))
    as (d1 & Hst' & Hkeep & Hevict).
  rewrite Hst' in Hst. injection Hst as <- <-.
  cbn [_entries with_entries max_entries max_reuse hash_threshold].
  split; [|auto]. rewrite dict_set_length.
  destruct ((Z.of_nat (length (_entries c)) >=? max_entries c)
            && negb (Py.dict_contains fp (_entries c))) eqn:Hfull.
  - destruct (Hevict eq_refl) as (oldest & -> & Hin & _).
    pose proof (dict_del_length oldest (_entries c) Hnd Hin).
    destruct (Py.dict_contains fp (Py.dict_del oldest (_entries c))); lia.
  - rewrite (Hkeep eq_refl).
    destruct (Py.dict_contains fp (_entries c)) eqn:Hc; [lia|].
    rewrite andb_true_r in Hfull. rewrite Z.geb_leb in Hfull.
    apply Z.leb_gt in Hfull. lia.
Qed.

End CacheShape.

(** X5.  [store] on a key that has an entry puts a new object in its place:
    the old entry is out of the cache, and a [record_hit] or [mark_failed]
    through a handle on it changes no [lookup].  [evict] works by key, not
    by object: through the old handle it takes the new entry out. *)
Theorem replaced_entry_handle (h : heap) (c : L0Cache) (f : Z) (r : ref)
    (acts : list PredictionParsed) (post : option Z) (step : Z)
    (h' : heap) (c' : L0Cache) :
  well_formed h c →
  Py.dict_get f (_entries c) = Some r →
  store h c f acts post step = Some (h', c') →
  (r ∉ refs_of c')
  ∧ (∀ fp step', lookup (record_hit h' r step') c' fp = lookup h' c' fp)
  ∧ (∀ fp, lookup (mark_failed h' r) c' fp = lookup h' c' fp)
  ∧ Py.dict_get f (_entries c') = Some (length h)
  ∧ Py.dict_get f (_entries (evict h' c' r)) = None
  ∧ (length h ∉ refs_of (evict h' c' r)).
Proof.
  intros Hwf Hget Hst.
  assert (Hwf' := well_formed_store _ _ _ _ _ _ _ _ Hwf Hst).
  destruct Hwf as (Hnd & Hk & Hhc).
  assert (Hin : (f, r) ∈ _entries c) by now apply dict_get_elem.
  destruct (Hk _ _ Hin) as [Hlt Hfp].
  destruct (store_returns h c f acts post step) as (d1 & Hst' & Hkeep & _).
  { right. intros Hnil. rewrite Hnil in Hget. discriminate. }
  assert (Hc : Py.dict_contains f (_entries c) = true).
  { apply dict_contains_keys. destruct (decide (f ∈ Py.dict_keys (_entries c)));
      [assumption|]. apply dict_get_None in n. congruence. }
  rewrite Hc, andb_false_r in Hkeep. pose proof (Hkeep eq_refl) as ->.
  rewrite Hst' in Hst. injection Hst as <- <-.
  assert (Hnew : Py.dict_get f (Py.dict_set f (length h) (_entries c))
                 = Some (length h)) by apply dict_get_set_eq.
  assert (Hout : r ∉ refs_of (with_entries c (Py.dict_set f (length h) (_entries c)))).
  { intros Hr. apply (ref_under_own_key _ _ _ Hwf') in Hr.
    rewrite deref_app_old in Hr by exact Hlt. rewrite Hfp in Hr.
    cbn [_entries with_entries] in Hr. rewrite Hnew in Hr.
    injection Hr as Hr. lia. }
  split; [exact Hout|]. split; [|split].
  - intros fp step'. apply lookup_same_objects. intros r' Hr'.
    apply deref_alter_ne. intros ->. contradiction.
  - intros fp. apply lookup_same_objects. intros r' Hr'.
    apply deref_alter_ne. intros ->. contradiction.
  - cbn [_entries with_entries]. split; [exact Hnew|].
    unfold evict. rewrite deref_app_old by exact Hlt. rewrite Hfp.
    cbn [_entries with_entries]. split; [apply dict_get_del_eq|].
    intros Hr. apply ref_in_refs_of in Hr as (k & Hr).
    cbn [_entries with_entries] in Hr.
    apply dict_del_elem in Hr as [Hr Hne]. simpl in Hne.
    destruct Hwf' as (_ & Hk' & _). destruct (Hk' _ _ Hr) as [_ Hfp'].
    rewrite deref_app_new in Hfp'. simpl in Hfp'. congruence.
Qed.

(** The overwrite test of [test_l0_cache.py], with a handle kept on the
    entry that is overwritten. *)
Lemma replaced_entry_handle_witness :
  let h := [mkEntry 100 [click] (Some 200) 0 1 true] in
  let c := mkCache 0 3 2 [(100, 0%nat)] in
  ∃ h' c',
    store h c 100 [scroll] (Some 400) 3 = Some (h', c')
    ∧ lookup (mark_failed h' 0) c' 100 = lookup h' c' 100
    ∧ Py.dict_get 100 (_entries (evict h' c' 0)) = None.
Proof.
  intros h c.
  assert (Hwf : well_formed h c).
  { apply (well_formed_store [] (new_cache 0 3 2)
             100 [click] (Some 200) 1); [|reflexivity].
    apply well_formed_new. }
  eexists _, _. split; [reflexivity|].
  destruct (replaced_entry_handle h c 100 0 [scroll] (Some 400) 3 _ _
              Hwf eq_refl eq_refl) as (_ & _ & Hm & _ & He & _).
  split; [apply Hm|exact He].
Defined.

(** X6.  [evict] removes what the dict holds under the entry's fingerprint
    and nothing else, and does nothing when that key is absent.  An entry
    of the cache is gone after its eviction: the dict is one shorter and no
    [lookup] returns the entry. *)
Theorem evict_by_fingerprint (h : heap) (c : L0Cache) (r : ref) :
  well_formed h c →
  Py.dict_get (fingerprint (deref h r)) (_entries (evict h c r)) = None
  ∧ (∀ k, k ≠ fingerprint (deref h r) →
       Py.dict_get k (_entries (evict h c r)) = Py.dict_get k (_entries c))
  ∧ (Py.dict_get (fingerprint (deref h r)) (_entries c) = None →
     evict h c r = c)
  ∧ (r ∈ refs_of c →
     (r ∉ refs_of (evict h c r))
     ∧ S (length (_entries (evict h c r))) = length (_entries c)
     ∧ ∀ fp, lookup h (evict h c r) fp ≠ Some r)
  ∧ well_formed h (evict h c r).
Proof.
  intros Hwf. unfold evict at 1 2. cbn [_entries with_entries].
  split; [apply dict_get_del_eq|].
  split; [intros k Hk; now apply dict_get_del_ne|].
  split; [|split; [|now apply well_formed_evict]].
  - intros Hnone. unfold evict. apply dict_get_None in Hnone.
    rewrite dict_del_absent by exact Hnone. apply with_entries_same.
  - intros Hin.
    pose proof (ref_under_own_key h c r Hwf Hin) as Hget.
    assert (Hout : r ∉ refs_of (evict h c r)).
    { intros Hr. apply (ref_under_own_key h _ r (well_formed_evict h c r Hwf)) in Hr.
      unfold evict in Hr. cbn [_entries with_entries] in Hr.
      rewrite dict_get_del_eq in Hr. discriminate. }
    split; [exact Hout|]. split.
    + unfold evict. cbn [_entries with_entries].
      apply dict_del_length; [apply Hwf|].
      destruct (decide (fingerprint (deref h r) ∈ Py.dict_keys (_entries c)));
        [assumption|]. apply dict_get_None in n. congruence.
    + intros fp Hl. apply lookup_hit in Hl as (Hr & _). contradiction.
Qed.

Lemma evict_by_fingerprint_witness :
  let h := [mkEntry 1000 [click] (Some 2000) 0 1 true] in
  let c := mkCache 5 3 256 [(1000, 0%nat)] in
  evict h (evict h c 0) 0 = evict h c 0
  ∧ ∀ fp, lookup h (evict h c 0) fp ≠ Some 0%nat.
Proof.
  intros h c.
  assert (Hwf : well_formed h c).
  { apply (well_formed_store [] (new_cache 5 3 256)
             1000 [click] (Some 2000) 1); [|reflexivity].
    apply well_formed_new. }
  split.
  - destruct (evict_by_fingerprint h (evict h c 0) 0
                (well_formed_evict h c 0 Hwf)) as (_ & _ & Habs & _).
    apply Habs. reflexivity.
  - destruct (evict_by_fingerprint h c 0 Hwf) as (_ & _ & _ & Hgone & _).
    apply Hgone. apply list_elem_of_In. simpl. auto.
Defined.

Section StatsFacts.

Lemma filter_all_length {A} (P : A → Prop) `{∀ x, Decision (P x)} (l : list A) :
  length (filter P l) = length l → Forall P l.
Proof.
  induction l as [|x l IH]; intros Hlen; [constructor|].
  destruct (decide (P x)) as [Hp|Hn].
  - rewrite filter_cons_True in Hlen by exact Hp. simpl in Hlen.
    constructor; [exact Hp|]. apply IH. lia.
  - rewrite filter_cons_False in Hlen by exact Hn.
    pose proof (length_filter P l). simpl in Hlen. lia.
Qed.

Lemma Forall_entries_refs h (c : L0Cache) (P : L0CacheEntry → Prop) :
  Forall P (map (fun kv => deref h (snd kv)) (_entries c)) →
  ∀ r, r ∈ refs_of c → P (deref h r).
Proof.
  intros Hall r Hr. apply ref_in_refs_of in Hr as (k & Hin).
  rewrite Forall_forall in Hall. apply Hall.
  apply list_elem_of_In, in_map_iff. exists (k, r).
  split; [reflexivity|now apply list_elem_of_In].
Qed.

End StatsFacts.

(** X7.  [stats]: the total is the number of keys, and the failed and the
    exhausted entries are each counted among them.  When the failed count,
    or the exhausted count, equals the total, every [lookup] misses. *)
Theorem stats_counts (h : heap) (c : L0Cache) :
  let total := fst (fst (stats h c)) in
  let failed := snd (fst (stats h c)) in
  let exhausted := snd (stats h c) in
  total = Z.of_nat (length (_entries c))
  ∧ 0 ≤ failed ≤ total
  ∧ 0 ≤ exhausted ≤ total
  ∧ (failed = total ∨ exhausted = total → ∀ fp, lookup h c fp = None).
Proof.
  unfold stats. cbn [fst snd].
  set (es := map (fun kv => deref h (snd kv)) (_entries c)).
  assert (Hes : length es = length (_entries c)) by apply length_map.
  pose proof (length_filter (fun e => succeeded e = false) es) as Hf.
  pose proof (length_filter (fun e => max_reuse c ≤ hit_count e) es) as He.
  rewrite Hes. split; [reflexivity|]. split; [lia|]. split; [lia|].
  rewrite <- Hes.
  intros Hall fp. apply lookup_None. intros r Hr [Hel _].
  unfold eligible in Hel. apply andb_true_iff in Hel as [Hs Hh].
  apply Z.ltb_lt in Hh.
  destruct Hall as [Hall|Hall]; apply Nat2Z.inj in Hall;
    apply filter_all_length in Hall;
    pose proof (Forall_entries_refs h c _ Hall r Hr) as Hp; simpl in Hp.
  - congruence.
  - lia.
Qed.

(** [test_stats_counts]: one entry exhausted, the other failed. *)
Example stats_test :
  let h := [mkEntry 100 [click] (Some 200) 1 3 true;
            mkEntry 200 [click] (Some 300) 0 2 false] in
  let c := mkCache 5 1 256 [(100, 0%nat); (200, 1%nat)] in
  stats h c = (2, 1, 1) ∧ stats [] (new_cache 5 3 256) = (0, 0, 0).
Proof. split; reflexivity. Qed.

Section CacheRuns.

Lemma cache_apply_inv ht mr me o s :
  1 ≤ me → cache_inv ht mr me s →
  ∃ s', cache_apply o s = Some s' ∧ cache_inv ht mr me s'.
Proof.
  intros Hme (Hwf & Hlen & Hset). destruct s as [h c]. cbn [fst snd] in *.
  injection Hset as Hht Hmr Hmx.
  destruct o as [fp acts post step|r step|r|r]; cbn [cache_apply fst snd].
  - destruct (store_returns h c fp acts post step) as (d1 & Hst & _);
      [left; lia|].
    rewrite Hst. eexists. split; [reflexivity|].
    destruct (store_size _ _ _ _ _ _ _ _ Hwf ltac:(lia) ltac:(lia) Hst)
      as (Hl & H1 & H2 & H3).
    split; [eapply well_formed_store; eauto|]. cbn [fst snd].
    split; [lia|]. congruence.
  - eexists. split; [reflexivity|]. split; [now apply well_formed_record_hit|].
    cbn [fst snd]. split; [lia|congruence].
  - eexists. split; [reflexivity|]. split; [now apply well_formed_mark_failed|].
    cbn [fst snd]. split; [lia|congruence].
  - eexists. split; [reflexivity|]. split; [now apply well_formed_evict|].
    cbn [fst snd]. unfold evict. cbn [_entries with_entries hash_threshold
      max_reuse max_entries].
    pose proof (dict_del_length_le (fingerprint (deref h r)) (_entries c)).
    split; [lia|congruence].
Qed.

Lemma cache_run_inv ht mr me ops :
  1 ≤ me → ∀ s, cache_inv ht mr me s →
  ∃ s', cache_run ops s = Some s' ∧ cache_inv ht mr me s'.
Proof.
  intros Hme. unfold cache_run.
  induction ops as [|o ops IH]; intros s Hinv; cbn [fold_left]; [eauto|].
  destruct (cache_apply_inv ht mr me o s Hme Hinv) as (s1 & -> & Hinv1).
  now apply IH.
Qed.

End CacheRuns.

(** X8.  Whatever sequence of [store], [record_hit], [mark_failed] and
    [evict] calls is made on a new cache with [max_entries >= 1], with
    whatever handles: no call raises, the cache never holds more than
    [max_entries] entries, and it keeps one entry per key, each under its
    own fingerprint, with a non-negative hit count. *)
Theorem cache_stays_within_capacity (ops : list cache_op) (ht mr me : Z) :
  1 ≤ me →
  ∃ h c,
    cache_run ops ([], new_cache ht mr me) = Some (h, c)
    ∧ Z.of_nat (length (_entries c)) ≤ me
    ∧ well_formed h c
    ∧ (hash_threshold c, max_reuse c, max_entries c) = (ht, mr, me).
Proof.
  intros Hme.
  destruct (cache_run_inv ht mr me ops Hme ([], new_cache ht mr me))
    as ([h c] & Hrun & Hwf & Hlen & Hset).
  { split; [apply well_formed_new|]. split; [simpl; lia|reflexivity]. }
  exists h, c. auto.
Qed.

(** The capacity test of [test_l0_cache.py] as a run, with a hit and an
    eviction through handles in between. *)
Lemma cache_stays_within_capacity_witness :
  ∃ h c,
    cache_run [OpStore 100 [click] (Some 200) 1; OpStore 200 [click] (Some 300) 2;
               OpRecordHit 0 3; OpStore 300 [click] (Some 400) 4;
               OpEvict 1; OpStore 400 [click] (Some 500) 5;
               OpStore 500 [click] (Some 600) 6]
              ([], new_cache 0 3 3) = Some (h, c)
    ∧ Z.of_nat (length (_entries c)) ≤ 3.
Proof.
  edestruct (cache_stays_within_capacity) as (h & c & Hrun & Hlen & _);
    [|exists h, c; split; [exact Hrun|exact Hlen]].
  lia.
Defined.

(** ** The router *)

Section RouterFacts.

Lemma in_uncacheable a :
  in_strings (action_type a) _UNCACHEABLE_ACTIONS = true ↔ terminal_action a.
Proof.
  unfold in_strings, _UNCACHEABLE_ACTIONS, terminal_action. cbn [existsb].
  rewrite !orb_true_iff, !String.eqb_eq. intuition discriminate.
Qed.

Lemma replayable_not_terminal a : replayable_action a ↔ ¬ terminal_action a.
Proof. unfold replayable_action, terminal_action. tauto. Qed.

(** [should_cache_actions]: a non-empty list without a terminal action. *)
Lemma should_cache_actions_true acts :
  should_cache_actions acts = true
  ↔ acts ≠ [] ∧ Forall replayable_action acts.
Proof.
  unfold should_cache_actions. destruct acts as [|a acts].
  - split; [discriminate|]. intros [H _]. congruence.
  - rewrite forallb_forall, Forall_forall. split.
    + intros H. split; [discriminate|]. intros x Hx.
      apply replayable_not_terminal. rewrite <- in_uncacheable.
      apply list_elem_of_In, H in Hx. now destruct (in_strings _ _).
    + intros [_ H] x Hx. apply list_elem_of_In, H in Hx.
      apply replayable_not_terminal in Hx. rewrite <- in_uncacheable in Hx.
      now destruct (in_strings _ _).
Qed.

Lemma deref_alter_actions g (h : heap) r r' :
  (∀ e, actions (g e) = actions e) →
  actions (deref (alter g r h) r') = actions (deref h r').
Proof.
  intros Hg. unfold deref. rewrite list_lookup_total_alter.
  destruct (decide _) as [[-> _]|_]; [apply Hg|reflexivity].
Qed.

Lemma replayable_alter g h c r :
  (∀ e, actions (g e) = actions e) →
  replayable h c → replayable (alter g r h) c.
Proof.
  intros Hg Hrep r' Hr'. rewrite deref_alter_actions by exact Hg. now apply Hrep.
Qed.

Lemma replayable_evict h c r : replayable h c → replayable h (evict h c r).
Proof.
  intros Hrep r' Hr'. apply Hrep.
  apply ref_in_refs_of in Hr' as (k & Hin). unfold evict in Hin.
  cbn [_entries with_entries] in Hin. apply dict_del_elem in Hin as [Hin _].
  apply ref_in_refs_of. eauto.
Qed.

Lemma replayable_store h c fp acts post step h' c' :
  well_formed h c → replayable h c →
  acts ≠ [] → Forall replayable_action acts →
  store h c fp acts post step = Some (h', c') →
  replayable h' c'.
Proof.
  intros Hwf Hrep Hne Hacts Hst. unfold store in Hst.
  assert (Hput : ∀ d1, (∀ kv, kv ∈ d1 → kv ∈ _entries c) →
            replayable (h ++ [mkEntry fp acts post 0 step true])
                       (with_entries c (Py.dict_set fp (length h) d1))).
  { intros d1 Hsub r Hr. apply ref_in_refs_of in Hr as (k & Hin).
    cbn [_entries with_entries] in Hin.
    apply dict_set_elem in Hin as [[= -> ->]|Hin].
    - rewrite deref_app_new. simpl. auto.
    - apply Hsub in Hin. destruct Hwf as (_ & Hk & _).
      destruct (Hk _ _ Hin) as [Hlt _]. rewrite deref_app_old by exact Hlt.
      apply Hrep. apply ref_in_refs_of. eauto. }
  destruct ((Z.of_nat (length (_entries c)) >=? max_entries c)
            && negb (Py.dict_contains fp (_entries c))).
  - destruct (Py.py_min _ _) as [oldest|]; [|discriminate].
    injection Hst as <- <-. apply Hput.
    intros kv Hin. now apply dict_del_elem in Hin as [Hin _].
  - injection Hst as <- <-. apply Hput. auto.
Qed.

(** What every call on a router keeps. *)
Lemma router_apply_inv ht mr o (s : heap * L0Router) :
  cache_inv ht mr 256 (fst s, cache (snd s)) →
  replayable (fst s) (cache (snd s)) →
  ∃ s', router_apply o s = Some s'
        ∧ cache_inv ht mr 256 (fst s', cache (snd s'))
        ∧ replayable (fst s') (cache (snd s')).
Proof.
  destruct s as [h [c]]. cbn [fst snd cache]. intros Hinv Hrep.
  destruct o as [fp acts post step|entry post step success]; cbn [router_apply fst snd].
  - unfold record. cbn [cache]. destruct fp as [f|]; [|eauto].
    destruct (should_cache_actions acts) eqn:Hsc; cbn [negb]; [|eauto].
    apply should_cache_actions_true in Hsc as [Hne Hacts].
    destruct (cache_apply_inv ht mr 256 (OpStore f acts post step) (h, c)
                ltac:(lia) Hinv) as ([h' c'] & Hst & Hinv').
    cbn [cache_apply fst snd cache] in Hst. rewrite Hst.
    eexists. split; [reflexivity|]. cbn [fst snd cache]. split; [exact Hinv'|].
    eapply replayable_store; eauto. apply Hinv.
  - unfold verify_and_commit. cbn [cache]. destruct success; cbn [negb].
    + assert (Hhit : ∃ s', Some (record_hit h entry step, mkRouter c) = Some s'
                ∧ cache_inv ht mr 256 (fst s', cache (snd s'))
                ∧ replayable (fst s') (cache (snd s'))).
      { eexists. split; [reflexivity|]. cbn [fst snd cache]. split.
        - destruct (cache_apply_inv ht mr 256 (OpRecordHit entry step) (h, c)
                      ltac:(lia) Hinv) as (s' & [= <-] & Hinv'). exact Hinv'.
        - now apply replayable_alter. }
      destruct post as [p|]; [|exact Hhit].
      destruct (p =? fingerprint (deref h entry)); [|exact Hhit].
      eexists. split; [reflexivity|]. cbn [fst snd cache]. split.
      * destruct (cache_apply_inv ht mr 256 (OpEvict entry) (h, c)
                    ltac:(lia) Hinv) as (s' & [= <-] & Hinv'). exact Hinv'.
      * now apply replayable_evict.
    + eexists. split; [reflexivity|]. cbn [fst snd cache]. split.
      * destruct (cache_apply_inv ht mr 256 (OpMarkFailed entry) (h, c)
                    ltac:(lia) Hinv) as (s' & [= <-] & Hinv'). exact Hinv'.
      * now apply replayable_alter.
Qed.

End RouterFacts.

(** X9.  A router that is only driven through [record] and
    [verify_and_commit], in any order and with any arguments, never raises,
    never holds more than its 256 entries, and never holds an empty action
    list or one of the terminal actions [finished], [call_user] and
    [error_env]: whatever [try_cache] returns can be replayed. *)
Theorem router_holds_replayable_actions (ops : list router_op) (ht mr : Z) :
  ∃ h r,
    router_run ops ([], new_router ht mr) = Some (h, r)
    ∧ Z.of_nat (length (_entries (cache r))) ≤ 256
    ∧ well_formed h (cache r)
    ∧ ∀ fp step entry,
        try_cache h r fp step = Some entry →
        actions (deref h entry) ≠ []
        ∧ Forall replayable_action (actions (deref h entry)).
Proof.
  assert (Hrun : ∀ s : heap * L0Router,
            cache_inv ht mr 256 (fst s, cache (snd s)) →
            replayable (fst s) (cache (snd s)) →
            ∃ s', router_run ops s = Some s'
                  ∧ cache_inv ht mr 256 (fst s', cache (snd s'))
                  ∧ replayable (fst s') (cache (snd s'))).
  { unfold router_run. induction ops as [|o ops IH]; intros s Hinv Hrep;
      cbn [fold_left]; [eauto|].
    destruct (router_apply_inv ht mr o s Hinv Hrep) as (s1 & -> & Hinv1 & Hrep1).
    now apply IH. }
  destruct (Hrun ([], new_router ht mr)) as ([h r] & Hr & Hinv & Hrep).
  { split; [apply well_formed_new|]. split; [simpl; lia|reflexivity]. }
  { intros r0 Hr0. apply list_elem_of_In in Hr0. destruct Hr0. }
  exists h, r. split; [exact Hr|]. destruct Hinv as (Hwf & Hlen & _).
  split; [exact Hlen|]. split; [exact Hwf|].
  intros fp step entry Hhit. apply Hrep.
  destruct fp as [f|]; [|discriminate]. now apply lookup_hit in Hhit as (Hin & _).
Qed.

(** X10.  [record] changes nothing when there is no fingerprint, when the
    action list is empty, or when it holds a terminal action.  Otherwise,
    in a cache built by the methods and within its capacity, it returns and
    the entry it stores is what [try_cache] of the same fingerprint returns
    next (given a positive [max_reuse] and a non-negative threshold): the
    recorded actions and post fingerprint, with a hit count of 0. *)
Theorem record_then_try_cache (h : heap) (r : L0Router) (fp : option Z)
    (acts : list PredictionParsed) (post : option Z) (step step' : Z) :
  (fp = None ∨ acts = [] ∨ Exists terminal_action acts →
   record h r fp acts post step = Some (h, r))
  ∧ (∀ f, fp = Some f → acts ≠ [] → Forall replayable_action acts →
     well_formed h (cache r) → 1 ≤ max_entries (cache r) →
     0 < max_reuse (cache r) → 0 ≤ hash_threshold (cache r) →
     ∃ h' r',
       record h r fp acts post step = Some (h', r')
       ∧ try_cache h' r' fp step' = Some (length h)
       ∧ deref h' (length h) = mkEntry f acts post 0 step true).
Proof.
  split.
  - intros Hskip. unfold record. destruct fp as [f|]; [|reflexivity].
    destruct (should_cache_actions acts) eqn:Hsc; [|reflexivity].
    apply should_cache_actions_true in Hsc as [Hne Hacts].
    destruct Hskip as [Hskip|[Hskip|Hskip]]; [discriminate|contradiction|].
    apply Exists_exists in Hskip as (a & Ha & Hterm).
    rewrite Forall_forall in Hacts. apply Hacts in Ha.
    apply replayable_not_terminal in Ha. contradiction.
  - intros f -> Hne Hacts Hwf Hme Hmr Hth. destruct r as [c]. cbn [cache] in *.
    unfold record.
    assert (Hsc : should_cache_actions acts = true)
      by (apply should_cache_actions_true; auto).
    rewrite Hsc. cbn [negb cache].
    destruct (store_returns h c f acts post step (or_introl Hme))
      as (d1 & Hst & _).
    rewrite Hst. eexists _, _. split; [reflexivity|].
    assert (Hwf' := well_formed_store _ _ _ _ _ _ _ _ Hwf Hst).
    split; [|apply deref_app_new].
    cbn [try_cache cache].
    apply lookup_exact; [exact Hwf'|exact Hth|apply dict_get_set_eq|].
    rewrite deref_app_new. unfold eligible. simpl. now apply Z.ltb_lt.
Qed.

(** A click is recorded and found again; a [finished] is not recorded. *)
Lemma record_then_try_cache_witness :
  let r := new_router 5 3 in
  record [] r (Some 1000) [mkPred "finished" [] "" "finished()"] None 1
    = Some ([], r)
  ∧ ∃ h' r',
      record [] r (Some 1000) [click] (Some 2000) 1 = Some (h', r')
      ∧ try_cache h' r' (Some 1000) 2 = Some 0%nat.
Proof.
  intros r.
  split.
  - apply (proj1 (record_then_try_cache [] r (Some 1000) _ None 1 1)).
    right. right. constructor. left. reflexivity.
  - destruct (proj2 (record_then_try_cache [] r (Some 1000) [click]
                       (Some 2000) 1 2) 1000 eq_refl)
      as (h' & r' & Hrec & Hhit & _).
    + discriminate.
    + repeat constructor; discriminate.
    + apply well_formed_new.
    + simpl. lia.
    + simpl. lia.
    + simpl. lia.
    + exists h', r'. split; [exact Hrec|exact Hhit].
Defined.

(** ** More on the control object *)

Section ControlMore.

Lemma apply_all_app ops1 ops2 c :
  apply_all (ops1 ++ ops2) c = apply_all ops2 (apply_all ops1 c).
Proof. unfold apply_all. apply fold_left_app. Qed.

Lemma apply_all_injects ts c :
  apply_all (map Inject ts) c
  = mkControl (status c) (paused c) (stopped c) (injected c ++ ts).
Proof.
  revert c. induction ts as [|t ts IH]; intros c.
  - simpl. rewrite app_nil_r. now destruct c.
  - change (apply_all (map Inject (t :: ts)) c)
      with (apply_all (map Inject ts) (inject t c)).
    rewrite IH. simpl. now rewrite <- app_assoc.
Qed.

Lemma pop_all_queue n st p sp q :
  (length q ≤ n)%nat →
  pop_all n (mkControl st p sp q) = (q, mkControl st p sp []).
Proof.
  revert q. induction n as [|n IH]; intros q Hn.
  - destruct q; [reflexivity|simpl in Hn; lia].
  - destruct q as [|t q]; [reflexivity|].
    cbn [pop_all pop_injected injected status paused stopped].
    rewrite IH by (simpl in Hn; lia). reflexivity.
Qed.

End ControlMore.

(** X11.  In every control state that the methods reach from a new object,
    a paused worker does not have status [RUNNING]; and as long as nobody
    calls [resume], whatever else is called, it stays paused and its
    status does not become [RUNNING]: [set_status(RUNNING)] cannot undo a
    pause. *)
Theorem paused_is_not_running (c : WorkerControl) (ops : list State.op) :
  reachable c → paused c = true →
  status c ≠ RUNNING
  ∧ (Forall (fun o => o ≠ Resume) ops →
     paused (apply_all ops c) = true ∧ status (apply_all ops c) ≠ RUNNING).
Proof.
  intros Hr Hp.
  assert (Hinv : status c ≠ RUNNING).
  { clear ops. induction Hr as [|o c Hr IH]; [discriminate|].
    destruct c as [st p sp inj]. simpl in IH.
    destruct o; simpl in Hp |- *.
    - destruct st; simpl; discriminate.
    - discriminate.
    - discriminate.
    - unfold State.set_status in *. simpl in *.
      destruct sp; simpl in *; [discriminate|].
      destruct p; simpl in *.
      + destruct s; simpl in *; auto; discriminate.
      + discriminate.
    - auto.
    - destruct inj; simpl in *; auto.
  }
  split; [exact Hinv|]. intros Hops.
  revert c Hr Hp Hinv. induction Hops as [|o ops Ho Hops IH]; intros c Hr Hp Hinv.
  - auto.
  - change (apply_all (o :: ops) c) with (apply_all ops (State.apply o c)).
    assert (Hstep : paused (State.apply o c) = true
                    ∧ status (State.apply o c) ≠ RUNNING).
    { destruct c as [st p sp inj]. simpl in Hp, Hinv. subst p.
      destruct o; simpl.
      - split; [reflexivity|]. destruct st; simpl; congruence.
      - contradiction.
      - split; [reflexivity|discriminate].
      - unfold State.set_status. simpl.
        destruct sp; simpl; [split; [reflexivity|discriminate]|].
        destruct s; simpl; split; auto; discriminate.
      - auto.
      - destruct inj; simpl; auto. }
    destruct Hstep as [Hp' Hinv'].
    apply IH; [now apply reach_step|exact Hp'|exact Hinv'].
Qed.

Lemma paused_is_not_running_witness :
  let c := State.apply Pause (State.apply (SetStatus RUNNING) new_control) in
  let ops := [SetStatus RUNNING; Inject "wait"; Pause; SetStatus RUNNING] in
  status c ≠ RUNNING
  ∧ paused (apply_all ops c) = true ∧ status (apply_all ops c) ≠ RUNNING.
Proof.
  intros c ops.
  destruct (paused_is_not_running c ops) as [H1 H2].
  - unfold c. repeat apply reach_step. apply reach_new.
  - reflexivity.
  - split; [exact H1|]. apply H2. repeat constructor; discriminate.
Defined.

(** X12.  The injected guidance is a first-in, first-out queue: after
    [inject] calls for [ts], [pop_injected] returns what was pending and
    then [ts], each once and in order, and then [None]; status, [paused]
    and [stopped] are as before. *)
Theorem guidance_is_fifo (c : WorkerControl) (ts : list string) (n : nat) :
  (length (injected c) + length ts ≤ n)%nat →
  pop_all n (apply_all (map Inject ts) c)
  = (injected c ++ ts, mkControl (status c) (paused c) (stopped c) [])
  ∧ pop_injected (snd (pop_all n (apply_all (map Inject ts) c)))
    = (None, mkControl (status c) (paused c) (stopped c) []).
Proof.
  intros Hn. rewrite apply_all_injects.
  rewrite pop_all_queue by (rewrite length_app; exact Hn).
  split; reflexivity.
Qed.

Lemma guidance_is_fifo_witness :
  pop_all 5 (apply_all (map Inject ["tap back"; "scroll up"])
               (State.inject "wait" new_control))
  = (["wait"; "tap back"; "scroll up"], new_control).
Proof.
  apply (guidance_is_fifo (State.inject "wait" new_control)
           ["tap back"; "scroll up"] 5).
  simpl. lia.
Defined.

(** X13.  [pause] and [resume] are idempotent.  [resume] after [pause]
    gives a running, unpaused worker back as it was, but a worker that
    [pause] found in [HANG] comes out of [resume] as [RUNNING].  While the
    worker is paused and not stopped, [set_status(RUNNING)] changes
    nothing and any other status is set as asked. *)
Theorem pause_resume_compose (c : WorkerControl) :
  State.pause (State.pause c) = State.pause c
  ∧ State.resume (State.resume c) = State.resume c
  ∧ (status c = RUNNING → paused c = false →
     State.resume (State.pause c) = c)
  ∧ (status c = HANG →
     status (State.pause c) = HANG
     ∧ status (State.resume (State.pause c)) = RUNNING)
  ∧ (paused c = true → stopped c = false →
     State.set_status RUNNING c = c
     ∧ ∀ s, s ≠ RUNNING →
         State.set_status s c
         = mkControl s (paused c) (stopped c) (injected c)).
Proof.
  destruct c as [st p sp inj]. simpl.
  split; [destruct st; reflexivity|].
  split; [destruct st; reflexivity|].
  split; [intros -> ->; reflexivity|].
  split; [intros ->; split; reflexivity|].
  intros -> ->. unfold State.set_status. simpl. split; [reflexivity|].
  intros s Hs. destruct s; simpl; congruence.
Qed.

Lemma pause_resume_compose_witness :
  let c := mkControl RUNNING false false [] in
  State.resume (State.pause c) = c.
Proof.
  intros c.
  destruct (pause_resume_compose c) as (_ & _ & H & _).
  apply H; reflexivity.
Defined.

(** ** More on the event hub *)

Section HubMore.

Lemma publish_returns now type_ data hub :
  Hub.publish now type_ data hub
  = Returns (mkHub (map (offered (mkEvent type_ (default [] data) now)) (_subs hub))
                   (_last_status hub) (next_qid hub)).
Proof. unfold Hub.publish. now rewrite deliver_returns. Qed.

Lemma set_status_returns now st extra hub :
  Hub.has_keyword "status" extra = false →
  Hub.set_status now st extra hub
  = Returns (mkHub (map (offered (mkEvent "status"
                                    (("status"%string, VStatus st) :: extra) now))
                        (_subs hub))
                   (("status"%string, VStatus st) :: extra) (next_qid hub)).
Proof. intros Hkw. unfold Hub.set_status. now rewrite Hkw, publish_returns. Qed.

Lemma set_status_raises now st extra hub :
  Hub.has_keyword "status" extra = true →
  Hub.set_status now st extra hub = Raises "TypeError".
Proof. intros Hkw. unfold Hub.set_status. now rewrite Hkw. Qed.



Lemma hub_run_raised ops e : fold_left (fun o op => Exc.bind o (hub_apply op)) ops (Raises e) = Raises e.
Proof. induction ops as [|o ops IH]; [reflexivity|exact IH]. Qed.

Lemma hub_run_step o ops hub :
  hub_run (o :: ops) hub
  = match hub_apply o hub with
    | Returns hub' => hub_run ops hub'
    | Raises e => Raises e
    end.
Proof.
  unfold hub_run. cbn [fold_left Exc.bind].
  destruct (hub_apply o hub) as [hub'|e]; [reflexivity|apply hub_run_raised].
Qed.

Lemma hub_run_cons o ops hub hub' :
  hub_apply o hub = Returns hub' →
  hub_run (o :: ops) hub = hub_run ops hub'.
Proof. intros H. unfold hub_run. cbn [fold_left Exc.bind]. now rewrite H. Qed.

Lemma offered_shape evt q :
  qid (offered evt q) = qid q ∧ maxsize (offered evt q) = maxsize q.
Proof. unfold offered. destruct (full q); auto. Qed.









(** A queue that is offered [evts] one after the other. *)
Lemma offered_all evts : ∀ q,
  fold_left (fun q e => offered e q) evts q
  = mkQueue (qid q) (maxsize q) (qitems q ++ kept q evts).
Proof.
  induction evts as [|e evts IH]; intros q.
  - simpl. unfold kept. rewrite take_nil.
    destruct (maxsize q <=? 0); rewrite app_nil_r; now destruct q.
  - cbn [fold_left]. rewrite IH.
    destruct (offered_shape e q) as [-> ->]. f_equal.
    unfold offered, full, kept.
    destruct (Z.leb_spec (maxsize q) 0) as [Hunb|Hb].
    + replace (0 <? maxsize q) with false by (symmetry; apply Z.ltb_ge; lia).
      cbn [andb qitems maxsize].
      replace (maxsize q <=? 0) with true by (symmetry; apply Z.leb_le; lia).
      now rewrite <- app_assoc.
    + replace (0 <? maxsize q) with true by (symmetry; apply Z.ltb_lt; lia).
      cbn [andb].
      destruct (Z.leb_spec (maxsize q) (Z.of_nat (length (qitems q)))) as [Hfull|Hroom];
        cbn [qitems maxsize].
      * replace (maxsize q <=? 0) with false by (symmetry; apply Z.leb_gt; lia).
        replace (Z.to_nat (maxsize q) - length (qitems q))%nat with 0%nat by lia.
        reflexivity.
      * replace (maxsize q <=? 0) with false by (symmetry; apply Z.leb_gt; lia).
        rewrite length_app. cbn [length].
        replace (Z.to_nat (maxsize q) - length (qitems q))%nat
          with (S (Z.to_nat (maxsize q) - (length (qitems q) + 1)))%nat by lia.
        cbn [take]. now rewrite <- app_assoc.
Qed.

Lemma publish_ops_subs ps : ∀ hub,
  ∃ hub', hub_run (map publish_op ps) hub = Returns hub'
    ∧ _subs hub'
      = map (fun q => fold_left (fun q e => offered e q) (map event_of ps) q)
            (_subs hub)
    ∧ _last_status hub' = _last_status hub
    ∧ next_qid hub' = next_qid hub.
Proof.
  induction ps as [|p ps IH]; intros hub.
  - exists hub. split; [reflexivity|]. split; [|auto].
    simpl. now rewrite map_id.
  - cbn [map]. unfold publish_op at 1.
    rewrite (hub_run_cons (HPublish (fst (fst p)) (snd (fst p)) (snd p)) _ hub _
               (publish_returns _ _ _ hub)).
    destruct (IH (mkHub (map (offered (mkEvent (snd (fst p)) (default [] (snd p))
                                         (fst (fst p)))) (_subs hub))
                        (_last_status hub) (next_qid hub)))
      as (hub' & Hrun & Hsubs & Hls & Hn).
    exists hub'. split; [exact Hrun|]. split; [|auto].
    rewrite Hsubs. cbn [_subs]. rewrite map_map. reflexivity.
Qed.

Lemma hub_run_last_status ops : ∀ hub hub',
  hub_run ops hub = Returns hub' →
  _last_status hub' = last_status ops (_last_status hub).
Proof.
  induction ops as [|o ops IH]; intros hub hub' Hrun.
  - now injection Hrun as <-.
  - rewrite hub_run_step in Hrun.
    destruct (hub_apply o hub) as [hub1|e] eqn:H1; [|discriminate].
    apply IH in Hrun. rewrite Hrun.
    destruct o; simpl in H1.
    + now injection H1 as <-.
    + now injection H1 as <-.
    + rewrite publish_returns in H1. now injection H1 as <-.
    + destruct (Hub.has_keyword "status" extra) eqn:Hkw;
        [now rewrite set_status_raises in H1 by exact Hkw|].
      rewrite set_status_returns in H1 by exact Hkw. now injection H1 as <-.
Qed.

Lemma filter_other_ids i subs :
  i ∉ map qid subs → filter (fun x => qid x ≠ i) subs = subs.
Proof.
  induction subs as [|x l IH]; intros Hi; [reflexivity|].
  cbn [map] in Hi. apply not_elem_of_cons in Hi as [Hne Hi].
  rewrite filter_cons_True by (intros He; apply Hne; now symmetry).
  f_equal. now apply IH.
Qed.

End HubMore.


(** A [status] keyword collides with the parameter of [set_status]; the
    calls [error=..., step=...] of the loop do not. *)
Example set_status_keywords :
  hub_run [HSubscribe; HSetStatus 0 RUNNING [("status", VStr "x")]]%string new_hub
  = Raises "TypeError"
  ∧ ∃ hub,
      hub_run [HSubscribe;
               HSetStatus 0 ERROR [("error", VStr "boom"); ("step", VInt 3)]]%string
        new_hub
      = Returns hub
      ∧ get_status hub
        = [("status", VStatus ERROR); ("error", VStr "boom"); ("step", VInt 3)]%string.
Proof. split; [reflexivity|]. eexists. split; reflexivity. Qed.

(** X15.  Events published one after the other reach every queue in the
    order of publication, and a queue that is not read from keeps the
    oldest and loses the newest: it holds what it held, followed by the
    first of the new events up to its capacity.  The last status is not
    touched. *)
Theorem slow_consumer_keeps_oldest (ps : list (Z * string * option pydict))
    (hub : SupervisorHub) :
  ∃ hub',
    hub_run (map publish_op ps) hub = Returns hub'
    ∧ _subs hub'
      = map (fun q => mkQueue (qid q) (maxsize q)
                        (qitems q ++ kept q (map event_of ps)))
            (_subs hub)
    ∧ get_status hub' = get_status hub.
Proof.
  destruct (publish_ops_subs ps hub) as (hub' & Hrun & Hsubs & Hls & _).
  exists hub'. split; [exact Hrun|]. split; [|exact Hls].
  rewrite Hsubs. apply map_ext. intros q. apply offered_all.
Qed.

(** Three events for a queue with room for two. *)
Example slow_consumer_example :
  let e n := mkEvent "tick" [] n in
  hub_run (map publish_op [(1, "tick", None); (2, "tick", None); (3, "tick", None)]%string)
          (mkHub [mkQueue 0 2 []; mkQueue 1 1000 [e 0]] [] 2)
  = Returns (mkHub [mkQueue 0 2 [e 1; e 2]; mkQueue 1 1000 [e 0; e 1; e 2; e 3]]
                   [] 2).
Proof. reflexivity. Qed.

(** X16.  [subscribe] hands out an empty queue of capacity 1000 that the
    next [publish] fills with exactly the published event; [unsubscribe] of
    that queue gives back the registry as it was before, and [unsubscribe]
    of a queue that is not registered changes nothing. *)
Theorem subscribe_then_unsubscribe (hub : SupervisorHub)
    (Hok : hub_ok hub) :
  let q := fst (subscribe hub) in
  let hub1 := snd (subscribe hub) in
  qitems q = [] ∧ maxsize q = 1000
  ∧ _subs hub1 = _subs hub ++ [q]
  ∧ (∀ now type_ data, ∃ hub2,
        Hub.publish now type_ data hub1 = Returns hub2
        ∧ ∃ old, _subs hub2
                 = old ++ [mkQueue (qid q) 1000
                             [mkEvent type_ (default [] data) now]])
  ∧ _subs (unsubscribe (qid q) hub1) = _subs hub
  ∧ get_status (unsubscribe (qid q) hub1) = get_status hub
  ∧ (∀ i, i ∉ map qid (_subs hub) → _subs (unsubscribe i hub) = _subs hub).
Proof.
  destruct Hok as [Hnd Hall]. cbn zeta. unfold subscribe. cbn [fst snd qitems maxsize _subs qid].
  assert (Hkeep := fun i => filter_other_ids i (_subs hub)).
  assert (Hfresh : next_qid hub ∉ map qid (_subs hub)).
  { intros Hin. apply list_elem_of_In, in_map_iff in Hin as (x & Hx & Hin).
    rewrite Forall_forall in Hall. apply list_elem_of_In, Hall in Hin. lia. }
  split; [reflexivity|]. split; [reflexivity|]. split; [reflexivity|].
  split; [|split; [|split; [reflexivity|]]].
  - intros now type_ data. rewrite publish_returns. eexists. split; [reflexivity|].
    cbn [_subs]. rewrite map_app. eexists. reflexivity.
  - unfold unsubscribe. cbn [_subs]. rewrite filter_app.
    rewrite (Hkeep _ Hfresh).
    rewrite filter_cons_False by (cbn [qid]; intros Hne; now apply Hne).
    rewrite filter_nil. apply app_nil_r.
  - intros i Hi. unfold unsubscribe. cbn [_subs]. now apply Hkeep.
Qed.

Lemma subscribe_then_unsubscribe_witness :
  hub_ok (mkHub [mkQueue 0 1000 []; mkQueue 2 1000 []] [] 3)
  ∧ _subs (unsubscribe 3 (snd (subscribe
             (mkHub [mkQueue 0 1000 []; mkQueue 2 1000 []] [] 3))))
    = [mkQueue 0 1000 []; mkQueue 2 1000 []].
Proof.
  assert (Hok : hub_ok (mkHub [mkQueue 0 1000 []; mkQueue 2 1000 []] [] 3)).
  { split.
    - cbn [map _subs qid]. apply NoDup_cons. split.
      + intros H. apply list_elem_of_singleton in H. discriminate.
      + apply NoDup_singleton.
    - repeat constructor; simpl; lia. }
  split; [exact Hok|].
  exact (proj1 (proj2 (proj2 (proj2 (proj2
           (subscribe_then_unsubscribe _ Hok)))))).
Defined.

(** X17.  [get_status] answers with the payload of the last [set_status]
    call, status first and then its keyword arguments, however many
    [publish], [subscribe] and [unsubscribe] calls came after it; before
    the first [set_status], with the status the hub started from. *)
Theorem get_status_is_last_set (ops : list hub_op) (hub hub' : SupervisorHub)
    (Hrun : hub_run ops hub = Returns hub') :
  get_status hub' = last_status ops (get_status hub)
  ∧ (∀ now st extra rest,
       ops = HSetStatus now st extra :: rest →
       (∀ o, o ∈ rest → ∀ n s e, o ≠ HSetStatus n s e) →
       get_status hub' = ("status"%string, VStatus st) :: extra).
Proof.
  unfold get_status. split; [now apply hub_run_last_status|].
  intros now st extra rest -> Hrest.
  rewrite (hub_run_last_status _ _ _ Hrun). cbn [last_status].
  generalize (("status"%string, VStatus st) :: extra) as init.
  clear Hrun. induction rest as [|o rest IH]; intros init; [reflexivity|].
  assert (Ho := Hrest o (list_elem_of_here _ _)).
  assert (IH' : ∀ init, last_status rest init = init).
  { apply IH. intros o' Ho'. apply Hrest. now apply list_elem_of_further. }
  destruct o; cbn [last_status]; try apply IH'.
  now destruct (Ho now0 status0 extra0).
Qed.

Lemma get_status_is_last_set_witness :
  get_status
    (mkHub [mkQueue 0 1000 [mkEvent "status" [("status", VStatus PAUSE)] 5;
                            mkEvent "tick" [] 6]]
           [("status", VStatus PAUSE)] 1)%string
  = [("status", VStatus PAUSE)]%string.
Proof.
  refine (proj2 (get_status_is_last_set
            [HSetStatus 5 PAUSE []; HPublish 6 "tick" None]
            (snd (subscribe new_hub)) _ eq_refl) 5 PAUSE [] _ eq_refl _).
  intros o Ho n s e. apply list_elem_of_singleton in Ho. subst o. discriminate.
Defined.

(** ** More on the conversation log *)

Section ConversationMore.

Lemma assistant_turns_app l1 l2 :
  assistant_turns (l1 ++ l2) = (assistant_turns l1 + assistant_turns l2)%nat.
Proof. unfold assistant_turns. now rewrite List.filter_app, length_app. Qed.

Lemma assistant_turns_one x :
  assistant_turns [x] = if has_role "assistant" (Some x) then 1%nat else 0%nat.
Proof.
  unfold assistant_turns. cbn [List.filter has_role].
  now destruct (String.eqb (role x) "assistant").
Qed.

Lemma user_is_not_assistant x :
  has_role "user" (Some x) = true → has_role "assistant" (Some x) = false.
Proof.
  cbn [has_role]. intros H. apply String.eqb_eq in H. now rewrite H.
Qed.

(** The backward scan stops at the assistant turn that completes the
    requested number of rounds, and runs out to 0 when there are too few. *)
Lemma scan_back_count items n :
  ∀ k seen, (k ≤ length items)%nat → 0 ≤ seen < n →
  let i := scan_back items n k seen in
  (n ≤ Z.of_nat (assistant_turns (take k items)) + seen →
     has_role "assistant" (items !! i) = true ∧ (i < k)%nat
     ∧ Z.of_nat (assistant_turns (drop i (take k items))) + seen = n)
  ∧ (Z.of_nat (assistant_turns (take k items)) + seen < n → i = 0%nat).
Proof.
  induction k as [|k IH]; intros seen Hk Hseen; cbn zeta.
  - cbn [scan_back]. rewrite take_0.
    change (assistant_turns []) with 0%nat. split; [lia|reflexivity].
  - destruct (lookup_lt_is_Some_2 items k) as [x Hx]; [lia|].
    rewrite (take_S_r _ _ _ Hx), assistant_turns_app, assistant_turns_one.
    cbn [scan_back]. rewrite Hx.
    assert (Hlen : length (take k items) = k) by (rewrite length_take; lia).
    destruct (has_role "assistant" (Some x)) eqn:Hr.
    + destruct (seen + 1 >=? n) eqn:Hge.
      * apply Z.geb_le in Hge. split; [|lia]. intros _.
        split; [now rewrite Hx|]. split; [lia|].
        rewrite drop_app_le by lia. rewrite drop_ge by lia.
        cbn [app]. rewrite assistant_turns_one, Hr. lia.
      * rewrite Z.geb_leb in Hge. apply Z.leb_gt in Hge.
        destruct (IH (seen + 1)) as [IH1 IH2]; [lia|lia|]. split.
        -- intros Hn. destruct IH1 as (Ha & Hi & Hc); [lia|].
           split; [exact Ha|]. split; [lia|].
           rewrite drop_app_le by lia.
           rewrite assistant_turns_app, assistant_turns_one, Hr. lia.
        -- intros Hlt. apply IH2. lia.
    + destruct (IH seen) as [IH1 IH2]; [lia|lia|]. split.
      * intros Hn. destruct IH1 as (Ha & Hi & Hc); [lia|].
        split; [exact Ha|]. split; [lia|].
        rewrite drop_app_le by lia.
        rewrite assistant_turns_app, assistant_turns_one, Hr. lia.
      * intros Hlt. apply IH2. lia.
Qed.

Lemma tail_items_drop items n :
  _tail_items_by_rounds items n
  = drop (include_prompt items (scan_back items n (length items) 0)) items.
Proof.
  unfold _tail_items_by_rounds. destruct items; [now rewrite drop_nil|reflexivity].
Qed.

Lemma tail_items_by_rounds_max items n :
  _tail_items_by_rounds items n = _tail_items_by_rounds items (Z.max n 1).
Proof.
  destruct (Z.le_gt_cases n 1) as [Hle|Hgt].
  - rewrite Z.max_r by lia. now apply tail_items_by_rounds_nonpositive.
  - now rewrite Z.max_l by lia.
Qed.

(** What the tail looks like, for a positive number of rounds. *)
Lemma tail_items_shape items n :
  1 ≤ n →
  let tail := _tail_items_by_rounds items n in
  (Z.of_nat (assistant_turns items) < n ∧ tail = items)
  ∨ (n ≤ Z.of_nat (assistant_turns items)
     ∧ Z.of_nat (assistant_turns tail) = n
     ∧ ∃ pre, items = pre ++ tail
       ∧ ((∃ a rest, tail = a :: rest ∧ role a = "assistant"%string)
          ∨ (∃ u a rest, tail = u :: a :: rest
               ∧ role u = "user"%string ∧ role a = "assistant"%string))).
Proof.
  intros Hn. cbn zeta. rewrite tail_items_drop.
  destruct (scan_back_count items n (length items) 0) as [H1 H2]; [lia|lia|].
  rewrite firstn_all in H1, H2. rewrite Z.add_0_r in H1, H2.
  destruct (Z.lt_ge_cases (Z.of_nat (assistant_turns items)) n) as [Hfew|Hmany].
  - left. split; [exact Hfew|]. rewrite (H2 Hfew). reflexivity.
  - right. split; [exact Hmany|].
    destruct (H1 Hmany) as (Ha & Hi & Hc). rewrite Z.add_0_r in Hc.
    set (i := scan_back items n (length items) 0) in *.
    destruct (lookup_lt_is_Some_2 items i Hi) as [a Hia].
    assert (Hra : role a = "assistant"%string).
    { rewrite Hia in Ha. now apply String.eqb_eq in Ha. }
    assert (Hdi : drop i items = a :: drop (S i) items)
      by now apply drop_S.
    unfold include_prompt. rewrite Ha.
    destruct (0 <? i)%nat eqn:Hpos; cbn [andb].
    + destruct (has_role "user" (items !! (i - 1)%nat)) eqn:Hu.
      * apply Nat.ltb_lt in Hpos.
        destruct (items !! (i - 1)%nat) as [u|] eqn:Hiu; [|discriminate Hu].
        assert (Hdu : drop (i - 1) items = u :: drop i items).
        { replace i with (S (i - 1)) at 2 by lia. now apply drop_S. }
        rewrite Hdu. split.
        { change (u :: drop i items) with ([u] ++ drop i items).
          rewrite assistant_turns_app, assistant_turns_one.
          rewrite (user_is_not_assistant u Hu). simpl. exact Hc. }
        exists (take (i - 1) items). split.
        { rewrite <- Hdu. symmetry. apply take_drop. }
        right. exists u, a, (drop (S i) items). rewrite Hdi.
        split; [reflexivity|]. split; [|exact Hra].
        cbn [has_role] in Hu. now apply String.eqb_eq in Hu.
      * split; [exact Hc|]. exists (take i items).
        split; [symmetry; apply take_drop|]. left. eauto.
    + split; [exact Hc|]. exists (take i items).
      split; [symmetry; apply take_drop|]. left. eauto.
Qed.

(** The messages of a list of items keep its assistant turns. *)
Lemma assistant_messages_of inc l :
  assistant_messages
    (map (fun it => mkMessage (role it) (text it) None)
       (List.filter
          (fun it => negb (String.eqb (role it) "system" && negb inc)) l))
  = assistant_turns l.
Proof.
  unfold assistant_messages, assistant_turns.
  induction l as [|a l IH]; [reflexivity|]. cbn [List.filter].
  destruct (String.eqb_spec (role a) "system") as [Hs|Hs]; cbn [andb negb].
  - rewrite Hs. cbn [String.eqb Ascii.eqb Bool.eqb andb].
    destruct inc; cbn [negb map List.filter m_role]; [|exact IH].
    rewrite Hs. cbn [String.eqb Ascii.eqb Bool.eqb andb]. exact IH.
  - cbn [map List.filter m_role].
    destruct (String.eqb (role a) "assistant"); cbn [length]; now rewrite IH.
Qed.

Lemma no_system_messages l :
  Forall (fun m => m_role m ≠ "system"%string)
    (map (fun it => mkMessage (role it) (text it) None)
       (List.filter
          (fun it => negb (String.eqb (role it) "system" && negb false)) l)).
Proof.
  induction l as [|a l IH]; [constructor|]. cbn [List.filter].
  destruct (String.eqb_spec (role a) "system") as [Hs|Hs]; cbn [andb negb].
  - exact IH.
  - cbn [map]. constructor; [exact Hs|exact IH].
Qed.

Lemma filter_keeps_all l :
  List.filter (fun it => negb (String.eqb (role it) "system" && negb true)) l = l.
Proof.
  induction l as [|a l IH]; [reflexivity|]. cbn [List.filter].
  rewrite andb_false_r. cbn [negb]. f_equal. exact IH.
Qed.

Lemma assistant_turns_tail items n :
  assistant_turns (_tail_items_by_rounds items n)
  = Nat.min (Z.to_nat (Z.max n 1)) (assistant_turns items).
Proof.
  rewrite tail_items_by_rounds_max.
  destruct (tail_items_shape items (Z.max n 1)) as [[Hfew ->]|(Hmany & Hc & _)];
    lia.
Qed.

Lemma filter_system_messages l :
  map (fun it => mkMessage (role it) (text it) None)
    (List.filter
       (fun it => negb (String.eqb (role it) "system" && negb false)) l)
  = List.filter (fun m => negb (String.eqb (m_role m) "system"))
      (map (fun it => mkMessage (role it) (text it) None) l).
Proof.
  rewrite (List.filter_ext _ (fun it => negb (String.eqb (role it) "system")))
    by (intros a; now rewrite andb_true_r).
  induction l as [|a l IH]; [reflexivity|]. cbn [List.filter map m_role].
  destruct (String.eqb (role a) "system"); cbn [negb map];
    [exact IH|f_equal; exact IH].
Qed.

Lemma openai_messages_of_tail_parts items :
  Forall (fun m => m_role m ≠ "system"%string) (to_openai_messages false 8 items)
  ∧ assistant_messages (to_openai_messages false 8 items)
    = Nat.min 8 (assistant_turns items)
  ∧ Forall (fun m => m_image m = None) (to_openai_messages false 8 items).
Proof.
  unfold to_openai_messages. split; [apply no_system_messages|]. split.
  - rewrite assistant_messages_of. apply assistant_turns_tail.
  - apply Forall_map. apply Forall_forall. intros; reflexivity.
Qed.

End ConversationMore.

(** X18.  For every log and every number of rounds, the tail view is a
    suffix of the log that holds as many assistant turns as were asked for
    (one, when the number asked for is not positive), or all of them when
    the log has fewer; unless it is the whole log, it starts at an assistant
    turn or at the user turn right before one. *)
Theorem tail_holds_requested_rounds (items : ConversationStore) (n : Z) :
  let tail := _tail_items_by_rounds items n in
  (∃ pre, items = pre ++ tail)
  ∧ assistant_turns tail
    = Nat.min (Z.to_nat (Z.max n 1)) (assistant_turns items)
  ∧ (tail = items
     ∨ (∃ a rest, tail = a :: rest ∧ role a = "assistant"%string)
     ∨ (∃ u a rest, tail = u :: a :: rest
          ∧ role u = "user"%string ∧ role a = "assistant"%string)).
Proof.
  cbn zeta. split; [|split; [apply assistant_turns_tail|]].
  - rewrite tail_items_drop. eexists. symmetry. apply take_drop.
  - rewrite tail_items_by_rounds_max.
    destruct (tail_items_shape items (Z.max n 1))
      as [[_ ->]|(_ & _ & pre & _ & Hshape)]; [lia|now left|now right].
Qed.

(** X19.  [to_openai_messages] turns the tail view into messages in the
    order of the log, text only.  With [include_system] every item of the
    tail becomes a message; without it no message has the role [system],
    and only such items are left out, so that either way the messages hold
    the assistant turns of the tail: as many as were asked for, or all there
    are. *)
Theorem openai_messages_of_tail (items : ConversationStore) (n : Z) :
  to_openai_messages true n items
  = map (fun it => mkMessage (role it) (text it) None)
        (_tail_items_by_rounds items n)
  ∧ Forall (fun m => m_role m ≠ "system"%string)
           (to_openai_messages false n items)
  ∧ to_openai_messages false n items
    = List.filter (fun m => negb (String.eqb (m_role m) "system"))
        (to_openai_messages true n items)
  ∧ (∀ inc, assistant_messages (to_openai_messages inc n items)
            = Nat.min (Z.to_nat (Z.max n 1)) (assistant_turns items))
  ∧ (∀ inc, Forall (fun m => m_image m = None)
              (to_openai_messages inc n items)).
Proof.
  unfold to_openai_messages. split; [now rewrite filter_keeps_all|].
  split; [apply no_system_messages|]. split.
  - rewrite filter_keeps_all. apply filter_system_messages.
  - split.
    + intros inc. rewrite assistant_messages_of. apply assistant_turns_tail.
    + intros inc. apply Forall_map. apply Forall_forall. intros; reflexivity.
Qed.

(** X20.  The message list that the loop sends to the model: the system
    prompt first and nowhere else, then the tail of the conversation with at
    most 8 assistant turns (all of them when there are fewer), and last the
    current screen, the only message with an image. *)
Theorem model_prompt_shape (env : Loop.Env) (s : Loop.St) :
  ∃ middle,
    Loop.build_messages env s
    = mkMessage "system" (Loop.system s) None
      :: middle
      ++ [mkMessage "user" "Current screen. Decide next action."
            (Some ("data:image/jpeg;base64," +:+ Loop.send_b64 env))]
    ∧ Forall (fun m => m_role m ≠ "system"%string ∧ m_image m = None) middle
    ∧ assistant_messages middle
      = Nat.min 8 (assistant_turns (Loop.conversation s))
    ∧ assistant_messages (Loop.build_messages env s)
      = Nat.min 8 (assistant_turns (Loop.conversation s)).
Proof.
  exists (to_openai_messages false 8 (Loop.conversation s)).
  destruct (openai_messages_of_tail_parts (Loop.conversation s)) as (Hsys & Hn & Himg).
  split; [reflexivity|]. split; [|split; [exact Hn|]].
  - apply Forall_and. split; [exact Hsys|exact Himg].
  - unfold Loop.build_messages, assistant_messages in *.
    rewrite !List.filter_app, !length_app. rewrite Hn. simpl. lia.
Qed.

(** ** More on the loop *)

Section LoopMore.
Import Loop.
Local Open Scope loop_scope.

Lemma monitor_stop_eval cfg s :
  monitor_stop cfg s
  = Val tt (after s (control s) (hub s) (monitor_stopped cfg)).
Proof.
  unfold monitor_stop, monitor_stopped, after.
  destruct (auto_pause_on_user_input cfg); [reflexivity|].
  unfold ret. rewrite app_nil_r. now destruct s.
Qed.

Lemma hub_set_status_after env extra s :
  Hub.has_keyword "status" extra = false →
  hub_set_status env extra s
  = Val tt (after s (control s)
              (status_set (now env) (control s) extra (hub s))
              [status_event (control s) extra]).
Proof. apply hub_set_status_eval. Qed.

Lemma publish_after env type_ data s :
  publish env type_ data s
  = Val tt (after s (control s) (published (now env) type_ data (hub s))
              [EPublish type_ data]).
Proof. apply publish_eval. Qed.

(** The last statements of a run: the status goes to the hub, the input
    monitor is stopped, [run] returns. *)
Lemma finish_eval {A} cfg env extra s :
  Hub.has_keyword "status" extra = false →
  (hub_set_status env extra ;; monitor_stop cfg ;; @exit_ A Return) s
  = Exit Return
      (after s (control s) (status_set (now env) (control s) extra (hub s))
         (status_event (control s) extra :: monitor_stopped cfg)).
Proof.
  intros Hkw. unfold bind.
  rewrite hub_set_status_after by exact Hkw. rewrite monitor_stop_eval.
  unfold exit_, after. cbn [control hub conversation system step parse_err_streak trace].
  now rewrite <- app_assoc.
Qed.

Lemma on_stopped_eval {A} cfg env s :
  @on_stopped A cfg env s
  = Exit Return
      (after s (State.set_status USER_STOPPED (control s))
         (status_set (now env) (State.set_status USER_STOPPED (control s)) []
            (hub s))
         (status_event (State.set_status USER_STOPPED (control s)) []
          :: monitor_stopped cfg)).
Proof.
  unfold on_stopped. unfold bind at 1. unfold ctl at 1.
  rewrite (finish_eval (A:=A)) by reflexivity. reflexivity.
Qed.


Lemma after_nil s : after s (control s) (hub s) [] = s.
Proof. unfold after. rewrite app_nil_r. now destruct s. Qed.

Lemma after_after s c1 h1 t1 c2 h2 t2 :
  after (after s c1 h1 t1) c2 h2 t2 = after s c2 h2 (t1 ++ t2).
Proof. unfold after. cbn. now rewrite app_assoc. Qed.

(** A worker that is not paused passes the gate at once. *)
Lemma pause_gate_open cfg env wk s :
  paused (control s) = false → pause_gate cfg env wk s = Val tt s.
Proof.
  intros H. destruct wk; cbn [pause_gate]; unfold bind, get; now rewrite H.
Qed.

Lemma pause_gate_step cfg env ops rest s :
  paused (control s) = true →
  pause_gate cfg env (ops :: rest) s
  = let s1 := after s (State.apply_all ops (control s)) (hub s) [ESleep 200] in
    if stopped (control s1) then on_stopped cfg env s1
    else pause_gate cfg env rest s1.
Proof.
  intros Hp. cbn [pause_gate]. unfold bind, get, emit, ctl. rewrite Hp.
  cbn [control hub conversation system step parse_err_streak trace after].
  destruct (stopped (State.apply_all ops (control s))); reflexivity.
Qed.

(** The pause gate, case by case: it sleeps until the worker is resumed or
    stopped, and makes no other call. *)
Lemma pause_gate_cases cfg env wk : ∀ s,
  stopped (control s) = false →
  ∃ k, (k ≤ length wk)%nat ∧
    let c := State.apply_all (concat (take k wk)) (control s) in
    let t := replicate k (ESleep 200) in
    (pause_gate cfg env wk s = Val tt (after s c (hub s) t)
       ∧ paused c = false ∧ stopped c = false)
    ∨ (pause_gate cfg env wk s = Exit Blocked (after s c (hub s) t)
       ∧ k = length wk ∧ paused c = true ∧ stopped c = false)
    ∨ (pause_gate cfg env wk s
       = Exit Return
           (after s (State.set_status USER_STOPPED c)
              (status_set (now env) (State.set_status USER_STOPPED c) [] (hub s))
              (t ++ status_event (State.set_status USER_STOPPED c) []
                    :: monitor_stopped cfg))
       ∧ stopped c = true ∧ (0 < k)%nat).
Proof.
  induction wk as [|ops rest IH]; intros s Hs.
  - exists 0%nat. split; [reflexivity|]. cbn [take concat replicate].
    change (State.apply_all [] (control s)) with (control s).
    rewrite after_nil. cbn [pause_gate]. unfold bind, get.
    destruct (paused (control s)) eqn:Hp; [right; left|left]; auto.
  - destruct (paused (control s)) eqn:Hp.
    2:{ exists 0%nat. split; [lia|]. cbn [take concat replicate].
        change (State.apply_all [] (control s)) with (control s).
        rewrite after_nil, pause_gate_open by exact Hp. left. auto. }
    rewrite (pause_gate_step cfg env ops rest s Hp). cbn zeta.
    set (s1 := after s (State.apply_all ops (control s)) (hub s) [ESleep 200]).
    change (control s1) with (State.apply_all ops (control s)).
    destruct (stopped (State.apply_all ops (control s))) eqn:Hst.
    + exists 1%nat. split; [simpl; lia|]. cbn [take concat replicate].
      rewrite app_nil_r. right. right.
      rewrite on_stopped_eval. unfold s1. rewrite after_after.
      cbn [control hub after]. auto with lia.
    + destruct (IH s1 Hst) as (k & Hk & Hcases).
      exists (S k). split; [simpl; lia|]. cbn [take concat replicate].
      rewrite apply_all_app.
      cbn zeta in Hcases. unfold s1 in Hcases at 2 4 6 8 10.
      cbn [control hub after] in Hcases.
      destruct Hcases as [(Hr & H1 & H2)|[(Hr & H1 & H2 & H3)|(Hr & H1 & H2)]];
        rewrite Hr; unfold s1; rewrite after_after; cbn [hub after].
      * left. auto.
      * right. left. cbn [length]. auto.
      * right. right. split; [reflexivity|]. split; [exact H1|lia].
Qed.

Lemma set_status_USER_STOPPED c :
  status (State.set_status USER_STOPPED c) = USER_STOPPED
  ∧ stopped (State.set_status USER_STOPPED c) = stopped c
  ∧ paused (State.set_status USER_STOPPED c) = paused c
  ∧ injected (State.set_status USER_STOPPED c) = injected c.
Proof.
  destruct c as [st p sp inj]. unfold State.set_status.
  cbn [status stopped paused injected]. destruct sp, p; auto.
Qed.

(** The statements of [approach], one after the other. *)
Lemma approach_phases cfg env s :
  approach cfg env s
  = let c0 := State.apply_all (arrivals env) (control s) in
    let s1 := after s c0 (hub s) [] in
    if stopped c0 then on_stopped cfg env s1
    else
      match pause_gate cfg env (wakeups env) s1 with
      | Val _ s2 =>
          bind (take_guidance env (fst (pop_injected (control s2))))
            (fun _ => count_step cfg env (step s2 + 1))
            (after s2 (snd (pop_injected (control s2))) (hub s2) [])
      | Exn e s2 => Exn e s2
      | Exit k s2 => Exit k s2
      end.
Proof.
  cbn zeta.
  assert (Hs1 : ∀ c, after s c (hub s) []
                     = mkSt c (hub s) (conversation s) (system s) (step s)
                         (parse_err_streak s) (trace s)).
  { intros c. unfold after. now rewrite app_nil_r. }
  rewrite Hs1. unfold approach.
  unfold bind at 1, ctl at 1. unfold bind at 1, get at 1. cbn [control].
  unfold bind at 1.
  destruct (stopped (State.apply_all (arrivals env) (control s))).
  { now rewrite !(on_stopped_eval (A:=unit)). }
  unfold ret at 1. unfold bind at 1.
  destruct (pause_gate cfg env (wakeups env) _) as [[] s2|e s2|k s2];
    [|reflexivity..].
  unfold bind at 1, get at 1. unfold bind at 1, ctl at 1.
  assert (Hs2 : after s2 (snd (pop_injected (control s2))) (hub s2) []
                = mkSt (snd (pop_injected (control s2))) (hub s2)
                    (conversation s2) (system s2) (step s2)
                    (parse_err_streak s2) (trace s2)).
  { unfold after. now rewrite app_nil_r. }
  rewrite Hs2. reflexivity.
Qed.

Lemma apply_all_cons o ops c :
  State.apply_all (o :: ops) c = State.apply_all ops (State.apply o c).
Proof. reflexivity. Qed.

Lemma apply_all_stays_paused ops : ∀ c,
  Resume ∉ ops → paused c = true → paused (State.apply_all ops c) = true.
Proof.
  induction ops as [|o ops IH]; intros c Hno Hp; [exact Hp|].
  apply not_elem_of_cons in Hno as [Ho Hno]. rewrite apply_all_cons.
  apply IH; [exact Hno|].
  destruct c as [st p sp inj]. cbn [paused] in Hp. subst p.
  destruct o; try reflexivity; [congruence| |].
  - unfold State.apply, State.set_status. cbn [stopped paused].
    destruct sp; [reflexivity|]. now destruct (true && StatusEnum_eqb s RUNNING).
  - unfold State.apply, pop_injected. cbn [injected]. now destruct inj.
Qed.

Lemma apply_all_stays_unstopped ops : ∀ c,
  Stop ∉ ops → stopped c = false → stopped (State.apply_all ops c) = false.
Proof.
  induction ops as [|o ops IH]; intros c Hno Hp; [exact Hp|].
  apply not_elem_of_cons in Hno as [Ho Hno]. rewrite apply_all_cons.
  apply IH; [exact Hno|].
  destruct c as [st p sp inj]. cbn [stopped] in Hp. subst sp.
  destruct o; try reflexivity; [congruence| |].
  - unfold State.apply, State.set_status. cbn [stopped paused].
    now destruct (p && StatusEnum_eqb s RUNNING).
  - unfold State.apply, pop_injected. cbn [injected]. now destruct inj.
Qed.

(** Neither resumed nor stopped, the worker stays in the gate. *)
Lemma pause_gate_blocked cfg env wk : ∀ s,
  paused (control s) = true → stopped (control s) = false →
  Forall (fun ops => (Resume ∉ ops) ∧ (Stop ∉ ops)) wk →
  pause_gate cfg env wk s
  = Exit Blocked
      (after s (State.apply_all (concat wk) (control s)) (hub s)
         (replicate (length wk) (ESleep 200))).
Proof.
  induction wk as [|ops rest IH]; intros s Hp Hs Hall.
  - cbn [concat length replicate].
    change (State.apply_all [] (control s)) with (control s).
    rewrite after_nil. cbn [pause_gate]. unfold bind, get. now rewrite Hp.
  - apply Forall_cons in Hall as [[Hr Hst] Hall].
    rewrite (pause_gate_step cfg env ops rest s Hp). cbn zeta.
    set (s1 := after s (State.apply_all ops (control s)) (hub s) [ESleep 200]).
    change (control s1) with (State.apply_all ops (control s)).
    rewrite (apply_all_stays_unstopped ops _ Hst Hs).
    rewrite IH; [|now apply apply_all_stays_paused
                 |now apply apply_all_stays_unstopped|exact Hall].
    unfold s1. rewrite after_after. cbn [control hub after concat length replicate].
    now rewrite apply_all_app.
Qed.

Lemma take_guidance_eval env o s :
  take_guidance env o s
  = match o with
    | Some t =>
        if String.eqb t "" then Val tt s
        else
          let said :=
            mkSt (control s) (hub s)
              (conversation s
               ++ [mkItem "user" (guidance t) (now env)
                     [("injected"%string, VBool true)]])
              (system s) (step s) (parse_err_streak s)
              (trace s ++ [ERecorder (LogConversation "user" (guidance t) true)]) in
          match recorder env (LogConversation "user" (guidance t) true) with
          | Returns _ =>
              Val tt
                (after said (control s)
                   (published (now env) "conversation"
                      [("role", VStr "user"); ("text", VStr (guidance t))]%string
                      (hub s))
                   [EPublish "conversation"
                      [("role", VStr "user"); ("text", VStr (guidance t))]%string])
          | Raises e => Exn e said
          end
    | None => Val tt s
    end.
Proof.
  destruct o as [t|]; [|reflexivity]. unfold take_guidance.
  destruct (String.eqb t ""); [reflexivity|]. cbn zeta.
  unfold bind at 1, conversation_add, bind at 1, get, set_conversation,
    Conversation.add.
  unfold bind at 1, rec, call, bind at 1, emit.
  cbn [control hub conversation system step parse_err_streak trace].
  destruct (recorder env (LogConversation "user" (guidance t) true));
    [|reflexivity].
  unfold ret, _publish_conv. now rewrite publish_after.
Qed.

Lemma count_step_eval cfg env n s :
  count_step cfg env n s
  = let counted :=
      mkSt (control s) (hub s) (conversation s) (system s) n
        (parse_err_streak s) (trace s) in
    if n >? max_loop_count cfg then
      Exit Return
        (after counted (State.set_status ERROR (control s))
           (status_set (now env) (State.set_status ERROR (control s))
              [("error", VStr "max_loop_count")]%string (hub s))
           (status_event (State.set_status ERROR (control s))
              [("error", VStr "max_loop_count")]%string
            :: monitor_stopped cfg))
    else Val tt counted.
Proof.
  unfold count_step. unfold bind at 1, set_step. cbn zeta.
  destruct (n >? max_loop_count cfg); [|reflexivity].
  unfold bind at 1, ctl. rewrite (finish_eval (A:=unit)) by reflexivity.
  reflexivity.
Qed.

Lemma pop_injected_flags c :
  stopped (snd (pop_injected c)) = stopped c
  ∧ paused (snd (pop_injected c)) = paused c
  ∧ status (snd (pop_injected c)) = status c.
Proof. unfold pop_injected. now destruct (injected c). Qed.

(** A pass that gets past [approach]: the worker is neither stopped nor
    paused, and the pass has its number, within the budget. *)
Lemma approach_Val cfg env s s0 :
  approach cfg env s = Val tt s0 →
  stopped (control s0) = false ∧ paused (control s0) = false
  ∧ step s0 = step s + 1 ∧ step s + 1 ≤ max_loop_count cfg
  ∧ system s0 = system s.
Proof.
  rewrite approach_phases. cbn zeta.
  destruct (stopped (State.apply_all (arrivals env) (control s))) eqn:Hst;
    [now rewrite on_stopped_eval|].
  set (s1 := after s (State.apply_all (arrivals env) (control s)) (hub s) []).
  destruct (pause_gate_cases cfg env (wakeups env) s1 Hst) as (k & _ & Hcases).
  cbn zeta in Hcases.
  destruct Hcases as [(Hr & Hp & Hs)|[(Hr & _)|(Hr & _)]]; rewrite Hr;
    [|discriminate..].
  unfold bind. rewrite take_guidance_eval.
  set (s2 := after s1 _ _ _).
  assert (Hflags := pop_injected_flags (control s2)).
  assert (Hs2 : stopped (control s2) = false ∧ paused (control s2) = false
                ∧ step s2 = step s ∧ system s2 = system s) by now unfold s2.
  destruct Hs2 as (Hs2 & Hp2 & Hstep & Hsys).
  destruct Hflags as (Hf1 & Hf2 & _). rewrite Hs2 in Hf1. rewrite Hp2 in Hf2.
  assert (Hcount : ∀ s3,
            control s3 = snd (pop_injected (control s2)) →
            step s3 = step s2 → system s3 = system s2 →
            count_step cfg env (step s2 + 1) s3 = Val tt s0 →
            stopped (control s0) = false ∧ paused (control s0) = false
            ∧ step s0 = step s + 1 ∧ step s + 1 ≤ max_loop_count cfg
            ∧ system s0 = system s).
  { intros s3 Hc3 Hst3 Hsy3. rewrite count_step_eval. cbn zeta.
    destruct (step s2 + 1 >? max_loop_count cfg) eqn:Hgt; [discriminate|].
    intros [= <-]. cbn [control step system]. rewrite Hc3.
    rewrite Z.gtb_ltb in Hgt. apply Z.ltb_ge in Hgt.
    repeat split; try assumption; lia. }
  destruct (fst (pop_injected (control s2))) as [t|].
  - destruct (String.eqb t ""); [now apply Hcount|]. cbn zeta.
    destruct (recorder env _); [|discriminate]. now apply Hcount.
  - now apply Hcount.
Qed.

(** A worker that is neither stopped nor paused goes straight to the
    guidance and the step count. *)
Lemma approach_open cfg env s :
  stopped (State.apply_all (arrivals env) (control s)) = false →
  paused (State.apply_all (arrivals env) (control s)) = false →
  approach cfg env s
  = bind (take_guidance env
            (fst (pop_injected (State.apply_all (arrivals env) (control s)))))
      (fun _ => count_step cfg env (step s + 1))
      (after s (snd (pop_injected (State.apply_all (arrivals env) (control s))))
         (hub s) []).
Proof.
  intros Hst Hp. rewrite approach_phases. cbn zeta. rewrite Hst.
  rewrite pause_gate_open by exact Hp.
  cbn [control step hub]. now rewrite after_after.
Qed.

Lemma set_status_ERROR c :
  stopped c = false →
  State.set_status ERROR c = mkControl ERROR (paused c) false (injected c).
Proof.
  intros Hs. unfold State.set_status. rewrite Hs.
  now destruct (paused c).
Qed.

Lemma quiet_publish t d : no_model_call (EPublish t d).
Proof. exact I. Qed.
Lemma quiet_recorder c : no_model_call (ERecorder c).
Proof. exact I. Qed.
Lemma quiet_monitor_stop : no_model_call EMonitorStop.
Proof. exact I. Qed.
Lemma quiet_sleep ms : no_model_call (ESleep ms).
Proof. exact I. Qed.

Lemma quiet_approach cfg env : keeps no_model_call (approach cfg env).
Proof.
  unfold approach.
  pose proof quiet_publish. pose proof quiet_recorder.
  pose proof quiet_monitor_stop. pose proof quiet_sleep.
  keeps_steps.
Qed.

Lemma quiet_take_screenshot env : keeps no_model_call (take_screenshot env).
Proof.
  unfold take_screenshot.
  pose proof quiet_publish. pose proof quiet_recorder.
  pose proof quiet_monitor_stop. pose proof quiet_sleep.
  keeps_steps.
Qed.

Lemma quiet_read_reply env n : keeps no_model_call (read_reply env n).
Proof.
  unfold read_reply.
  pose proof quiet_publish. pose proof quiet_recorder.
  pose proof quiet_monitor_stop. pose proof quiet_sleep.
  keeps_steps.
Qed.

Lemma quiet_act cfg env pred : keeps no_model_call (act cfg env pred).
Proof.
  unfold act.
  pose proof quiet_publish. pose proof quiet_recorder.
  pose proof quiet_monitor_stop. pose proof quiet_sleep.
  keeps_steps.
Qed.

Lemma quiet_on_exception cfg env e : keeps no_model_call (on_exception cfg env e).
Proof.
  unfold on_exception.
  pose proof quiet_publish. pose proof quiet_recorder.
  pose proof quiet_monitor_stop. pose proof quiet_sleep.
  keeps_steps.
Qed.

Lemma quiet_count_parse_error env pred s :
  adds no_model_call s (state_of (count_parse_error env pred s)).
Proof.
  destruct (String.eqb_spec (action_type pred) "error_env") as [Hty|Hty].
  - destruct (Z.le_gt_cases 3 (parse_err_streak s + 1)) as [Hge|Hlt].
    + destruct (count_parse_error_hang env pred s Hty Hge)
        as (s' & -> & _ & _ & Htr).
      eexists. split; [exact Htr|]. repeat constructor.
    + destruct (count_parse_error_below env pred s Hty Hlt)
        as (s' & -> & _ & Htr).
      eexists. split; [exact Htr|]. repeat constructor.
  - destruct (count_parse_error_other env pred s Hty) as (s' & -> & _ & Htr).
    exists []. split; [rewrite app_nil_r; exact Htr|constructor].
Qed.

Lemma quiet_handled cfg env (r : Res unit) :
  adds no_model_call (state_of r) (state_of (handled cfg env r)).
Proof.
  destruct r as [a s'|e s'|k s']; simpl;
    [apply adds_refl|apply quiet_on_exception|apply adds_refl].
Qed.

(** After the model call, a pass makes no second one. *)
Lemma quiet_rest cfg env n s :
  adds no_model_call s
    (state_of (handled cfg env (bind (read_reply env n) (dispatch cfg env) s))).
Proof.
  eapply adds_trans; [apply quiet_read_reply|].
  eapply adds_trans; [|apply quiet_handled].
  apply adds_bind_tail. intros pred s'. unfold dispatch.
  eapply adds_trans; [apply quiet_count_parse_error|].
  apply adds_bind_tail. intros _ s''. apply quiet_act.
Qed.

Lemma quiet_trace s s' msgs :
  adds no_model_call s s' → EInvokeModel msgs ∈ trace s' →
  EInvokeModel msgs ∈ trace s.
Proof.
  intros (t & -> & Hall) Hin. apply elem_of_app in Hin as [Hin|Hin]; [exact Hin|].
  rewrite Forall_forall in Hall. destruct (Hall _ Hin).
Qed.

(** The capture and its record, case by case. *)
Lemma take_screenshot_cases env s :
  (∃ shot, capture env = Returns shot
     ∧ recorder env (WriteStep (step s) "screenshot") = Returns tt
     ∧ take_screenshot env s
       = Val tt (after s (control s) (hub s)
                   [ECapture; ERecorder (WriteStep (step s) "screenshot")]))
  ∨ (∃ e s', take_screenshot env s = Exn e s'
       ∧ (capture env = Raises e
          ∨ recorder env (WriteStep (step s) "screenshot") = Raises e)).
Proof.
  unfold take_screenshot, rec, call, bind, emit, get, ret, raise, after.
  destruct (capture env) as [shot|e]; [|right; eauto].
  cbn [control hub conversation system step parse_err_streak trace].
  destruct (recorder env (WriteStep (step s) "screenshot")) as [[]|e];
    [left|right; eauto].
  exists shot. rewrite <- app_assoc. auto.
Qed.

Lemma pop_injected_cons c t rest :
  injected c = t :: rest →
  pop_injected c = (Some t, mkControl (status c) (paused c) (stopped c) rest).
Proof. unfold pop_injected. now intros ->. Qed.

Lemma pop_injected_nil c : injected c = [] → pop_injected c = (None, c).
Proof. unfold pop_injected. now intros ->. Qed.

(** The [except] clause, call by call. *)
Lemma on_exception_eval cfg env e s :
  on_exception cfg env e s
  = let c := State.set_status ERROR (control s) in
    let extra := [("error", VStr e); ("step", VInt (step s))]%string in
    let data :=
      [("where", VStr "loop"); ("error", VStr e); ("step", VInt (step s))]%string in
    let hb := published (now env) "error" data
                (status_set (now env) c extra (hub s)) in
    let t := [status_event c extra; EPublish "error" data;
              ERecorder (LogEvent "error")] in
    match recorder env (LogEvent "error") with
    | Returns _ => Exit Return (after s c hb (t ++ monitor_stopped cfg))
    | Raises e' => Exn e' (after s c hb t)
    end.
Proof.
  unfold on_exception. unfold bind at 1, ctl at 1. unfold bind at 1, get at 1.
  unfold bind at 1. rewrite hub_set_status_after by reflexivity.
  unfold bind at 1. rewrite publish_after.
  unfold bind at 1, rec, call, bind at 1, emit.
  cbn [control hub conversation system step parse_err_streak trace after].
  cbn zeta.
  destruct (recorder env (LogEvent "error")) as [[]|e'].
  - unfold ret, bind. rewrite monitor_stop_eval. unfold exit_, after.
    cbn [control hub conversation system step parse_err_streak trace].
    now rewrite <- !app_assoc.
  - unfold raise, after. now rewrite <- !app_assoc.
Qed.

(** Parking the run: [HANG], paused, the status and a [hang] event out, and
    on to the next pass, which will wait in the gate. *)
Lemma park_eval {A} env extra data s :
  Hub.has_keyword "status" extra = false →
  (ctl (State.set_status HANG) ;; ctl State.pause ;;
   hub_set_status env extra ;; publish env "hang" data ;; @exit_ A Continue) s
  = let c := State.pause (State.set_status HANG (control s)) in
    Exit Continue
      (after s c
         (published (now env) "hang" data (status_set (now env) c extra (hub s)))
         [status_event c extra; EPublish "hang" data]).
Proof.
  intros Hkw. unfold bind at 1, ctl at 1. unfold bind at 1, ctl at 1.
  unfold bind at 1. rewrite hub_set_status_after by exact Hkw.
  unfold bind at 1. rewrite publish_after.
  unfold exit_, after.
  cbn [control hub conversation system step parse_err_streak trace].
  now rewrite <- app_assoc.
Qed.

Lemma end_eval {A} cfg env st s :
  (ctl (State.set_status st) ;; hub_set_status env [] ;; monitor_stop cfg ;;
   @exit_ A Return) s
  = let c := State.set_status st (control s) in
    Exit Return
      (after s c (status_set (now env) c [] (hub s))
         (status_event c [] :: monitor_stopped cfg)).
Proof.
  unfold bind at 1, ctl at 1. rewrite (finish_eval (A:=A)) by reflexivity.
  reflexivity.
Qed.

Lemma park_control c :
  paused (State.pause (State.set_status HANG c)) = true
  ∧ (stopped c = false → status (State.pause (State.set_status HANG c)) = HANG).
Proof.
  split; [reflexivity|]. intros Hs. unfold State.set_status. rewrite Hs.
  now destruct (paused c).
Qed.

Lemma set_status_final st c :
  stopped c = false → st ≠ RUNNING → status (State.set_status st c) = st.
Proof.
  intros Hs Hst. unfold State.set_status. rewrite Hs.
  destruct (paused c); [|reflexivity]. now destruct st.
Qed.

Lemma act_finished cfg env pred s :
  action_type pred = "finished"%string →
  act cfg env pred s
  = if hang_on_finished cfg then
      (ctl (State.set_status HANG) ;; ctl State.pause ;;
       hub_set_status env [] ;;
       publish env "hang" [("reason", VStr "finished")]%string ;;
       exit_ Continue) s
    else
      (ctl (State.set_status END) ;; hub_set_status env [] ;;
       monitor_stop cfg ;; exit_ Return) s.
Proof.
  intros Hty. unfold act. rewrite Hty.
  change (String.eqb "finished" "finished") with true. cbv iota.
  unfold bind at 1.
  destruct (hang_on_finished cfg).
  - now rewrite !(park_eval (A:=unit)) by reflexivity.
  - now rewrite !(end_eval (A:=unit)).
Qed.

Lemma act_call_user cfg env pred s :
  action_type pred = "call_user"%string →
  act cfg env pred s
  = if hang_on_call_user cfg then
      (ctl (State.set_status HANG) ;; ctl State.pause ;;
       hub_set_status env [] ;;
       publish env "hang" [("reason", VStr "call_user")]%string ;;
       exit_ Continue) s
    else
      (ctl (State.set_status CALL_USER) ;; hub_set_status env [] ;;
       monitor_stop cfg ;; exit_ Return) s.
Proof.
  intros Hty. unfold act. rewrite Hty.
  change (String.eqb "call_user" "finished") with false.
  change (String.eqb "call_user" "call_user") with true. cbv iota.
  unfold bind at 1, ret at 1. unfold bind at 1.
  destruct (hang_on_call_user cfg).
  - now rewrite !(park_eval (A:=unit)) by reflexivity.
  - now rewrite !(end_eval (A:=unit)).
Qed.

Lemma monitor_start_eval cfg s :
  (if auto_pause_on_user_input cfg then emit EMonitorStart else ret tt) s
  = Val tt (after s (control s) (hub s) (monitor_started cfg)).
Proof.
  unfold monitor_started, after.
  destruct (auto_pause_on_user_input cfg); [reflexivity|].
  unfold ret. rewrite app_nil_r. now destruct s.
Qed.

Lemma launch_failed_eval {A} cfg env e s :
  (ctl (State.set_status ERROR) ;;
   hub_set_status env [("error", VStr e)]%string ;;
   publish env "error" [("where", VStr "launch_app"); ("error", VStr e)]%string ;;
   monitor_stop cfg ;;
   @exit_ A Return) s
  = let c := State.set_status ERROR (control s) in
    Exit Return
      (after s c
         (published (now env) "error"
            [("where", VStr "launch_app"); ("error", VStr e)]%string
            (status_set (now env) c [("error", VStr e)]%string (hub s)))
         ([status_event c [("error", VStr e)]%string;
           EPublish "error"
             [("where", VStr "launch_app"); ("error", VStr e)]%string]
          ++ monitor_stopped cfg)).
Proof.
  unfold bind at 1, ctl at 1.
  unfold bind at 1. rewrite hub_set_status_after by reflexivity.
  unfold bind at 1. rewrite publish_after.
  unfold bind at 1. rewrite monitor_stop_eval.
  unfold exit_. rewrite !after_after. reflexivity.
Qed.

(** The statements of [run] up to the call that launches the app, and what
    follows a failure of that call. *)
Lemma prologue_launch cfg env launch instruction s :
  prologue cfg env launch instruction s
  = let c := State.set_status RUNNING (control s) in
    let s1 := after s c (status_set (now env) c [] (hub s))
                ([status_event c []] ++ monitor_started cfg ++ [ELaunchApp]) in
    match launch with
    | Returns _ =>
        (s <- get ;;
         conversation_add env "system" (system s) [] ;;
         rec env (LogConversation "system" (system s) false) ;;
         conversation_add env "user" instruction [] ;;
         rec env (LogConversation "user" instruction false) ;;
         _publish_conv env "user" instruction ;;
         set_step 0 ;;
         set_streak 0) s1
    | Raises e =>
        let c' := State.set_status ERROR c in
        Exit Return
          (after s1 c'
             (published (now env) "error"
                [("where", VStr "launch_app"); ("error", VStr e)]%string
                (status_set (now env) c' [("error", VStr e)]%string (hub s1)))
             ([status_event c' [("error", VStr e)]%string;
               EPublish "error"
                 [("where", VStr "launch_app"); ("error", VStr e)]%string]
              ++ monitor_stopped cfg))
    end.
Proof.
  unfold prologue. unfold bind at 1, ctl at 1.
  unfold bind at 1. rewrite hub_set_status_after by reflexivity.
  unfold bind at 1. rewrite monitor_start_eval.
  unfold bind at 1, emit at 1. rewrite !after_after.
  cbn [control hub conversation system step parse_err_streak trace after].
  cbn zeta. unfold bind at 1.
  assert (Hs1 : ∀ c hb t,
            mkSt c hb (conversation s) (system s) (step s) (parse_err_streak s)
              ((trace s ++ t) ++ [ELaunchApp])
            = after s c hb (t ++ [ELaunchApp])).
  { intros. unfold after. now rewrite <- app_assoc. }
  rewrite Hs1.
  destruct launch as [[]|e]; [reflexivity|].
  now rewrite (launch_failed_eval (A:=unit)).
Qed.

End LoopMore.

(** X21.  A pass that finds the run stopped when it begins ends the run at
    once: the control object and the hub show [USER_STOPPED], that status is
    published, the input monitor is stopped, and nothing else happens: no
    screen capture, no model call, no action, no change of the conversation
    or of the step count. *)
Theorem stop_preempts_pass (cfg : Loop.Config) (env : Loop.Env) (s : Loop.St) :
  stopped (State.apply_all (Loop.arrivals env) (Loop.control s)) = true →
  ∃ s',
    Loop.run_cycle cfg env s = Loop.Exit Loop.Return s'
    ∧ status (Loop.control s') = USER_STOPPED
    ∧ get_status (Loop.hub s') = [("status"%string, VStatus USER_STOPPED)]
    ∧ Loop.trace s'
      = Loop.EPublish "status" [("status"%string, VStatus USER_STOPPED)]
        :: monitor_stopped cfg
    ∧ Loop.conversation s' = Loop.conversation s
    ∧ Loop.step s' = Loop.step s.
Proof.
  intros Hst. unfold Loop.run_cycle, Loop.observe.
  unfold Loop.bind at 1. unfold Loop.bind at 1.
  rewrite approach_phases. cbn zeta.
  change (Loop.control (Loop.clear_trace s)) with (Loop.control s).
  rewrite Hst, on_stopped_eval. cbn [Loop.handled].
  eexists. split; [reflexivity|].
  destruct (set_status_USER_STOPPED
              (State.apply_all (Loop.arrivals env) (Loop.control s)))
    as (Hu & _).
  unfold after, status_set, status_event, published, get_status.
  cbn [Loop.control Loop.hub Loop.conversation Loop.step Loop.trace
       Loop.clear_trace _last_status app].
  rewrite Hu. repeat split; reflexivity.
Qed.

Lemma stop_preempts_pass_witness :
  ∃ s',
    Loop.run_cycle sample_cfg
      (Loop.mkEnv 0 [Stop] [] (Returns (Loop.mkShot "img" 1170 2532)) "img" []
         (Returns (Loop.mkInvoke "reply" [click] 10)) (Returns tt) (Returns [])
         (fun _ => Returns tt))
      (sample_state 0)
    = Loop.Exit Loop.Return s'
    ∧ Loop.trace s'
      = [Loop.EPublish "status" [("status"%string, VStatus USER_STOPPED)];
         Loop.EMonitorStop].
Proof.
  destruct (stop_preempts_pass sample_cfg
              (Loop.mkEnv 0 [Stop] [] (Returns (Loop.mkShot "img" 1170 2532))
                 "img" [] (Returns (Loop.mkInvoke "reply" [click] 10))
                 (Returns tt) (Returns []) (fun _ => Returns tt))
              (sample_state 0) eq_refl)
    as (s' & Hr & _ & _ & Ht & _).
  exists s'. split; [exact Hr|exact Ht].
Defined.


(** X22.  The pause gate.  A worker that is paused and not stopped sleeps
    0.2 s at a time and makes no other call until the supervisor's calls
    during one of the sleeps resume it, and then it goes on, or stop it, and
    then the run ends as [USER_STOPPED] with that status published and the
    input monitor stopped.  With no [resume] and no [stop] it stays in the
    gate.  The conversation, the step count and the hub's queues are as
    they were, except for that last status. *)
Theorem paused_worker_only_sleeps (cfg : Loop.Config) (env : Loop.Env)
    (wk : list (list State.op)) (s : Loop.St)
    (Hs : stopped (Loop.control s) = false) :
  (∃ k, (k ≤ length wk)%nat ∧
     let c := State.apply_all (concat (take k wk)) (Loop.control s) in
     let t := replicate k (Loop.ESleep 200) in
     (Loop.pause_gate cfg env wk s = Loop.Val tt (after s c (Loop.hub s) t)
        ∧ paused c = false ∧ stopped c = false)
     ∨ (Loop.pause_gate cfg env wk s
          = Loop.Exit Loop.Blocked (after s c (Loop.hub s) t)
        ∧ k = length wk ∧ paused c = true ∧ stopped c = false)
     ∨ (Loop.pause_gate cfg env wk s
        = Loop.Exit Loop.Return
            (after s (State.set_status USER_STOPPED c)
               (status_set (Loop.now env) (State.set_status USER_STOPPED c) []
                  (Loop.hub s))
               (t ++ status_event (State.set_status USER_STOPPED c) []
                     :: monitor_stopped cfg))
        ∧ stopped c = true ∧ (0 < k)%nat
        ∧ status (State.set_status USER_STOPPED c) = USER_STOPPED))
  ∧ (paused (Loop.control s) = true →
     Forall (fun ops => (Resume ∉ ops) ∧ (Stop ∉ ops)) wk →
     Loop.pause_gate cfg env wk s
     = Loop.Exit Loop.Blocked
         (after s (State.apply_all (concat wk) (Loop.control s)) (Loop.hub s)
            (replicate (length wk) (Loop.ESleep 200)))).
Proof.
  split.
  - destruct (pause_gate_cases cfg env wk s Hs) as (k & Hk & Hcases).
    exists k. split; [exact Hk|]. cbn zeta in *.
    destruct Hcases as [H|[H|(Hr & H1 & H2)]]; [now left|now right; left|].
    right. right. split; [exact Hr|]. split; [exact H1|]. split; [exact H2|].
    apply set_status_USER_STOPPED.
  - intros Hp Hall. now apply pause_gate_blocked.
Qed.

(** A paused worker that gets guidance during its first sleep and nothing
    during its second. *)
Lemma paused_worker_only_sleeps_witness :
  Loop.pause_gate sample_cfg (sample_env click) [[Inject "go"]; []]
    (Loop.mkSt (mkControl PAUSE true false []) new_hub [] "sys" 0 0 [])
  = Loop.Exit Loop.Blocked
      (Loop.mkSt (mkControl PAUSE true false ["go"%string]) new_hub [] "sys" 0 0
         [Loop.ESleep 200; Loop.ESleep 200]).
Proof.
  refine (proj2 (paused_worker_only_sleeps sample_cfg (sample_env click)
                   [[Inject "go"]; []]
                   (Loop.mkSt (mkControl PAUSE true false []) new_hub [] "sys"
                      0 0 [])
                   eq_refl) eq_refl _).
  repeat constructor; intros H; apply list_elem_of_In in H; simpl in H;
    intuition discriminate.
Defined.

(** X23.  The model is called only in a pass in which the worker, after the
    supervisor's calls and the pause gate, is neither stopped nor paused,
    whose number is within [max_loop_count], and whose screen capture and
    screenshot record succeeded; and every model call of the pass carries
    the messages built from the conversation as it is at that point. *)
Theorem model_call_conditions (cfg : Loop.Config) (env : Loop.Env)
    (s : Loop.St) (msgs : list Message) :
  Loop.EInvokeModel msgs
    ∈ Loop.trace (Loop.state_of (Loop.run_cycle cfg env s)) →
  ∃ s0 shot,
    Loop.approach cfg env (Loop.clear_trace s) = Loop.Val tt s0
    ∧ stopped (Loop.control s0) = false
    ∧ paused (Loop.control s0) = false
    ∧ Loop.step s0 = Loop.step s + 1
    ∧ Loop.step s + 1 ≤ Loop.max_loop_count cfg
    ∧ Loop.capture env = Returns shot
    ∧ Loop.recorder env (Loop.WriteStep (Loop.step s + 1) "screenshot")
      = Returns tt
    ∧ msgs = Loop.build_messages env s0.
Proof.
  intros Hin.
  assert (Hq0 : adds no_model_call (Loop.clear_trace s)
                  (Loop.state_of (Loop.approach cfg env (Loop.clear_trace s))))
    by apply quiet_approach.
  assert (Hnil : ∀ m, Loop.EInvokeModel m ∉ Loop.trace (Loop.clear_trace s)).
  { intros m Hm. cbn in Hm. inversion Hm. }
  unfold Loop.run_cycle, Loop.observe, Loop.consult_model in Hin.
  unfold Loop.bind at 1 2 in Hin.
  destruct (Loop.approach cfg env (Loop.clear_trace s)) as [[] s0|e s1|k s1]
    eqn:Happ; cbn [Loop.state_of] in Hq0.
  - destruct (approach_Val _ _ _ _ Happ) as (Hst & Hp & Hstep & Hle & Hsys).
    cbn [Loop.step Loop.clear_trace] in Hstep, Hle.
    destruct (take_screenshot_cases env s0)
      as [(shot & Hcap & Hrec & Hts)|(e & s2 & Hts & _)].
    + exists s0, shot.
      split; [reflexivity|]. split; [exact Hst|]. split; [exact Hp|].
      split; [exact Hstep|]. split; [exact Hle|]. split; [exact Hcap|].
      split; [now rewrite <- Hstep|].
      unfold Loop.bind at 1 in Hin. rewrite Hts in Hin.
      unfold Loop.ask_model in Hin.
      unfold Loop.bind at 1, Loop.get at 1 in Hin.
      unfold Loop.bind at 1, Loop.emit at 1 in Hin.
      match type of Hin with
      | context [Loop.read_reply env ?n ?s3] =>
          pose proof (quiet_rest cfg env n s3) as Hq
      end.
      unfold Loop.bind in Hq. apply (quiet_trace _ _ _ Hq) in Hin. clear Hq.
      cbn [Loop.trace after Loop.control Loop.hub Loop.conversation
           Loop.system Loop.step Loop.parse_err_streak] in Hin.
      apply elem_of_app in Hin as [Hin|Hin].
      * apply elem_of_app in Hin as [Hin|Hin].
        -- destruct (Hnil msgs (quiet_trace _ _ _ Hq0 Hin)).
        -- apply list_elem_of_In in Hin. simpl in Hin.
           destruct Hin as [Hin|[Hin|[]]]; discriminate Hin.
      * apply list_elem_of_singleton in Hin. injection Hin as ->.
        reflexivity.
    + unfold Loop.bind at 1 in Hin. rewrite Hts in Hin.
      cbn [Loop.handled] in Hin.
      apply (quiet_trace _ _ _ (proj2 (quiet_on_exception cfg env e s2))) in Hin.
      assert (Hq2 : adds no_model_call s0 s2).
      { pose proof (quiet_take_screenshot env s0) as [_ H]. now rewrite Hts in H. }
      destruct (Hnil msgs (quiet_trace _ _ _ Hq0 (quiet_trace _ _ _ Hq2 Hin))).
  - cbn [Loop.handled] in Hin.
    apply (quiet_trace _ _ _ (proj2 (quiet_on_exception cfg env e s1))) in Hin.
    destruct (Hnil msgs (quiet_trace _ _ _ Hq0 Hin)).
  - cbn [Loop.handled Loop.state_of] in Hin.
    destruct (Hnil msgs (quiet_trace _ _ _ Hq0 Hin)).
Qed.

Lemma model_call_conditions_witness :
  ∃ s0 shot,
    Loop.approach sample_cfg (sample_env click)
      (Loop.clear_trace (sample_state 0)) = Loop.Val tt s0
    ∧ Loop.step s0 = 3
    ∧ Loop.capture (sample_env click) = Returns shot.
Proof.
  destruct (model_call_conditions sample_cfg (sample_env click) (sample_state 0)
              (Loop.build_messages (sample_env click) (sample_state 0)))
    as (s0 & shot & Happ & _ & _ & Hstep & _ & Hcap & _).
  { apply list_elem_of_In. vm_compute. right. right. left. reflexivity. }
  exists s0, shot. split; [exact Happ|]. split; [exact Hstep|exact Hcap].
Defined.

(** X24.  Supervisor guidance.  In a pass that finds the worker neither
    stopped nor paused and is within the step budget, the oldest pending
    guidance is taken off the queue.  If it is not empty, it enters the
    conversation as a user turn marked [injected], with the heading
    [[Supervisor Guidance]] and a newline before the text, and is logged
    and published; an empty string is taken off the queue and dropped.
    With no guidance pending, or an empty one, the pass makes no call
    before the capture. *)
Theorem guidance_enters_conversation (cfg : Loop.Config) (env : Loop.Env)
    (s : Loop.St)
    (Hs : stopped (State.apply_all (Loop.arrivals env) (Loop.control s)) = false)
    (Hp : paused (State.apply_all (Loop.arrivals env) (Loop.control s)) = false)
    (Hn : Loop.step s + 1 ≤ Loop.max_loop_count cfg) :
  let c0 := State.apply_all (Loop.arrivals env) (Loop.control s) in
  (injected c0 = [] →
     Loop.approach cfg env s
     = Loop.Val tt
         (Loop.mkSt c0 (Loop.hub s) (Loop.conversation s) (Loop.system s)
            (Loop.step s + 1) (Loop.parse_err_streak s) (Loop.trace s)))
  ∧ (∀ rest, injected c0 = ""%string :: rest →
       Loop.approach cfg env s
       = Loop.Val tt
           (Loop.mkSt (mkControl (status c0) false false rest) (Loop.hub s)
              (Loop.conversation s) (Loop.system s) (Loop.step s + 1)
              (Loop.parse_err_streak s) (Loop.trace s)))
  ∧ (∀ t rest, injected c0 = t :: rest → t ≠ ""%string →
       Loop.recorder env (Loop.LogConversation "user" (guidance t) true)
       = Returns tt →
       Loop.approach cfg env s
       = Loop.Val tt
           (Loop.mkSt (mkControl (status c0) false false rest)
              (published (Loop.now env) "conversation"
                 [("role", VStr "user"); ("text", VStr (guidance t))]%string
                 (Loop.hub s))
              (Loop.conversation s
               ++ [mkItem "user" (guidance t) (Loop.now env)
                     [("injected"%string, VBool true)]])
              (Loop.system s) (Loop.step s + 1) (Loop.parse_err_streak s)
              (Loop.trace s
               ++ [Loop.ERecorder (Loop.LogConversation "user" (guidance t) true);
                   Loop.EPublish "conversation"
                     [("role", VStr "user"); ("text", VStr (guidance t))]%string]))).
Proof.
  cbn zeta. rewrite (approach_open cfg env s Hs Hp).
  assert (Hle : (Loop.step s + 1 >? Loop.max_loop_count cfg) = false).
  { rewrite Z.gtb_ltb. apply Z.ltb_ge. lia. }
  split; [|split].
  - intros Hq. rewrite (pop_injected_nil _ Hq). cbn [fst snd].
    unfold Loop.bind. rewrite take_guidance_eval. cbv beta iota.
    rewrite count_step_eval. cbn zeta.
    rewrite Hle. unfold after. rewrite app_nil_r. reflexivity.
  - intros rest Hq. rewrite (pop_injected_cons _ _ _ Hq). cbn [fst snd].
    unfold Loop.bind. rewrite take_guidance_eval.
    change (String.eqb "" "") with true. cbv beta iota.
    rewrite count_step_eval. cbn zeta.
    rewrite Hle, Hs, Hp. unfold after. rewrite app_nil_r. reflexivity.
  - intros t rest Hq Ht Hrec. rewrite (pop_injected_cons _ _ _ Hq). cbn [fst snd].
    unfold Loop.bind. rewrite take_guidance_eval.
    destruct (String.eqb_spec t "") as [He|_]; [contradiction|]. cbn zeta.
    rewrite Hrec. cbv beta iota. rewrite count_step_eval. cbn zeta.
    rewrite Hle, Hs, Hp. unfold after.
    cbn [Loop.control Loop.hub Loop.conversation Loop.system Loop.step
         Loop.parse_err_streak Loop.trace].
    rewrite app_nil_r, <- app_assoc. reflexivity.
Qed.

Lemma guidance_enters_conversation_witness :
  ∃ s0,
    Loop.approach sample_cfg
      (Loop.mkEnv 7 [Inject "tap Wi-Fi"] [] (Returns (Loop.mkShot "img" 1170 2532))
         "img" [] (Returns (Loop.mkInvoke "reply" [click] 10)) (Returns tt)
         (Returns []) (fun _ => Returns tt))
      (sample_state 0)
    = Loop.Val tt s0
    ∧ Loop.conversation s0
      = Loop.conversation (sample_state 0)
        ++ [mkItem "user" (guidance "tap Wi-Fi") 7
              [("injected"%string, VBool true)]].
Proof.
  eexists. split.
  - refine (proj2 (proj2 (guidance_enters_conversation sample_cfg
              (Loop.mkEnv 7 [Inject "tap Wi-Fi"] []
                 (Returns (Loop.mkShot "img" 1170 2532)) "img" []
                 (Returns (Loop.mkInvoke "reply" [click] 10)) (Returns tt)
                 (Returns []) (fun _ => Returns tt))
              (sample_state 0) eq_refl eq_refl _))
              "tap Wi-Fi"%string [] eq_refl _ eq_refl).
    + simpl. lia.
    + discriminate.
  - reflexivity.
Defined.

(** X25.  The step budget.  A pass whose number exceeds [max_loop_count]
    ends the run: the status is [ERROR], published with the error
    [max_loop_count], the input monitor is stopped, and the pass neither
    captures the screen nor calls the model. *)
Theorem step_budget_ends_run (cfg : Loop.Config) (env : Loop.Env) (s : Loop.St)
    (Hs : stopped (State.apply_all (Loop.arrivals env) (Loop.control s)) = false)
    (Hp : paused (State.apply_all (Loop.arrivals env) (Loop.control s)) = false)
    (Hq : injected (State.apply_all (Loop.arrivals env) (Loop.control s)) = [])
    (Hn : Loop.max_loop_count cfg < Loop.step s + 1) :
  ∃ s',
    Loop.run_cycle cfg env s = Loop.Exit Loop.Return s'
    ∧ status (Loop.control s') = ERROR
    ∧ get_status (Loop.hub s')
      = [("status", VStatus ERROR); ("error", VStr "max_loop_count")]%string
    ∧ Loop.trace s'
      = Loop.EPublish "status"
          [("status", VStatus ERROR); ("error", VStr "max_loop_count")]%string
        :: monitor_stopped cfg
    ∧ Loop.conversation s' = Loop.conversation s
    ∧ Loop.step s' = Loop.step s + 1.
Proof.
  unfold Loop.run_cycle, Loop.observe.
  unfold Loop.bind at 1. unfold Loop.bind at 1.
  rewrite (approach_open cfg env (Loop.clear_trace s) Hs Hp).
  change (Loop.control (Loop.clear_trace s)) with (Loop.control s).
  rewrite (pop_injected_nil _ Hq). cbn [fst snd].
  unfold Loop.bind. rewrite take_guidance_eval. cbv beta iota.
  rewrite count_step_eval. cbn zeta.
  replace (Loop.step (Loop.clear_trace s) + 1 >? Loop.max_loop_count cfg)
    with true by (symmetry; rewrite Z.gtb_ltb; apply Z.ltb_lt; exact Hn).
  cbn [Loop.handled]. eexists. split; [reflexivity|].
  unfold after, status_set, status_event, published, get_status.
  cbn [Loop.control Loop.hub Loop.conversation Loop.step Loop.trace
       Loop.clear_trace _last_status app].
  rewrite (set_status_ERROR _ Hs). repeat split; reflexivity.
Qed.

Lemma step_budget_ends_run_witness :
  ∃ s',
    Loop.run_cycle (Loop.mkConfig false 2 true true 500) (sample_env click)
      (sample_state 0)
    = Loop.Exit Loop.Return s'
    ∧ status (Loop.control s') = ERROR
    ∧ Loop.trace s'
      = [Loop.EPublish "status"
           [("status", VStatus ERROR); ("error", VStr "max_loop_count")]%string].
Proof.
  destruct (step_budget_ends_run (Loop.mkConfig false 2 true true 500)
              (sample_env click) (sample_state 0) eq_refl eq_refl eq_refl)
    as (s' & Hr & Hst & _ & Ht & _); [simpl; lia|].
  exists s'. split; [exact Hr|]. split; [exact Hst|exact Ht].
Defined.

(** X26.  Errors.  When a statement of a pass raises an error (an
    exception of class [Exception], which is what a raising call stands for
    here), the [except] clause sets the status to [ERROR] (it stays
    [USER_STOPPED] for a stopped run), publishes it together with the error
    and the step, publishes an [error] event and logs the error.  When the
    recorder takes the log entry, the input monitor is stopped and the run
    ends; when the recorder raises instead, that exception leaves the pass,
    with the status and the [error] event out and the monitor still
    running.  A failing screen capture, for one, ends the run in this way,
    with no model call and the conversation as it was. *)
Theorem exception_ends_run (cfg : Loop.Config) (env : Loop.Env) (s : Loop.St) :
  (∀ e s1,
     Loop.bind (Loop.observe cfg env) (Loop.dispatch cfg env) (Loop.clear_trace s)
     = Loop.Exn e s1 →
     let c := State.set_status ERROR (Loop.control s1) in
     let extra := [("error", VStr e); ("step", VInt (Loop.step s1))]%string in
     let data :=
       [("where", VStr "loop"); ("error", VStr e);
        ("step", VInt (Loop.step s1))]%string in
     let hb := published (Loop.now env) "error" data
                 (status_set (Loop.now env) c extra (Loop.hub s1)) in
     let t := [status_event c extra; Loop.EPublish "error" data;
               Loop.ERecorder (Loop.LogEvent "error")] in
     status c = (if stopped (Loop.control s1) then USER_STOPPED else ERROR)
     ∧ get_status hb = ("status"%string, VStatus (status c)) :: extra
     ∧ Loop.run_cycle cfg env s
       = match Loop.recorder env (Loop.LogEvent "error") with
         | Returns _ =>
             Loop.Exit Loop.Return (after s1 c hb (t ++ monitor_stopped cfg))
         | Raises e' => Loop.Exn e' (after s1 c hb t)
         end)
  ∧ (∀ s0 e,
       Loop.approach cfg env (Loop.clear_trace s) = Loop.Val tt s0 →
       Loop.capture env = Raises e →
       Loop.recorder env (Loop.LogEvent "error") = Returns tt →
       ∃ s',
         Loop.run_cycle cfg env s = Loop.Exit Loop.Return s'
         ∧ status (Loop.control s') = ERROR
         ∧ Loop.conversation s' = Loop.conversation s0
         ∧ Loop.trace s'
           = Loop.trace s0
             ++ [Loop.ECapture;
                 Loop.EPublish "status"
                   [("status", VStatus ERROR); ("error", VStr e);
                    ("step", VInt (Loop.step s + 1))]%string;
                 Loop.EPublish "error"
                   [("where", VStr "loop"); ("error", VStr e);
                    ("step", VInt (Loop.step s + 1))]%string;
                 Loop.ERecorder (Loop.LogEvent "error")]
             ++ monitor_stopped cfg).
Proof.
  split.
  - intros e s1 Hbody. cbn zeta. split; [|split; [reflexivity|]].
    + unfold State.set_status.
      destruct (stopped (Loop.control s1)); [reflexivity|].
      now destruct (paused (Loop.control s1)).
    + unfold Loop.run_cycle.
      change (Loop.bind (Loop.observe cfg env)
                (fun pred => Loop.dispatch cfg env pred) (Loop.clear_trace s))
        with (Loop.bind (Loop.observe cfg env) (Loop.dispatch cfg env)
                (Loop.clear_trace s)).
      rewrite Hbody. cbn [Loop.handled]. rewrite on_exception_eval. cbn zeta.
      now destruct (Loop.recorder env (Loop.LogEvent "error")) as [[]|e'].
  - intros s0 e Happ Hcap Hrec.
    destruct (approach_Val _ _ _ _ Happ) as (Hst & _ & Hstep & _).
    cbn [Loop.step Loop.clear_trace] in Hstep.
    assert (Hts : Loop.take_screenshot env s0
                  = Loop.Exn e (after s0 (Loop.control s0) (Loop.hub s0)
                                  [Loop.ECapture])).
    { unfold Loop.take_screenshot, Loop.call, Loop.bind, Loop.emit.
      now rewrite Hcap. }
    unfold Loop.run_cycle, Loop.observe, Loop.consult_model, Loop.bind.
    rewrite Happ, Hts. cbn [Loop.handled].
    rewrite on_exception_eval. cbn zeta. rewrite Hrec.
    eexists. split; [reflexivity|].
    unfold after, status_event.
    cbn [Loop.control Loop.hub Loop.conversation Loop.step Loop.trace].
    rewrite (set_status_ERROR _ Hst), Hstep. cbn [status].
    split; [reflexivity|]. split; [reflexivity|].
    now rewrite <- !app_assoc.
Qed.

(** A pass whose screen capture fails. *)
Lemma exception_ends_run_witness :
  ∃ s',
    Loop.run_cycle sample_cfg
      (Loop.mkEnv 0 [] [] (Raises "no window") "img" []
         (Returns (Loop.mkInvoke "reply" [click] 10)) (Returns tt) (Returns [])
         (fun _ => Returns tt))
      (sample_state 0)
    = Loop.Exit Loop.Return s'
    ∧ status (Loop.control s') = ERROR.
Proof.
  edestruct (proj2 (exception_ends_run sample_cfg
                      (Loop.mkEnv 0 [] [] (Raises "no window") "img" []
                         (Returns (Loop.mkInvoke "reply" [click] 10))
                         (Returns tt) (Returns []) (fun _ => Returns tt))
                      (sample_state 0)))
    as (s' & Hr & Hst & _);
    [vm_compute; reflexivity|reflexivity|reflexivity|].
  exists s'. split; [exact Hr|exact Hst].
Defined.

(** X27.  The two terminal actions are never executed.  When the first
    parsed action is [finished] or [call_user], the pass neither activates
    the app nor executes anything: with the hang setting for that action it
    parks the run ([HANG], paused, a [hang] event with the action as its
    reason) and goes on to the next pass; without it, it ends the run as
    [END] or [CALL_USER] and stops the input monitor.  Either way the hub
    holds the new status. *)
Theorem terminal_action_not_executed (cfg : Loop.Config) (env : Loop.Env)
    (pred : PredictionParsed) (s : Loop.St)
    (Hty : action_type pred = "finished"%string
           ∨ action_type pred = "call_user"%string) :
  let fin := String.eqb (action_type pred) "finished" in
  let hang := if fin then Loop.hang_on_finished cfg
              else Loop.hang_on_call_user cfg in
  let final := if fin then END else CALL_USER in
  ∃ s',
    Loop.act cfg env pred s
    = Loop.Exit (if hang then Loop.Continue else Loop.Return) s'
    ∧ Loop.control s'
      = (if hang then State.pause (State.set_status HANG (Loop.control s))
         else State.set_status final (Loop.control s))
    ∧ Loop.trace s'
      = Loop.trace s
        ++ status_event (Loop.control s') []
           :: (if hang
               then [Loop.EPublish "hang"
                       [("reason"%string, VStr (action_type pred))]]
               else monitor_stopped cfg)
    ∧ get_status (Loop.hub s')
      = [("status"%string, VStatus (status (Loop.control s')))]
    ∧ Loop.conversation s' = Loop.conversation s
    ∧ (hang = true → paused (Loop.control s') = true)
    ∧ (stopped (Loop.control s) = false →
       status (Loop.control s') = if hang then HANG else final).
Proof.
  cbn zeta. destruct Hty as [Hty|Hty].
  - rewrite (act_finished cfg env pred s Hty), Hty.
    change (String.eqb "finished" "finished") with true. cbv iota.
    destruct (Loop.hang_on_finished cfg).
    + rewrite (park_eval (A:=unit)) by reflexivity. cbn zeta.
      eexists. split; [reflexivity|].
      unfold after, status_set, published, get_status.
      cbn [Loop.control Loop.hub Loop.conversation Loop.trace _last_status].
      repeat split; try reflexivity. apply park_control.
    + rewrite (end_eval (A:=unit)). cbn zeta. eexists. split; [reflexivity|].
      unfold after, status_set, published, get_status.
      cbn [Loop.control Loop.hub Loop.conversation Loop.trace _last_status].
      repeat split; try reflexivity; [discriminate|].
      intros Hs. now apply set_status_final.
  - rewrite (act_call_user cfg env pred s Hty), Hty.
    change (String.eqb "call_user" "finished") with false. cbv iota.
    destruct (Loop.hang_on_call_user cfg).
    + rewrite (park_eval (A:=unit)) by reflexivity. cbn zeta.
      eexists. split; [reflexivity|].
      unfold after, status_set, published, get_status.
      cbn [Loop.control Loop.hub Loop.conversation Loop.trace _last_status].
      repeat split; try reflexivity. apply park_control.
    + rewrite (end_eval (A:=unit)). cbn zeta. eexists. split; [reflexivity|].
      unfold after, status_set, published, get_status.
      cbn [Loop.control Loop.hub Loop.conversation Loop.trace _last_status].
      repeat split; try reflexivity; [discriminate|].
      intros Hs. now apply set_status_final.
Qed.

Lemma terminal_action_not_executed_witness :
  ∃ s',
    Loop.act sample_cfg (sample_env click) (mkPred "finished" [] "done" "finished()")
      (sample_state 0)
    = Loop.Exit Loop.Continue s'
    ∧ Loop.trace s'
      = [Loop.EPublish "status" [("status"%string, VStatus HANG)];
         Loop.EPublish "hang" [("reason"%string, VStr "finished")]].
Proof.
  destruct (terminal_action_not_executed sample_cfg (sample_env click)
              (mkPred "finished" [] "done" "finished()") (sample_state 0)
              (or_introl eq_refl))
    as (s' & Hr & Hc & Ht & _).
  exists s'. split; [exact Hr|]. rewrite Ht, Hc. reflexivity.
Defined.

(** X28.  Before the loop.  A failure to launch the app ends the run
    before the first pass: the status goes from [RUNNING] to [ERROR], both
    are published, an [error] event names [launch_app] and the error, the
    input monitor is stopped, and the conversation is as it was: not even
    the system prompt is added.  When the app launches and the recorder
    takes the two log entries, [run] enters the loop with the system prompt
    and the instruction as the last two turns of the conversation, the step
    count and the parse-error streak at 0, and the instruction published to
    the supervisor; for a worker with a new conversation, the first model
    call then carries the system prompt, the instruction and the current
    screen. *)
Theorem run_before_the_loop (cfg : Loop.Config) (env0 : Loop.Env)
    (instruction : string) (s : Loop.St) :
  let c := State.set_status RUNNING (Loop.control s) in
  let opening := [status_event c []] ++ monitor_started cfg ++ [Loop.ELaunchApp] in
  (∀ e envs, ∃ s',
     Loop.run cfg env0 (Raises e) instruction envs s = Loop.Exit Loop.Return s'
     ∧ Loop.control s' = State.set_status ERROR c
     ∧ Loop.conversation s' = Loop.conversation s
     ∧ Loop.trace s'
       = Loop.trace s ++ opening
         ++ [status_event (State.set_status ERROR c) [("error", VStr e)]%string;
             Loop.EPublish "error"
               [("where", VStr "launch_app"); ("error", VStr e)]%string]
         ++ monitor_stopped cfg
     ∧ (stopped (Loop.control s) = false → status (Loop.control s') = ERROR))
  ∧ (Loop.recorder env0 (Loop.LogConversation "system" (Loop.system s) false)
     = Returns tt →
     Loop.recorder env0 (Loop.LogConversation "user" instruction false)
     = Returns tt →
     ∃ s',
       Loop.prologue cfg env0 (Returns tt) instruction s = Loop.Val tt s'
       ∧ (∀ envs, Loop.run cfg env0 (Returns tt) instruction envs s
                  = Loop.cycles cfg envs s')
       ∧ Loop.control s' = c
       ∧ Loop.conversation s'
         = Loop.conversation s
           ++ [mkItem "system" (Loop.system s) (Loop.now env0) [];
               mkItem "user" instruction (Loop.now env0) []]
       ∧ Loop.step s' = 0 ∧ Loop.parse_err_streak s' = 0
       ∧ Loop.system s' = Loop.system s
       ∧ Loop.trace s'
         = Loop.trace s ++ opening
           ++ [Loop.ERecorder
                 (Loop.LogConversation "system" (Loop.system s) false);
               Loop.ERecorder (Loop.LogConversation "user" instruction false);
               Loop.EPublish "conversation"
                 [("role", VStr "user"); ("text", VStr instruction)]%string]
       ∧ (Loop.conversation s = [] →
          ∀ env, Loop.build_messages env s'
                 = [mkMessage "system" (Loop.system s) None;
                    mkMessage "user" instruction None;
                    Loop._vision_msg "Current screen. Decide next action."
                      (Loop.send_b64 env)])).
Proof.
  cbn zeta. split.
  - intros e envs. unfold Loop.run. rewrite prologue_launch. cbn zeta.
    rewrite !after_after.
    eexists. split; [reflexivity|].
    cbn [Loop.control Loop.hub Loop.conversation Loop.trace after].
    split; [reflexivity|]. split; [reflexivity|]. split.
    + rewrite <- !app_assoc. reflexivity.
    + intros Hs. apply set_status_final; [|discriminate].
      unfold State.set_status. rewrite Hs. now destruct (paused (Loop.control s)).
  - intros Hsys Husr.
    assert (Hp : ∃ s', Loop.prologue cfg env0 (Returns tt) instruction s
                       = Loop.Val tt s'
               ∧ Loop.control s' = State.set_status RUNNING (Loop.control s)
               ∧ Loop.conversation s'
                 = Loop.conversation s
                   ++ [mkItem "system" (Loop.system s) (Loop.now env0) [];
                       mkItem "user" instruction (Loop.now env0) []]
               ∧ Loop.step s' = 0 ∧ Loop.parse_err_streak s' = 0
               ∧ Loop.system s' = Loop.system s
               ∧ Loop.trace s'
                 = Loop.trace s
                   ++ ([status_event (State.set_status RUNNING (Loop.control s)) []]
                       ++ monitor_started cfg ++ [Loop.ELaunchApp])
                   ++ [Loop.ERecorder
                         (Loop.LogConversation "system" (Loop.system s) false);
                       Loop.ERecorder
                         (Loop.LogConversation "user" instruction false);
                       Loop.EPublish "conversation"
                         [("role", VStr "user"); ("text", VStr instruction)]%string]).
    { rewrite prologue_launch. cbn zeta.
      unfold Loop.bind at 1, Loop.get at 1.
      unfold Loop.bind at 1, Loop.conversation_add at 1, Loop.bind at 1,
        Loop.get at 1, Loop.set_conversation at 1, Conversation.add.
      unfold Loop.bind at 1, Loop.rec at 1, Loop.call at 1, Loop.bind at 1,
        Loop.emit at 1.
      cbn [Loop.control Loop.hub Loop.conversation Loop.system Loop.step
           Loop.parse_err_streak Loop.trace after].
      rewrite Hsys. unfold Loop.ret at 1.
      unfold Loop.bind at 1, Loop.conversation_add at 1, Loop.bind at 1,
        Loop.get at 1, Loop.set_conversation at 1, Conversation.add.
      unfold Loop.bind at 1, Loop.rec at 1, Loop.call at 1, Loop.bind at 1,
        Loop.emit at 1.
      cbn [Loop.control Loop.hub Loop.conversation Loop.system Loop.step
           Loop.parse_err_streak Loop.trace after].
      rewrite Husr. unfold Loop.ret at 1.
      unfold Loop.bind at 1, Loop._publish_conv. rewrite publish_after.
      unfold Loop.bind, Loop.set_step, Loop.set_streak.
      eexists. split; [reflexivity|].
      cbn [Loop.control Loop.hub Loop.conversation Loop.system Loop.step
           Loop.parse_err_streak Loop.trace after].
      repeat split; try reflexivity.
      - now rewrite <- app_assoc.
      - rewrite <- !app_assoc. reflexivity. }
    destruct Hp as (s' & Hr & Hc & Hconv & Hstep & Hstreak & Hsy & Ht).
    exists s'. split; [exact Hr|]. split.
    { intros envs. unfold Loop.run. now rewrite Hr. }
    do 6 (split; [assumption|]).
    intros Hnew env. unfold Loop.build_messages. rewrite Hconv, Hnew, Hsy.
    reflexivity.
Qed.

Lemma run_before_the_loop_witness :
  ∃ s',
    Loop.prologue sample_cfg (sample_env click) (Returns tt) "open settings"
      (Loop.mkSt new_control new_hub [] "sys" 0 0 [])
    = Loop.Val tt s'
    ∧ Loop.conversation s'
      = [mkItem "system" "sys" 0 []; mkItem "user" "open settings" 0 []].
Proof.
  destruct (proj2 (run_before_the_loop sample_cfg (sample_env click)
                     "open settings"
                     (Loop.mkSt new_control new_hub [] "sys" 0 0 []))
              eq_refl eq_refl)
    as (s' & Hr & _ & _ & Hconv & _).
  exists s'. split; [exact Hr|exact Hconv].
Defined.

(** ** The loop and the control object *)

Create HintDb respects.

Section ControlInvariant.
Import Loop.
Local Open Scope loop_scope.
Variable I : WorkerControl → Prop.

Lemma respects_bind {A B} (m : M A) (k : A → M B) :
  respects I m → (∀ a, respects I (k a)) → respects I (bind m k).
Proof.
  intros Hm Hk s Hs. unfold bind. specialize (Hm s Hs).
  destruct (m s) as [a s'|e s'|c s']; simpl in *; [|exact Hm|exact Hm].
  now apply Hk.
Qed.

Lemma respects_same {A} (m : M A) :
  (∀ s, control (state_of (m s)) = control s) → respects I m.
Proof. intros H s Hs. now rewrite H. Qed.

Lemma respects_ret {A} (a : A) : respects I (ret a).
Proof. now apply respects_same. Qed.
Lemma respects_get : respects I get.
Proof. now apply respects_same. Qed.
Lemma respects_raise {A} e : respects I (@raise A e).
Proof. now apply respects_same. Qed.
Lemma respects_exit {A} k : respects I (@exit_ A k).
Proof. now apply respects_same. Qed.
Lemma respects_emit e : respects I (emit e).
Proof. now apply respects_same. Qed.
Lemma respects_set_hub hb : respects I (set_hub hb).
Proof. now apply respects_same. Qed.
Lemma respects_set_conversation c : respects I (set_conversation c).
Proof. now apply respects_same. Qed.
Lemma respects_set_step n : respects I (set_step n).
Proof. now apply respects_same. Qed.
Lemma respects_set_streak n : respects I (set_streak n).
Proof. now apply respects_same. Qed.

Lemma respects_outcome {A} (o : outcome A) :
  respects I (match o with Returns a => ret a | Raises err => raise err end).
Proof. destruct o; [apply respects_ret|apply respects_raise]. Qed.

Lemma respects_call {A} e (o : outcome A) : respects I (call e o).
Proof.
  unfold call. apply respects_bind; [apply respects_emit|]. intros _.
  apply respects_outcome.
Qed.

Lemma respects_publish env type_ data : respects I (publish env type_ data).
Proof. apply respects_same. intros s. now rewrite publish_eval. Qed.

Lemma respects_hub_set_status env extra : respects I (hub_set_status env extra).
Proof.
  apply respects_same. intros s.
  destruct (Hub.has_keyword "status" extra) eqn:Hkw;
    [now rewrite hub_set_status_raises by exact Hkw
    |now rewrite hub_set_status_eval by exact Hkw].
Qed.

Lemma respects_conversation_add env r t m :
  respects I (conversation_add env r t m).
Proof. now apply respects_same. Qed.

Lemma respects_monitor_stop cfg : respects I (monitor_stop cfg).
Proof.
  unfold monitor_stop. destruct (auto_pause_on_user_input cfg);
    [apply respects_emit|apply respects_ret].
Qed.

Lemma respects_rec env c : respects I (rec env c).
Proof. apply respects_call. Qed.

Lemma respects__publish_conv env r t : respects I (_publish_conv env r t).
Proof. apply respects_publish. Qed.

(** A call on the control object. *)
Lemma respects_ctl f : (∀ c, I c → I (f c)) → respects I (ctl f).
Proof. intros Hf s Hs. now apply Hf. Qed.

(** The calls that other threads make on it. *)
Lemma respects_apply_all ops :
  (∀ o c, I c → I (State.apply o c)) → ∀ c, I c → I (State.apply_all ops c).
Proof.
  intros I_apply. induction ops as [|o ops IH]; intros c Hc; [exact Hc|].
  apply IH, I_apply, Hc.
Qed.

End ControlInvariant.

#[local] Hint Resolve respects_ret respects_get respects_raise respects_exit
  respects_emit respects_set_hub respects_set_conversation respects_set_step
  respects_set_streak respects_outcome respects_call respects_publish
  respects_hub_set_status respects_conversation_add respects_monitor_stop
  respects_rec respects__publish_conv respects_ctl : respects.

(** Takes a statement of the loop apart along its binds and branches. *)
Ltac respects_steps :=
  repeat first
    [ solve [auto with respects]
    | solve [apply respects_ctl; apply respects_apply_all; assumption]
    | apply respects_bind; [|intros ?]
    | match goal with
      | |- respects _ (if ?b then _ else _) => destruct b
      | |- respects _ (match ?x with _ => _ end) => destruct x
      end ].

Section LoopAndControl.
Import Loop.
Local Open Scope loop_scope.
Variable I : WorkerControl → Prop.

(** The calls that the loop itself makes on the control object. *)
Hypothesis I_set_status : ∀ st c, I c → I (State.set_status st c).
Hypothesis I_pause : ∀ c, I c → I (State.pause c).
Hypothesis I_pop : ∀ c, I c → I (snd (pop_injected c)).

Lemma respects_on_stopped {A} cfg env : respects I (@on_stopped A cfg env).
Proof. unfold on_stopped. respects_steps. Qed.

Lemma respects_dispatch cfg env pred : respects I (dispatch cfg env pred).
Proof. unfold dispatch, count_parse_error, act. respects_steps. Qed.

Lemma respects_on_exception cfg env e : respects I (on_exception cfg env e).
Proof. unfold on_exception. respects_steps. Qed.

(** The pass from the model's reply on, the supervisor's calls during the
    model call being in. *)
Lemma respects_replied cfg env n s :
  I (State.apply_all (in_flight env) (control s)) →
  I (control
       (state_of
          (handled cfg env (bind (read_reply env n) (dispatch cfg env) s)))).
Proof.
  intros Hs. unfold read_reply. unfold bind at 1. unfold bind at 1, ctl at 1.
  match goal with
  | |- context [state_of (handled cfg env
                            match ?m ?s1 with
                            | Val _ _ => _ | Exn _ _ => _ | Exit _ _ => _
                            end)] =>
      assert (Hm : respects I m) by respects_steps;
      specialize (Hm s1 Hs); destruct (m s1) as [pred s'|e s'|k s']
  end; cbn [handled state_of] in *.
  - pose proof (respects_dispatch cfg env pred s' Hm) as Hd.
    destruct (dispatch cfg env pred s') as [a s''|e s''|k s''];
      cbn [handled state_of] in *; [exact Hd| |exact Hd].
    now apply respects_on_exception.
  - now apply respects_on_exception.
  - exact Hm.
Qed.

Hypothesis I_apply : ∀ o c, I c → I (State.apply o c).

Lemma respects_pause_gate cfg env wakeups :
  respects I (pause_gate cfg env wakeups).
Proof.
  pose proof (@respects_on_stopped unit cfg env).
  induction wakeups as [|ops rest IH]; cbn [pause_gate]; respects_steps.
Qed.

Lemma respects_approach cfg env : respects I (approach cfg env).
Proof.
  pose proof (@respects_on_stopped unit cfg env).
  pose proof (respects_pause_gate cfg env).
  unfold approach. respects_steps.
Qed.

Lemma respects_observe cfg env : respects I (observe cfg env).
Proof.
  pose proof (respects_approach cfg env).
  unfold observe, consult_model, take_screenshot, ask_model, read_reply.
  respects_steps.
Qed.

Lemma respects_run_cycle cfg env s :
  I (control s) → I (control (state_of (run_cycle cfg env s))).
Proof.
  intros Hs. unfold run_cycle.
  assert (Hb : respects I (pred <- observe cfg env ;; dispatch cfg env pred)).
  { apply respects_bind; [apply respects_observe|].
    intros pred. apply respects_dispatch. }
  specialize (Hb (clear_trace s) Hs).
  destruct (bind _ _ _) as [a s'|e s'|k s']; cbn [handled state_of] in *;
    [exact Hb| |exact Hb].
  now apply respects_on_exception.
Qed.

Lemma respects_cycles cfg envs : ∀ s,
  I (control s) → I (control (state_of (cycles cfg envs s))).
Proof.
  induction envs as [|env rest IH]; intros s Hs; [exact Hs|].
  cbn [cycles]. pose proof (respects_run_cycle cfg env s Hs) as Hc.
  destruct (run_cycle cfg env s) as [a s'|e s'|[| |] s'];
    cbn [state_of] in *; auto.
Qed.

Lemma respects_prologue cfg env launch instruction :
  respects I (prologue cfg env launch instruction).
Proof. unfold prologue. respects_steps. Qed.

End LoopAndControl.

Section PausedWorker.
Import Loop.
Local Open Scope loop_scope.

Lemma parked_set_status st c :
  paused c = true ∧ status c ≠ RUNNING →
  paused (State.set_status st c) = true ∧ status (State.set_status st c) ≠ RUNNING.
Proof.
  destruct c as [s0 p sp inj]. cbn [paused status]. intros [-> Hst].
  unfold State.set_status. cbn [stopped paused andb].
  destruct sp; [split; [reflexivity|discriminate]|].
  destruct st; cbn [StatusEnum_eqb status paused]; split; auto; discriminate.
Qed.

Lemma parked_pause c :
  paused c = true ∧ status c ≠ RUNNING →
  paused (State.pause c) = true ∧ status (State.pause c) ≠ RUNNING.
Proof.
  intros [_ Hst]. split; [reflexivity|]. unfold State.pause. cbn [status].
  destruct (StatusEnum_eqb (status c) RUNNING); [discriminate|exact Hst].
Qed.

(** From the capture on, a pass is the rest of the model call and what
    follows it. *)
Lemma run_cycle_replied cfg env s s0 shot :
  approach cfg env (clear_trace s) = Val tt s0 →
  capture env = Returns shot →
  recorder env (WriteStep (step s0) "screenshot") = Returns tt →
  run_cycle cfg env s
  = handled cfg env
      (bind (read_reply env (step s0)) (dispatch cfg env)
         (after s0 (control s0) (hub s0)
            [ECapture; ERecorder (WriteStep (step s0) "screenshot");
             EInvokeModel (build_messages env s0)])).
Proof.
  intros Happ Hcap Hrec.
  destruct (take_screenshot_cases env s0)
    as [(shot' & _ & _ & Hts)|(e & s2 & _ & [Hc|Hr])]; [|congruence..].
  unfold run_cycle, observe, consult_model, ask_model, bind, get, emit.
  rewrite Happ, Hts. unfold after.
  cbn [control hub conversation system step parse_err_streak trace].
  rewrite <- app_assoc. reflexivity.
Qed.

End PausedWorker.

(** X29.  The loop acts on the control object only through its methods,
    and so do the other threads: a property of the control object that
    each of [pause], [resume], [stop], [set_status], [inject] and
    [pop_injected] keeps, holds after every pass and at the end of the run
    if it held before.  That a stopped run has status [USER_STOPPED] is
    such a property. *)
Theorem loop_keeps_control_invariants (I : WorkerControl → Prop)
    (cfg : Loop.Config) (s : Loop.St)
    (I_apply : ∀ o c, I c → I (State.apply o c))
    (Hs : I (Loop.control s)) :
  (∀ env, I (Loop.control (Loop.state_of (Loop.run_cycle cfg env s))))
  ∧ (∀ envs, I (Loop.control (Loop.state_of (Loop.cycles cfg envs s))))
  ∧ (∀ env0 launch instruction envs,
       I (Loop.control
            (Loop.state_of (Loop.run cfg env0 launch instruction envs s)))).
Proof.
  assert (I_set_status : ∀ st c, I c → I (State.set_status st c))
    by (intros st; apply (I_apply (SetStatus st))).
  assert (I_pause : ∀ c, I c → I (State.pause c)) by apply (I_apply Pause).
  assert (I_pop : ∀ c, I c → I (snd (pop_injected c)))
    by apply (I_apply PopInjected).
  split; [|split].
  - intros env. now apply respects_run_cycle.
  - intros envs. now apply respects_cycles.
  - intros env0 launch instruction envs. unfold Loop.run.
    pose proof (respects_prologue I I_set_status cfg env0 launch instruction s Hs)
      as Hp.
    destruct (Loop.prologue cfg env0 launch instruction s) as [a s'|e s'|k s'];
      cbn [Loop.state_of] in *; [|exact Hp..].
    now apply respects_cycles.
Qed.

Lemma loop_keeps_control_invariants_witness :
  halted
    (Loop.control
       (Loop.state_of
          (Loop.run_cycle sample_cfg (sample_env click)
             (Loop.mkSt (mkControl USER_STOPPED false true []) new_hub []
                "sys" 0 0 [])))).
Proof.
  refine (proj1 (loop_keeps_control_invariants halted sample_cfg
                   (Loop.mkSt (mkControl USER_STOPPED false true []) new_hub []
                      "sys" 0 0 [])
                   apply_halted _) (sample_env click)).
  split; reflexivity.
Defined.

(** X30.  A pause that arrives while the model call is in flight survives
    the pass.  If the supervisor's calls during the model call leave the
    worker paused, with a status other than [RUNNING], then whatever the
    model replied and whatever the pass goes on to do, it ends with the
    worker still paused and the status still not [RUNNING]: the
    [set_status(RUNNING)] after an executed action does not undo the
    pause, and the next pass waits in the gate. *)
Theorem pause_survives_pass (cfg : Loop.Config) (env : Loop.Env)
    (s s0 : Loop.St) (shot : Loop.ScreenshotOutput)
    (Happ : Loop.approach cfg env (Loop.clear_trace s) = Loop.Val tt s0)
    (Hcap : Loop.capture env = Returns shot)
    (Hrec : Loop.recorder env (Loop.WriteStep (Loop.step s0) "screenshot")
            = Returns tt)
    (Hp : paused (State.apply_all (Loop.in_flight env) (Loop.control s0)) = true)
    (Hst : status (State.apply_all (Loop.in_flight env) (Loop.control s0))
           ≠ RUNNING) :
  let s' := Loop.state_of (Loop.run_cycle cfg env s) in
  paused (Loop.control s') = true ∧ status (Loop.control s') ≠ RUNNING.
Proof.
  cbn zeta. rewrite (run_cycle_replied cfg env s s0 shot Happ Hcap Hrec).
  apply (respects_replied (fun c => paused c = true ∧ status c ≠ RUNNING)
           parked_set_status parked_pause).
  cbn [Loop.control after]. auto.
Qed.

(** The supervisor pauses a run while the model thinks about a click. *)
Lemma pause_survives_pass_witness :
  let env :=
    Loop.mkEnv 0 [] [] (Returns (Loop.mkShot "img" 1170 2532)) "img" [Pause]
      (Returns (Loop.mkInvoke "reply" [click] 10)) (Returns tt) (Returns [])
      (fun _ => Returns tt) in
  let s' := Loop.state_of (Loop.run_cycle sample_cfg env (sample_state 0)) in
  paused (Loop.control s') = true ∧ status (Loop.control s') ≠ RUNNING.
Proof.
  intros env.
  eapply (pause_survives_pass sample_cfg env (sample_state 0));
    [vm_compute; reflexivity|reflexivity|reflexivity|reflexivity|discriminate].
Defined.
